(** * hyde grouper plugin: [hyde/ext/plugins/grouper.py]

    A shallow embedding of the [Group] class and of [GrouperPlugin.begin_site],
    and the properties of the grouping subsystem proved over it.  The first
    part holds the definitions, the second the theorems. *)

From stdpp Require Import base option list strings gmap.

Open Scope string_scope.

Open Scope list_scope.

(** * Definitions *)

(** ** Python values

    Configuration and metadata are plain data: [None], strings, sequences
    and attribute objects ([Expando]).  An attribute object is the list of
    its [(key, value)] items in the order in which its dictionary iterates
    them. *)

#[warnings="-register-all"] Inductive value : Type :=
| VNone
| VStr (s : string)
| VList (items : list value)
| VObj (d : list (string * value)).

(** Exceptions that leave the modelled code uncaught.  [Unmodelled] marks an
    input on which the embedding says nothing. *)
Inductive exn : Type :=
| TypeError
| AttributeError
| RuntimeError
| Unmodelled.

Inductive result (A : Type) : Type :=
| Ok (a : A)
| Raise (e : exn).

Arguments Ok {A} a.

Arguments Raise {A} e.

#[global] Instance result_ret : MRet result := fun A a => Ok a.

#[global] Instance result_bind : MBind result := fun A B f m =>
  match m with
  | Ok a => f a
  | Raise e => Raise e
  end.

(** [getattr(o, key, default)] and [hasattr(o, key)] on an attribute object. *)
Fixpoint assoc {A : Type} (key : string) (d : list (string * A)) : option A :=
  match d with
  | [] => None
  | (k, v) :: rest => if String.eqb k key then Some v else assoc key rest
  end.

(** Truth value of a Python object ([if x:]). *)
Definition truthy (v : value) : bool :=
  match v with
  | VNone => false
  | VStr s => negb (String.eqb s "")
  | VList items => match items with [] => false | _ => true end
  | VObj _ => true
  end.

(** [==] between a metadata value and a group name.  Attribute objects
    compare by identity, and a metadata object is never the object held by a
    group, so the comparison of two objects is [False]. *)
Fixpoint py_eq (a b : value) {struct a} : bool :=
  match a, b with
  | VNone, VNone => true
  | VStr s, VStr t => String.eqb s t
  | VList xs, VList ys =>
      (fix all2 (xs ys : list value) {struct xs} : bool :=
         match xs, ys with
         | [], [] => true
         | x :: xs', y :: ys' => py_eq x y && all2 xs' ys'
         | _, _ => false
         end) xs ys
  | _, _ => false
  end.

(** ['%s' % v]: the text of [None] and of a string; the [repr] of a sequence
    or of an object is not modelled. *)
Definition py_str (v : value) : result string :=
  match v with
  | VNone => Ok "None"
  | VStr s => Ok s
  | _ => Raise Unmodelled
  end.

(** The text ['%s' % v] of a value that has one. *)
Definition text (v : value) : string :=
  match v with
  | VNone => "None"
  | VStr s => s
  | _ => ""
  end.

(** The values of which ['%s' % v] is modelled. *)
Definition is_text (v : value) : bool :=
  match v with
  | VNone | VStr _ => true
  | _ => false
  end.

Definition is_str (v : value) : bool :=
  match v with
  | VStr _ => true
  | _ => false
  end.

(** ** Group objects and the store *)

(** A [Group] object is identified by its position in the store. *)
Abbreviation gid := nat (only parsing).

(** What the [parent] and [root] attributes hold: a reference to a [Group],
    or a plain value ([None] for the parent of a root, or whatever a
    configuration field of that name assigned). *)
Inductive slot : Type :=
| SRef (g : gid)
| SVal (v : value).

(** The instance dictionary of a [Group]: the attributes [__init__] sets,
    and every other field copied from the configuration. *)
Record Group : Type := mkGroup {
  name : value;
  parent : slot;
  root : slot;
  groups : list gid;
  sorter : value;
  fields : list (string * value)
}.

(** A method attached to the [Node] class by [add_method]:
    [partial(Group.walk_groups_in_node, group=g)] or
    [partial(Group.walk_resources, group=g)]. *)
Inductive method : Type :=
| walk_groups_in_node_of (group : gid)
| walk_resources_of (group : gid).

(** The store: the [Group] objects in allocation order (a [gid] is an index)
    and the attributes [add_method] has set on the [Node] class, newest
    first; attribute lookup finds the newest binding of a name, which is the
    value the overwritten class attribute holds. *)
Record world : Type := mkWorld {
  heap : list Group;
  node_methods : list (string * method)
}.

Definition set_heap (h : list Group) (w : world) : world :=
  {| heap := h; node_methods := node_methods w |}.

(** Modelled from the spec: [add_method] of [hyde.util], a module outside
    the plugin.  [add_method(Node, method_name, f, group=g)]
    attaches the method to the [Node] type itself, shared by all nodes; a
    second attachment under the same name overwrites the first. *)
Definition add_method (method_name : string) (m : method) (w : world) : world :=
  {| heap := heap w; node_methods := (method_name, m) :: node_methods w |}.

Definition update_fields (key : string) (v : value) (d : list (string * value))
  : list (string * value) :=
  (key, v) :: List.filter (fun kv => negb (String.eqb (fst kv) key)) d.

(** Modelled from the spec: [Expando.set_expando] of [hyde.model], a module
    outside the plugin.  The assignment of a field falls through
    to plain dynamic-attribute storage, [setattr(self, key, value)] on the
    instance dictionary, with no coercion and no validation: a field named
    like one of the attributes that [__init__] has set replaces it.  The
    key [groups] never reaches it; a field named like a method of the class
    is outside the model. *)
Definition setattr (key : string) (v : value) (o : Group) : Group :=
  if String.eqb key "name" then
    {| name := v; parent := parent o; root := root o; groups := groups o;
       sorter := sorter o; fields := fields o |}
  else if String.eqb key "parent" then
    {| name := name o; parent := SVal v; root := root o; groups := groups o;
       sorter := sorter o; fields := fields o |}
  else if String.eqb key "root" then
    {| name := name o; parent := parent o; root := SVal v; groups := groups o;
       sorter := sorter o; fields := fields o |}
  else if String.eqb key "sorter" then
    {| name := name o; parent := parent o; root := root o; groups := groups o;
       sorter := v; fields := fields o |}
  else
    {| name := name o; parent := parent o; root := root o; groups := groups o;
       sorter := sorter o; fields := update_fields key v (fields o) |}.

Definition set_groups (cs : list gid) (o : Group) : Group :=
  {| name := name o; parent := parent o; root := root o; groups := cs;
     sorter := sorter o; fields := fields o |}.

(** The object as lines 24-31 of [Group.__init__] leave it, before the
    fields of [grouping] are copied.  [parent] is the parent reference with
    the parent's instance dictionary as it is at that moment. *)
Definition initial (self : gid) (d : list (string * value))
    (parent : option (gid * Group)) : Group :=
  let sorter0 := default VNone (assoc "sorter" d) in
  {| name := VStr "groups";
     parent := match parent with Some (p, _) => SRef p | None => SVal VNone end;
     root := match parent with Some (_, po) => root po | None => SRef self end;
     groups := [];
     sorter := match parent with Some (_, po) => sorter po | None => sorter0 end;
     fields := [] |}.

(** An assignment to an attribute of the object [g]. *)
Definition modify (g : gid) (f : Group -> Group) (w : world) : world :=
  set_heap (alter f g (heap w)) w.

Definition lookup_parent (parent : option gid) (w : world)
  : result (option (gid * Group)) :=
  match parent with
  | None => Ok None
  | Some p =>
      match heap w !! p with
      | Some po => Ok (Some (p, po))
      | None => Raise Unmodelled
      end
  end.

Definition deref (h : list Group) (g : gid) : result Group :=
  match h !! g with
  | Some o => Ok o
  | None => Raise Unmodelled
  end.

(** ** Construction of groups

    A grouping that is not an attribute object, and a [groups] field that is
    neither [None] nor a sequence, are inputs on which the embedding says
    nothing ([Unmodelled]). *)

(** The list comprehension of [Group.set_expando]:
    [[Group(group, parent=self) for group in value]]. *)
Definition children_with (init : value -> option gid -> world -> result (gid * world))
    (self : gid) : list value -> world -> result (list gid * world) :=
  fix children (gs : list value) (w : world) : result (list gid * world) :=
    match gs with
    | [] => Ok ([], w)
    | g :: gs' =>
        '(c, w) ← init g (Some self) w;
        '(cs, w) ← children gs' w;
        Ok (c :: cs, w)
    end.

(** [Group.set_expando(key, value)]. *)
Definition set_expando_with (init : value -> option gid -> world -> result (gid * world))
    (self : gid) (key : string) (v : value) (w : world) : result world :=
  if String.eqb key "groups" then
    match v with
    | VList gs =>
        '(cs, w) ← children_with init self gs w;
        Ok (modify self (set_groups cs) w)
    | VNone => Raise TypeError
    | _ => Raise Unmodelled
    end
  else Ok (modify self (setattr key v) w).

(** Modelled from the spec: [Expando.__init__] and [Expando.update] of
    [hyde.model], a module outside the plugin.  All the fields
    of [grouping] are copied onto [self], one [self.set_expando(key, value)]
    per item, in the order in which the dictionary iterates. *)
Definition update_with (init : value -> option gid -> world -> result (gid * world))
    (self : gid) : list (string * value) -> world -> result world :=
  fix update (d : list (string * value)) (w : world) : result world :=
    match d with
    | [] => Ok w
    | (key, v) :: rest =>
        w ← set_expando_with init self key v w;
        update rest w
    end.

(** [Group.__init__(self, grouping, parent=None)]. *)
Fixpoint Group_init (grouping : value) (parent : option gid) (w : world)
    {struct grouping} : result (gid * world) :=
  match grouping with
  | VObj d =>
      po ← lookup_parent parent w;
      let self := length (heap w) in
      let w := set_heap (heap w ++ [initial self d po]) w in
      w ← update_with Group_init self d w;
      o ← match heap w !! self with Some o => Ok o | None => Raise Unmodelled end;
      n ← py_str (name o);
      let w := add_method ("walk_" +:+ n +:+ "_groups") (walk_groups_in_node_of self) w in
      let w := add_method ("walk_resources_grouped_by_" +:+ n) (walk_resources_of self) w in
      Ok (self, w)
  | _ => Raise Unmodelled
  end.

Definition children := children_with Group_init.

Definition set_expando := set_expando_with Group_init.

Definition update := update_with Group_init.

(** ** Resources and nodes of the host site

    A resource carries its metadata, an attribute object, when it has one.
    Of a node the grouper uses [walk_resources()] and the walkers the sorter
    plugin attaches under the names [walk_resources_sorted_by_<sorter>]; a
    walker is given by the resources it yields.  The attributes that the
    grouper itself sets on the node class are kept apart, in
    [node_methods]: a group name that makes one of them collide with the
    name of a sorted walker is outside the model. *)

(** Modelled from the spec: the [Resource] of [hyde.site], of which the
    grouper needs the attribute access [meta.<field>], which returns a
    value or is absent. *)
Record Resource : Type := mkResource {
  path : string;
  meta : option (list (string * value))
}.

(** Modelled from the spec: the [Node] of [hyde.site], which exposes
    [walk_resources()] and, optionally, [walk_resources_sorted_by_<sorter>()]
    for the sorters in use. *)
Record Node : Type := mkNode {
  Node_walk_resources : list Resource;
  Node_walkers : list (string * list Resource)
}.

(** [getattr(node, attr, default)] for a walker of the node. *)
Definition Node_getattr (node : Node) (attr : string) (dflt : list Resource)
  : list Resource :=
  if String.eqb attr "walk_resources" then Node_walk_resources node
  else default dflt (assoc attr (Node_walkers node)).

(** ** Traversals *)

(** A generator loop [for x in xs: <yield what body x yields>]. *)
Fixpoint for_yield {A B : Type} (xs : list A) (body : A -> result (list B))
  : result (list B) :=
  match xs with
  | [] => Ok []
  | x :: xs' =>
      ys ← body x;
      rest ← for_yield xs' body;
      Ok (ys ++ rest)
  end.

(** The first resumption of a generator loop over [xs]: the element at
    which the loop yields and the elements that the loop has not consumed,
    or [None] when the loop ends without yielding. *)
Fixpoint next_yield {A : Type} (xs : list A) (body : A -> result bool)
  : result (option (A * list A)) :=
  match xs with
  | [] => Ok None
  | x :: xs' =>
      b ← body x;
      if b : bool then Ok (Some (x, xs')) else next_yield xs' body
  end.

(** [Group.walk_groups(self)].  The recursion of the generator follows the
    references of the store; [fuel] bounds its depth, and running out of it
    is the interpreter's recursion limit. *)
Fixpoint walk_groups_fuel (fuel : nat) (h : list Group) (self : gid)
  : result (list gid) :=
  match fuel with
  | 0 => Raise RuntimeError
  | S fuel =>
      o ← deref h self;
      rest ← for_yield (groups o) (walk_groups_fuel fuel h);
      Ok (self :: rest)
  end.

Definition walk_groups (h : list Group) (self : gid) : result (list gid) :=
  walk_groups_fuel (length h) h self.

(** Lines 93-96 of [Group.list_resources]: the traversal of the node. *)
Definition choose_walker (o : Group) (node : Node) : result (list Resource) :=
  let walker := "walk_resources" in
  walker ← (if truthy (sorter o) then
              match sorter o with
              | VStr s => Ok ("walk_resources_sorted_by_" +:+ s)
              | _ => Raise TypeError
              end
            else Ok walker);
  Ok (Node_getattr node walker (Node_walk_resources node)).

(** What [self.root.name] evaluates to, [None] standing for the
    [AttributeError] that the [try] block of [list_resources] catches. *)
Definition root_name (h : list Group) (o : Group) : option value :=
  match root o with
  | SRef r => name <$> h !! r
  | SVal (VObj d) => assoc "name" d
  | SVal _ => None
  end.

(** One turn of the loop of [list_resources]: [Ok true] when the resource is
    yielded, [Ok false] when it is passed over. *)
Definition belongs (h : list Group) (o : Group) (resource : Resource)
  : result bool :=
  match meta resource with
  | None => Ok false
  | Some m =>
      match root_name h o with
      | None => Ok false
      | Some (VStr field) =>
          match assoc field m with
          | None => Ok false
          | Some group_value => Ok (py_eq group_value (name o))
          end
      | Some _ => Raise TypeError
      end
  end.

(** Lines 97-103 of [Group.list_resources]: the loop over what the walker
    yields. *)
Definition scan (h : list Group) (o : Group) (walker : list Resource)
  : result (list Resource) :=
  for_yield walker (fun resource =>
    b ← belongs h o resource;
    Ok (if b : bool then [resource] else [])).

(** [Group.list_resources(self, node)]. *)
Definition list_resources (h : list Group) (self : gid) (node : Node)
  : result (list Resource) :=
  o ← deref h self;
  walker ← choose_walker o node;
  scan h o walker.

(** The first [next()] on the generator [self.list_resources(node)]. *)
Definition list_resources_next (h : list Group) (self : gid) (node : Node)
  : result (option (Resource * list Resource)) :=
  o ← deref h self;
  walker ← choose_walker o node;
  next_yield walker (belongs h o).

(** [Group.walk_resources(node, group)]. *)
Definition walk_resources (h : list Group) (node : Node) (group : gid)
  : result (list Resource) :=
  gs ← walk_groups h group;
  for_yield gs (fun group => list_resources h group node).

(** [Group.walk_groups_in_node(node, group)], one turn of the outer loop
    for every group [g] of the walk.  The loop
    [for r in lister: yield g; break] requests one element of the generator
    [lister = g.list_resources(node)] and no other: the turn holds [g] and
    the state in which the generator is left, suspended at the first
    resource [r] of the list with the resources of the traversal that
    follow [r] not requested, or exhausted ([None]).  The group is yielded
    in the first case. *)
Definition walk_groups_in_node (h : list Group) (node : Node) (group : gid)
  : result (list (gid * option (Resource * list Resource))) :=
  walker ← walk_groups h group;
  for_yield walker (fun g =>
    lister ← list_resources_next h g node;
    Ok [(g, lister)]).

(** The groups that the turns of [walk_groups_in_node] yield, in order. *)
Fixpoint yielded_groups (turns : list (gid * option (Resource * list Resource)))
  : list gid :=
  match turns with
  | [] => []
  | (g, Some _) :: turns' => g :: yielded_groups turns'
  | (_, None) :: turns' => yielded_groups turns'
  end.

(** What a call of a method of a node yields. *)
Inductive yielded : Type :=
| Groups (gs : list gid)
| Resources (rs : list Resource).

(** [getattr(node, attr)()] for an attribute that [add_method] has set on
    the [Node] class. *)
Definition call_method (w : world) (node : Node) (attr : string) : result yielded :=
  match assoc attr (node_methods w) with
  | Some (walk_groups_in_node_of group) =>
      turns ← walk_groups_in_node (heap w) node group;
      Ok (Groups (yielded_groups turns))
  | Some (walk_resources_of group) =>
      rs ← walk_resources (heap w) node group; Ok (Resources rs)
  | None => Raise AttributeError
  end.

(** ** The plugin *)

(** Modelled from the spec: the site object that the plugin framework
    hands to the plugin, with its configuration (a plain nested-attribute
    structure) and, once [begin_site] has created it, the registry
    [site.grouper] from grouping name to root [Group]. *)
Record Site : Type := mkSite {
  config : value;
  grouper : option (gmap string gid)
}.

(** [getattr(v, key)] on a value; only an attribute object has fields. *)
Definition getattr (v : value) (key : string) : option value :=
  match v with
  | VObj d => assoc key d
  | _ => None
  end.

(** [o.key = v] on an attribute object: the item keeps its place when the
    key is there, and is added after the others when it is not. *)
Fixpoint assign (key : string) (v : value) (d : list (string * value))
  : list (string * value) :=
  match d with
  | [] => [(key, v)]
  | (k, x) :: rest =>
      if String.eqb k key then (k, v) :: rest else (k, x) :: assign key v rest
  end.

(** The loop of [begin_site] over the items of [config.grouper]; it returns
    the items as the assignments [grouping.name = name] leave them. *)
Fixpoint begin_site_loop (items : list (string * value))
    (reg : gmap string gid) (w : world)
  : result (list (string * value) * gmap string gid * world) :=
  match items with
  | [] => Ok ([], reg, w)
  | (name, grouping) :: rest =>
      match grouping with
      | VObj d =>
          let grouping := VObj (assign "name" (VStr name) d) in
          '(g, w) ← Group_init grouping None w;
          let reg := <[name := g]> reg in
          '(rest, reg, w) ← begin_site_loop rest reg w;
          Ok ((name, grouping) :: rest, reg, w)
      | _ => Raise AttributeError
      end
  end.

(** [GrouperPlugin.begin_site(self)]. *)
Definition begin_site (site : Site) (w : world) : result (Site * world) :=
  match getattr (config site) "grouper" with
  | None => Ok (site, w)
  | Some (VObj items) =>
      let reg := default ∅ (grouper site) in
      '(items, reg, w) ← begin_site_loop items reg w;
      match config site with
      | VObj d =>
          Ok ({| config := VObj (assign "grouper" (VObj items) d);
                 grouper := Some reg |}, w)
      | _ => Raise Unmodelled
      end
  | Some _ => Raise AttributeError
  end.

(** ** The objects a construction allocates

    [Group(grouping)] allocates the group and then, while the fields of
    [grouping] are copied, the groups of its [groups] field, each with its
    own subtree: the objects of a tree take consecutive identifiers in
    pre-order.  The functions below compute, from the configuration alone,
    how many objects a construction allocates, which identifiers the children
    take, the state in which every object is left, and the attributes set on
    the node class. *)

Definition sum_with (f : value -> nat) : list value -> nat :=
  fix go (gs : list value) : nat :=
    match gs with
    | [] => 0
    | g :: gs' => f g + go gs'
    end.

Definition count_item_with (f : value -> nat) (key : string) (v : value) : nat :=
  if String.eqb key "groups" then
    match v with
    | VList gs => sum_with f gs
    | _ => 0
    end
  else 0.

Definition count_items_with (f : value -> nat) : list (string * value) -> nat :=
  fix go (d : list (string * value)) : nat :=
    match d with
    | [] => 0
    | (key, v) :: rest => count_item_with f key v + go rest
    end.

(** The number of [Group] objects that [Group(c)] creates. *)
Fixpoint count (c : value) : nat :=
  match c with
  | VObj d => S (count_items_with count d)
  | _ => 0
  end.

Definition count_list := sum_with count.

Definition count_item := count_item_with count.

Definition count_items := count_items_with count.

(** The identifiers of the groups built from [gs] when the first free
    identifier is [base]. *)
Fixpoint child_ids (base : nat) (gs : list value) : list gid :=
  match gs with
  | [] => []
  | g :: gs' => base :: child_ids (base + count g) gs'
  end.

(** The identifiers that the [groups] field of [d] gives to the children. *)
Definition ids_item (key : string) (v : value) (base : nat) : list gid :=
  if String.eqb key "groups" then
    match v with
    | VList gs => child_ids base gs
    | _ => []
    end
  else [].

Fixpoint ids_items (d : list (string * value)) (base : nat) : list gid :=
  match d with
  | [] => []
  | (key, v) :: rest => ids_item key v base ++ ids_items rest (base + count_item key v)
  end.

(** The effect of [set_expando(key, v)] on the object itself. *)
Definition apply_item (base : nat) (key : string) (v : value) (cur : Group) : Group :=
  if String.eqb key "groups" then
    match v with
    | VList gs => set_groups (child_ids base gs) cur
    | _ => cur
    end
  else setattr key v cur.

Fixpoint apply_items (base : nat) (cur : Group) (d : list (string * value)) : Group :=
  match d with
  | [] => cur
  | (key, v) :: rest =>
      apply_items (base + count_item key v) (apply_item base key v cur) rest
  end.

Definition build_list_with (f : value -> gid -> option (gid * Group) -> list Group)
    (po : gid * Group) : list value -> nat -> list Group :=
  fix go (gs : list value) (base : nat) : list Group :=
    match gs with
    | [] => []
    | g :: gs' => f g base (Some po) ++ go gs' (base + count g)
    end.

Definition build_item_with (f : value -> gid -> option (gid * Group) -> list Group)
    (self : gid) (key : string) (v : value) (base : nat) (cur : Group) : list Group :=
  if String.eqb key "groups" then
    match v with
    | VList gs => build_list_with f (self, cur) gs base
    | _ => []
    end
  else [].

Definition build_items_with (f : value -> gid -> option (gid * Group) -> list Group)
    (self : gid) : list (string * value) -> nat -> Group -> list Group :=
  fix go (d : list (string * value)) (base : nat) (cur : Group) : list Group :=
    match d with
    | [] => []
    | (key, v) :: rest =>
        build_item_with f self key v base cur
          ++ go rest (base + count_item key v) (apply_item base key v cur)
    end.

(** The objects of the tree of [c], in allocation order and in their final
    state, when the group of [c] takes the identifier [self] and [po] is its
    parent as it is when the construction starts. *)
Fixpoint build (c : value) (self : gid) (po : option (gid * Group)) : list Group :=
  match c with
  | VObj d =>
      let o := initial self d po in
      apply_items (S self) o d :: build_items_with build self d (S self) o
  | _ => []
  end.

Definition build_list := build_list_with build.

Definition build_item := build_item_with build.

Definition build_items := build_items_with build.

(** The name with which the group of [d] ends up. *)
Definition final_name (d : list (string * value)) : value :=
  name (apply_items 0 (initial 0 d None) d).

Definition cfg_name (c : value) : value :=
  match c with
  | VObj d => final_name d
  | _ => VNone
  end.

Definition own_methods (n : string) (self : gid) : list (string * method) :=
  [("walk_resources_grouped_by_" +:+ n, walk_resources_of self);
   ("walk_" +:+ n +:+ "_groups", walk_groups_in_node_of self)].

Definition methods_list_with (f : value -> gid -> list (string * method))
  : list value -> nat -> list (string * method) :=
  fix go (gs : list value) (base : nat) : list (string * method) :=
    match gs with
    | [] => []
    | g :: gs' => go gs' (base + count g) ++ f g base
    end.

Definition methods_item_with (f : value -> gid -> list (string * method))
    (key : string) (v : value) (base : nat) : list (string * method) :=
  if String.eqb key "groups" then
    match v with
    | VList gs => methods_list_with f gs base
    | _ => []
    end
  else [].

Definition methods_items_with (f : value -> gid -> list (string * method))
  : list (string * value) -> nat -> list (string * method) :=
  fix go (d : list (string * value)) (base : nat) : list (string * method) :=
    match d with
    | [] => []
    | (key, v) :: rest =>
        go rest (base + count_item key v) ++ methods_item_with f key v base
    end.

(** The attributes that the construction of the tree of [c] sets on the
    [Node] class, the newest first. *)
Fixpoint methods (c : value) (self : gid) : list (string * method) :=
  match c with
  | VObj d =>
      own_methods (text (final_name d)) self
        ++ methods_items_with methods d (S self)
  | _ => []
  end.

Definition methods_list := methods_list_with methods.

Definition methods_item := methods_item_with methods.

Definition methods_items := methods_items_with methods.

(** ** Configurations that are dictionaries

    The items of a dictionary have pairwise distinct keys.  A grouping is
    well formed when it is an attribute object with distinct keys whose
    [groups] field, when it has one, is a sequence of well-formed
    groupings, and whose name is a string or [None]. *)

Fixpoint distinct_keys (d : list (string * value)) : bool :=
  match d with
  | [] => true
  | (key, _) :: rest =>
      forallb (fun kv => negb (String.eqb (fst kv) key)) rest && distinct_keys rest
  end.

Definition wf_item_with (f : value -> bool) (key : string) (v : value) : bool :=
  if String.eqb key "groups" then
    match v with
    | VList gs => forallb f gs
    | _ => false
    end
  else true.

Definition wf_items_with (f : value -> bool) : list (string * value) -> bool :=
  fix go (d : list (string * value)) : bool :=
    match d with
    | [] => true
    | (key, v) :: rest => wf_item_with f key v && go rest
    end.

Fixpoint wf (c : value) : bool :=
  match c with
  | VObj d => distinct_keys d && is_text (final_name d) && wf_items_with wf d
  | _ => false
  end.

Definition wf_item := wf_item_with wf.

Definition wf_items := wf_items_with wf.

(** ** The groups of a tree, with their configurations *)

Definition subtrees_list_with (f : value -> gid -> option gid -> list (gid * value * option gid))
    (p : gid) : list value -> nat -> list (gid * value * option gid) :=
  fix go (gs : list value) (base : nat) : list (gid * value * option gid) :=
    match gs with
    | [] => []
    | g :: gs' => f g base (Some p) ++ go gs' (base + count g)
    end.

Definition subtrees_item_with (f : value -> gid -> option gid -> list (gid * value * option gid))
    (p : gid) (key : string) (v : value) (base : nat)
  : list (gid * value * option gid) :=
  if String.eqb key "groups" then
    match v with
    | VList gs => subtrees_list_with f p gs base
    | _ => []
    end
  else [].

Definition subtrees_items_with (f : value -> gid -> option gid -> list (gid * value * option gid))
    (p : gid) : list (string * value) -> nat -> list (gid * value * option gid) :=
  fix go (d : list (string * value)) (base : nat) : list (gid * value * option gid) :=
    match d with
    | [] => []
    | (key, v) :: rest =>
        subtrees_item_with f p key v base ++ go rest (base + count_item key v)
    end.

(** The groups of the tree of [c] in depth-first pre-order (a group, then
    the subtree of each of its children in the order of the configuration):
    the identifier of each group, the grouping it is built from, and the
    identifier of the group that constructs it. *)
Fixpoint subtrees (c : value) (self : gid) (p : option gid)
  : list (gid * value * option gid) :=
  match c with
  | VObj d => (self, VObj d, p) :: subtrees_items_with subtrees self d (S self)
  | _ => []
  end.

Definition subtrees_list := subtrees_list_with subtrees.

Definition subtrees_item := subtrees_item_with subtrees.

Definition subtrees_items := subtrees_items_with subtrees.

Definition parent_slot (p : option gid) : slot :=
  match p with
  | Some p => SRef p
  | None => SVal VNone
  end.

(** The object [o] is the group [e.1.1] in the state in which the
    construction from the grouping [e.1.2] leaves it. *)
Definition built_from (o : Group) (e : gid * value * option gid) : Prop :=
  exists d,
    e.1.2 = VObj d /\
    name o = final_name d /\
    (distinct_keys d = true -> groups o = ids_items d (S e.1.1)) /\
    (assoc "parent" d = None -> parent o = parent_slot e.2) /\
    (forall v, assoc "sorter" d = Some v -> distinct_keys d = true -> sorter o = v).

(** ** Fields named [parent] and [root] *)

(** The fields [parent] and [root] of a grouping are copied over the
    attributes of the same names. *)
Definition plain_key (kv : string * value) : bool :=
  negb (String.eqb (fst kv) "parent") && negb (String.eqb (fst kv) "root").

Definition no_reserved_item_with (f : value -> bool) (key : string) (v : value) : bool :=
  if String.eqb key "groups" then
    match v with
    | VList gs => forallb f gs
    | _ => true
    end
  else true.

Definition no_reserved_items_with (f : value -> bool) : list (string * value) -> bool :=
  fix go (d : list (string * value)) : bool :=
    match d with
    | [] => true
    | (key, v) :: rest => no_reserved_item_with f key v && go rest
    end.

(** No grouping of the tree has a field named [parent] or [root]. *)
Fixpoint no_reserved (c : value) : bool :=
  match c with
  | VObj d => forallb plain_key d && no_reserved_items_with no_reserved d
  | _ => true
  end.

Definition no_reserved_item := no_reserved_item_with no_reserved.

Definition no_reserved_items := no_reserved_items_with no_reserved.

(** Following the [parent] references from a group up to the group that has
    no parent reference. *)
Fixpoint follow_parents (fuel : nat) (h : list Group) (k : gid) : option gid :=
  match fuel with
  | 0 => None
  | S fuel =>
      match h !! k with
      | Some o =>
          match parent o with
          | SRef p => follow_parents fuel h p
          | SVal _ => Some k
          end
      | None => None
      end
  end.

Definition root_at (self : gid) (po : option (gid * Group)) : slot :=
  match po with
  | Some (_, p) => root p
  | None => SRef self
  end.

(** The links of the tree that [Group(c)] constructs in the world [w]: the
    construction returns a root [g] without parent, and every group [k] of
    the tree holds in [root] a reference to [g], so that its [root.name] is
    the name of [g]; holds in [parent] a reference to the group that
    constructed it; reaches [g] by following [parent] references; and has in
    [groups] only [Group] objects whose [parent] is [k]. *)
Definition tree_linked (c : value) (w : world) : Prop :=
  exists g w' oroot,
    Group_init c None w = Ok (g, w') /\
    heap w' !! g = Some oroot /\ parent oroot = SVal VNone /\
    forall k ck p, (k, ck, p) ∈ subtrees c g None ->
      exists o,
        heap w' !! k = Some o /\
        root o = SRef g /\
        root_name (heap w') o = Some (name oroot) /\
        parent o = parent_slot p /\
        (p = None -> k = g) /\
        follow_parents (S k) (heap w') k = Some g /\
        forall child, In child (groups o) ->
          exists oc, heap w' !! child = Some oc /\ parent oc = SRef k.

(** ** Sorter resolution, as the specification words it

    The sorter of a group is the sorter of its own grouping when the
    grouping has one, and otherwise the resolved sorter of its parent, which
    is that of the nearest ancestor that has one; a root without sorter has
    none. *)

Definition sorters_resolved (c : value) (w : world) : Prop :=
  exists g w',
    Group_init c None w = Ok (g, w') /\
    forall k dk p o, (k, VObj dk, p) ∈ subtrees c g None ->
      heap w' !! k = Some o ->
      match assoc "sorter" dk with
      | Some v => sorter o = v
      | None =>
          match p with
          | Some pk => exists po, heap w' !! pk = Some po /\ sorter o = sorter po
          | None => sorter o = VNone
          end
      end.

(** No [sorter] field follows the [groups] field in the iteration order of
    the dictionary. *)
Fixpoint sorter_before_groups (d : list (string * value)) : bool :=
  match d with
  | [] => true
  | (key, _) :: rest =>
      (if String.eqb key "groups"
       then forallb (fun kv => negb (String.eqb (fst kv) "sorter")) rest
       else true)
      && sorter_before_groups rest
  end.

Definition ordered_item_with (f : value -> bool) (key : string) (v : value) : bool :=
  if String.eqb key "groups" then
    match v with
    | VList gs => forallb f gs
    | _ => true
    end
  else true.

Definition ordered_items_with (f : value -> bool) : list (string * value) -> bool :=
  fix go (d : list (string * value)) : bool :=
    match d with
    | [] => true
    | (key, v) :: rest => ordered_item_with f key v && go rest
    end.

(** Every grouping of the tree iterates [sorter] before [groups]. *)
Fixpoint ordered (c : value) : bool :=
  match c with
  | VObj d => sorter_before_groups d && ordered_items_with ordered d
  | _ => true
  end.

Definition ordered_item := ordered_item_with ordered.

Definition ordered_items := ordered_items_with ordered.

(** Every grouping of the tree other than the root iterates [sorter] before
    [groups]. *)
Definition ordered_below (c : value) : bool :=
  match c with
  | VObj d => ordered_items d
  | _ => true
  end.

(** While the items [d] are copied onto an object whose sorter is [s], the
    sorter is [fin] whenever a [groups] field is reached. *)
Fixpoint settled (s fin : value) (d : list (string * value)) : Prop :=
  match d with
  | [] => True
  | (key, v) :: rest =>
      if String.eqb key "groups" then s = fin /\ settled s fin rest
      else settled (if String.eqb key "sorter" then v else s) fin rest
  end.

(** The sorter of the group [e.1.1] in the store [h] is resolved. *)
Definition resolved_at (h : list Group) (e : gid * value * option gid) : Prop :=
  forall dk o, e.1.2 = VObj dk -> h !! e.1.1 = Some o ->
    match assoc "sorter" dk with
    | Some v => sorter o = v
    | None =>
        match e.2 with
        | Some pk => exists po, h !! pk = Some po /\ sorter o = sorter po
        | None => sorter o = VNone
        end
    end.

(** ** Specifications of the traversals and of [begin_site] *)

(** The test of [list_resources] on a resource: its metadata holds, under
    the field that [self.root.name] names, a value equal to [self.name]. *)
Definition in_group (h : list Group) (o : Group) (r : Resource) : bool :=
  match root_name h o, meta r with
  | Some (VStr field), Some m =>
      match assoc field m with
      | Some group_value => py_eq group_value (name o)
      | None => false
      end
  | _, _ => false
  end.

Definition nonempty {A : Type} (l : list A) : bool :=
  match l with
  | [] => false
  | _ :: _ => true
  end.

(** The grouping [spec] after [spec.name = key]. *)
Definition with_name (key : string) (spec : value) : value :=
  match spec with
  | VObj d => VObj (assign "name" (VStr key) d)
  | _ => spec
  end.

Definition named (items : list (string * value)) : list (string * value) :=
  map (fun kv => (kv.1, with_name kv.1 kv.2)) items.

(** ** Plain fields of a grouping *)

(** The keys that [__init__] and [set_expando] treat apart from the plain
    fields of a grouping. *)
Definition plain_field (key : string) : bool :=
  negb (String.eqb key "name") && negb (String.eqb key "parent")
  && negb (String.eqb key "root") && negb (String.eqb key "sorter")
  && negb (String.eqb key "groups").

(** ** Examples *)

Definition empty_world : world := {| heap := []; node_methods := [] |}.

(** The grouping [topics] with the groups [a] and [b]. *)
Definition example_grouping : value :=
  VObj [("name", VStr "topics");
        ("groups", VList [VObj [("name", VStr "a")]; VObj [("name", VStr "b")]])].

Definition example_world : world :=
  Eval vm_compute in
    match Group_init example_grouping None empty_world with
    | Ok (_, w) => w
    | Raise _ => empty_world
    end.

Definition example_groups : list Group :=
  [ {| name := VStr "topics"; parent := SVal VNone; root := SRef 0;
       groups := [1]; sorter := VNone; fields := [] |};
    {| name := VStr "a"; parent := SRef 0; root := SRef 0;
       groups := []; sorter := VNone; fields := [] |} ].

Definition example_node : Node :=
  {| Node_walk_resources :=
       [ {| path := "a.html"; meta := Some [("topics", VStr "a")] |};
         {| path := "plain.html"; meta := Some [("title", VStr "x")] |};
         {| path := "b.html"; meta := Some [("topics", VStr "b")] |} ];
     Node_walkers := [] |}.

Definition example_listed (g : gid) : list Resource :=
  match list_resources (heap example_world) g example_node with
  | Ok l => l
  | Raise _ => []
  end.

Definition example_sorted_node : Node :=
  {| Node_walk_resources :=
       [ {| path := "b.html"; meta := Some [("topics", VStr "a")] |};
         {| path := "a.html"; meta := Some [("topics", VStr "a")] |} ];
     Node_walkers :=
       [ ("walk_resources_sorted_by_kind",
          [ {| path := "a.html"; meta := Some [("topics", VStr "a")] |};
            {| path := "b.html"; meta := Some [("topics", VStr "a")] |} ]) ] |}.

Definition example_sorted_group : Group :=
  {| name := VStr "a"; parent := SVal VNone; root := SRef 0;
     groups := []; sorter := VStr "kind"; fields := [] |}.

(** The configuration of the example: the grouping [topics] with the groups
    [a] and [b]. *)
Definition example_config : value :=
  VObj [("grouper",
         VObj [("topics",
                VObj [("groups",
                       VList [VObj [("name", VStr "a")];
                              VObj [("name", VStr "b")]])])])].

Definition example_site : Site := {| config := example_config; grouper := None |}.

Definition example_site_world : Site * world :=
  Eval vm_compute in
    match begin_site example_site empty_world with
    | Ok sw => sw
    | Raise _ => (example_site, empty_world)
    end.

Definition example_root : Group :=
  {| name := VStr "topics"; parent := SVal VNone; root := SRef 0;
     groups := [1; 2]; sorter := VNone; fields := [] |}.

Definition example_a : Group :=
  {| name := VStr "a"; parent := SRef 0; root := SRef 0;
     groups := []; sorter := VNone; fields := [] |}.

Definition example_b : Group :=
  {| name := VStr "b"; parent := SRef 0; root := SRef 0;
     groups := []; sorter := VNone; fields := [] |}.

Definition example_heap : list Group := [example_root; example_a; example_b].

Definition example_ra : Resource :=
  {| path := "a.html"; meta := Some [("topics", VStr "a")] |}.

Definition example_rb : Resource :=
  {| path := "b.html"; meta := Some [("topics", VStr "b")] |}.

(** A grouping [hyde] with the sorter [r] and one group [mid], which has the
    sorter [m] and one group [leaf] without a sorter.  The attribute
    dictionary of [mid] iterates [name], [groups], [sorter]. *)
Definition nested_sorter_grouping : value :=
  VObj [("name", VStr "hyde"); ("sorter", VStr "r");
        ("groups",
         VList [VObj [("name", VStr "mid");
                      ("groups", VList [VObj [("name", VStr "leaf")]]);
                      ("sorter", VStr "m")]])].

(** The same grouping when the dictionary of [mid] iterates [sorter] before
    [groups]. *)
Definition nested_sorter_grouping' : value :=
  VObj [("name", VStr "hyde"); ("sorter", VStr "r");
        ("groups",
         VList [VObj [("name", VStr "mid");
                      ("sorter", VStr "m");
                      ("groups", VList [VObj [("name", VStr "leaf")]])]])].

Definition sorter_at (c : value) (k : gid) : option value :=
  match Group_init c None empty_world with
  | Ok (_, w) => sorter <$> heap w !! k
  | Raise _ => None
  end.

Definition parent_at (c : value) (k : gid) : option slot :=
  match Group_init c None empty_world with
  | Ok (_, w) => parent <$> heap w !! k
  | Raise _ => None
  end.

Definition root_slot_at (c : value) (k : gid) : option slot :=
  match Group_init c None empty_world with
  | Ok (_, w) => root <$> heap w !! k
  | Raise _ => None
  end.

Definition groups_at (c : value) (k : gid) : option (list gid) :=
  match Group_init c None empty_world with
  | Ok (_, w) => groups <$> heap w !! k
  | Raise _ => None
  end.

(** The grouping [topics] with a field [root], and a group [a] with a field
    [parent]. *)
Definition reserved_grouping : value :=
  VObj [("root", VStr "x"); ("name", VStr "topics");
        ("groups", VList [VObj [("name", VStr "a"); ("parent", VStr "y")]])].

(** A grouping whose [groups] field holds [None]. *)
Definition none_groups_grouping : value :=
  VObj [("name", VStr "topics"); ("groups", VNone)].

(** A grouping without a [name] field, with a description. *)
Definition unnamed_grouping : value :=
  VObj [("description", VStr "untitled")].

(** A group whose sorter is a sequence. *)
Definition list_sorter_group : Group :=
  {| name := VStr "a"; parent := SVal VNone; root := SRef 0;
     groups := []; sorter := VList [VStr "kind"]; fields := [] |}.

(** A root group whose name is [None], and a resource without metadata. *)
Definition none_name_group : Group :=
  {| name := VNone; parent := SVal VNone; root := SRef 0;
     groups := []; sorter := VNone; fields := [] |}.

Definition bare_resource : Resource := {| path := "bare.html"; meta := None |}.

(** The store that the construction of [reserved_grouping] leaves. *)
Definition reserved_heap : list Group :=
  Eval vm_compute in
    match Group_init reserved_grouping None empty_world with
    | Ok (_, w) => heap w
    | Raise _ => []
    end.

(** A second grouping, [tags], with one group. *)
Definition tags_grouping : value :=
  VObj [("name", VStr "tags"); ("groups", VList [VObj [("name", VStr "t")]])].

(** The world after the construction of [tags_grouping] in the world of the
    example. *)
Definition tags_world : world :=
  Eval vm_compute in
    match Group_init tags_grouping None example_world with
    | Ok (_, w) => w
    | Raise _ => example_world
    end.

(** A configuration whose second grouping is [None]. *)
Definition broken_config : value :=
  VObj [("grouper",
         VObj [("topics", VObj [("groups", VList [VObj [("name", VStr "a")]])]);
               ("tags", VNone)])].

(** A configuration with two groupings. *)
Definition two_groupings_config : value :=
  VObj [("grouper",
         VObj [("topics", VObj [("groups", VList [VObj [("name", VStr "a")]])]);
               ("tags", VObj [("groups", VList [VObj [("name", VStr "t")]])])])].

Definition two_groupings_site : Site :=
  {| config := two_groupings_config; grouper := None |}.

Definition two_groupings_site_world : Site * world :=
  Eval vm_compute in
    match begin_site two_groupings_site empty_world with
    | Ok sw => sw
    | Raise _ => (two_groupings_site, empty_world)
    end.

(** The registry that [begin_site] leaves on [two_groupings_site]. *)
Definition two_groupings_registry : gmap string gid :=
  default ∅ (grouper (fst two_groupings_site_world)).

(** The grouping of the configuration example in the documentation of the
    plugin: a root with a sorter and a description, and three groups. *)
Definition hyde_grouping : value :=
  VObj [("name", VStr "hyde"); ("sorter", VStr "kind");
        ("description", VStr "Articles about hyde");
        ("groups",
         VList [VObj [("name", VStr "announcements");
                      ("description", VStr "Hyde release announcements")];
                VObj [("name", VStr "making of");
                      ("description", VStr "Articles about hyde design decisions")];
                VObj [("name", VStr "tips and tricks");
                      ("description", VStr "Helpful snippets and tweaks")]])].

Definition hyde_world : world :=
  Eval vm_compute in
    match Group_init hyde_grouping None empty_world with
    | Ok (_, w) => w
    | Raise _ => empty_world
    end.

(** The world after the construction of [nested_sorter_grouping]. *)
Definition nested_sorter_world : world :=
  Eval vm_compute in
    match Group_init nested_sorter_grouping None empty_world with
    | Ok (_, w) => w
    | Raise _ => empty_world
    end.

(** * Theorems *)

(** ** Induction over configuration values *)

Section value_induction.
Variables (P : value -> Prop) (Q : list (string * value) -> Prop)
          (R : list value -> Prop).
Hypothesis HNone : P VNone.
Hypothesis HStr : forall s, P (VStr s).
Hypothesis HList : forall l, R l -> P (VList l).
Hypothesis HObj : forall d, Q d -> P (VObj d).
Hypothesis HQnil : Q [].
Hypothesis HQcons : forall key v rest,
  P v -> (forall gs, v = VList gs -> R gs) -> Q rest -> Q ((key, v) :: rest).
Hypothesis HRnil : R [].
Hypothesis HRcons : forall v l, P v -> R l -> R (v :: l).

Lemma value_rect3 : forall v : value, P v.
Proof.
  exact (fix value_rect3 (v : value) : P v :=
    let list_rect3 :=
      fix go (l : list value) : R l :=
        match l with
        | [] => HRnil
        | x :: l' => HRcons x l' (value_rect3 x) (go l')
        end in
    match v with
    | VNone => HNone
    | VStr s => HStr s
    | VList l => HList l (list_rect3 l)
    | VObj d =>
        HObj d
          ((fix go (d : list (string * value)) : Q d :=
              match d with
              | [] => HQnil
              | (key, x) :: rest =>
                  HQcons key x rest (value_rect3 x)
                    (match x as x0 return forall gs, x0 = VList gs -> R gs with
                     | VList l => fun gs e =>
                         match e in _ = y return
                           match y with VList l0 => R l0 | _ => True end
                         with eq_refl => list_rect3 l end
                     | _ => fun gs e => ltac:(discriminate e)
                     end)
                    (go rest)
              end) d)
    end).
Qed.

Lemma value_ind3 : (forall v, P v) /\ (forall d, Q d) /\ (forall l, R l).
Proof.
  pose proof value_rect3 as HP.
  assert (HR : forall l, R l) by (induction l; auto).
  split; [exact HP|]. split; [|exact HR].
  induction d as [|[key v] rest IH]; [exact HQnil|].
  apply HQcons; auto.
Qed.
End value_induction.

(** ** Equations of the definitions *)

Lemma bind_Ok {A B : Type} (m : result A) (f : A -> result B) (b : B) :
  m ≫= f = Ok b -> exists a, m = Ok a /\ f a = Ok b.
Proof. destruct m as [a|e]; simpl; [eauto|discriminate]. Qed.

Ltac bind_inv H :=
  let a := fresh "a" in
  let E := fresh "E" in
  apply bind_Ok in H; destruct H as (a & E & H).

Lemma assoc_cons {A : Type} (key k : string) (v : A) (rest : list (string * A)) :
  assoc key ((k, v) :: rest) = if String.eqb k key then Some v else assoc key rest.
Proof. reflexivity. Qed.

Lemma update_nil self w : update self [] w = Ok w.
Proof. reflexivity. Qed.

Lemma update_cons self key v rest w :
  update self ((key, v) :: rest) w =
  set_expando self key v w ≫= update self rest.
Proof. reflexivity. Qed.

Lemma children_nil self w : children self [] w = Ok ([], w).
Proof. reflexivity. Qed.

Lemma children_cons self g gs w :
  children self (g :: gs) w =
  Group_init g (Some self) w ≫= fun '(c, w1) =>
  children self gs w1 ≫= fun '(cs, w2) => Ok (c :: cs, w2).
Proof. reflexivity. Qed.

Lemma Group_init_obj d parent w :
  Group_init (VObj d) parent w =
  lookup_parent parent w ≫= fun po =>
  let self := length (heap w) in
  update self d (set_heap (heap w ++ [initial self d po]) w) ≫= fun w1 =>
  match heap w1 !! self with Some o => Ok o | None => Raise Unmodelled end ≫= fun o =>
  py_str (name o) ≫= fun n =>
  Ok (self, add_method ("walk_resources_grouped_by_" +:+ n) (walk_resources_of self)
              (add_method ("walk_" +:+ n +:+ "_groups") (walk_groups_in_node_of self) w1)).
Proof. reflexivity. Qed.

Lemma count_items_cons key v rest :
  count_items ((key, v) :: rest) = count_item key v + count_items rest.
Proof. reflexivity. Qed.

Lemma count_list_cons g gs : count_list (g :: gs) = count g + count_list gs.
Proof. reflexivity. Qed.

Lemma apply_items_cons base cur key v rest :
  apply_items base cur ((key, v) :: rest) =
  apply_items (base + count_item key v) (apply_item base key v cur) rest.
Proof. reflexivity. Qed.

Lemma build_items_cons self key v rest base cur :
  build_items self ((key, v) :: rest) base cur =
  build_item self key v base cur
    ++ build_items self rest (base + count_item key v) (apply_item base key v cur).
Proof. reflexivity. Qed.

Lemma build_list_cons po g gs base :
  build_list po (g :: gs) base =
  build g base (Some po) ++ build_list po gs (base + count g).
Proof. reflexivity. Qed.

Lemma build_obj d self po :
  build (VObj d) self po =
  apply_items (S self) (initial self d po) d
    :: build_items self d (S self) (initial self d po).
Proof. reflexivity. Qed.

Lemma methods_items_cons key v rest base :
  methods_items ((key, v) :: rest) base =
  methods_items rest (base + count_item key v) ++ methods_item key v base.
Proof. reflexivity. Qed.

Lemma methods_list_cons g gs base :
  methods_list (g :: gs) base = methods_list gs (base + count g) ++ methods g base.
Proof. reflexivity. Qed.

Lemma methods_obj d self :
  methods (VObj d) self =
  own_methods (text (final_name d)) self ++ methods_items d (S self).
Proof. reflexivity. Qed.

Lemma subtrees_obj d self p :
  subtrees (VObj d) self p = (self, VObj d, p) :: subtrees_items self d (S self).
Proof. reflexivity. Qed.

Lemma subtrees_items_cons p key v rest base :
  subtrees_items p ((key, v) :: rest) base =
  subtrees_item p key v base ++ subtrees_items p rest (base + count_item key v).
Proof. reflexivity. Qed.

Lemma subtrees_list_cons p g gs base :
  subtrees_list p (g :: gs) base =
  subtrees g base (Some p) ++ subtrees_list p gs (base + count g).
Proof. reflexivity. Qed.

Lemma wf_items_cons key v rest :
  wf_items ((key, v) :: rest) = wf_item key v && wf_items rest.
Proof. reflexivity. Qed.

Lemma wf_obj d :
  wf (VObj d) = (distinct_keys d && is_text (final_name d) && wf_items d).
Proof. reflexivity. Qed.

Lemma wf_inv c :
  wf c = true ->
  exists d, c = VObj d /\ distinct_keys d = true /\
            is_text (final_name d) = true /\ wf_items d = true.
Proof.
  destruct c as [| | |d]; try discriminate. rewrite wf_obj. intros H.
  apply andb_prop in H as [H H3]. apply andb_prop in H as [H1 H2]. eauto.
Qed.

Lemma wf_count c : wf c = true -> 0 < count c.
Proof. destruct c; simpl; try discriminate. lia. Qed.

Lemma no_reserved_obj d :
  no_reserved (VObj d) = (forallb plain_key d && no_reserved_items d).
Proof. reflexivity. Qed.

Lemma no_reserved_items_cons key v rest :
  no_reserved_items ((key, v) :: rest)
  = (no_reserved_item key v && no_reserved_items rest).
Proof. reflexivity. Qed.

(** What the first resumption of [list_resources] does, from what the whole
    generator yields: it stops at the first resource that is yielded and
    leaves the rest of the traversal unconsumed. *)
Lemma scan_cons h o x xs :
  scan h o (x :: xs) =
  belongs h o x ≫= fun b =>
  scan h o xs ≫= fun rest => Ok ((if b : bool then [x] else []) ++ rest).
Proof.
  unfold scan. simpl. destruct (belongs h o x) as [b|e]; reflexivity.
Qed.

Lemma begin_site_loop_cons key d rest reg w :
  begin_site_loop ((key, VObj d) :: rest) reg w =
  Group_init (with_name key (VObj d)) None w ≫= fun '(g, w1) =>
  begin_site_loop rest (<[key := g]> reg) w1 ≫= fun '(rest', reg', w2) =>
  Ok ((key, with_name key (VObj d)) :: rest', reg', w2).
Proof. reflexivity. Qed.

Lemma py_str_text v n : py_str v = Ok n -> n = text v.
Proof. destruct v; simpl; congruence. Qed.

(** ** The store after a construction *)

Lemma build_length :
  (forall c self po, length (build c self po) = count c) /\
  (forall d self base cur, length (build_items self d base cur) = count_items d) /\
  (forall gs po base, length (build_list po gs base) = count_list gs).
Proof.
  apply value_ind3; try reflexivity.
  - intros d IH self po. rewrite build_obj. simpl. f_equal. apply IH.
  - intros key v rest _ IHv IH self base cur.
    rewrite build_items_cons, count_items_cons, length_app, IH. f_equal.
    unfold build_item, build_item_with, count_item, count_item_with.
    destruct (String.eqb key "groups"); [|reflexivity].
    destruct v; try reflexivity. apply (IHv _ eq_refl).
  - intros v l IHv IH po base.
    rewrite build_list_cons, count_list_cons, length_app, IHv, IH. reflexivity.
Qed.

Lemma name_apply_item base base' key v cur cur' :
  name cur = name cur' ->
  name (apply_item base key v cur) = name (apply_item base' key v cur').
Proof.
  intros H. unfold apply_item, setattr.
  destruct (String.eqb key "groups"); [destruct v; simpl; auto|].
  repeat (match goal with |- context [if ?b then _ else _] => destruct b end);
    simpl; auto.
Qed.

Lemma name_apply_items d : forall base base' cur cur',
  name cur = name cur' ->
  name (apply_items base cur d) = name (apply_items base' cur' d).
Proof.
  induction d as [|[key v] rest IH]; intros base base' cur cur' H; simpl; [exact H|].
  apply IH. apply name_apply_item, H.
Qed.

Lemma name_final d self po base :
  name (apply_items base (initial self d po) d) = final_name d.
Proof. unfold final_name. apply name_apply_items. reflexivity. Qed.

Lemma alter_snoc_app (f : Group -> Group) (self : gid) (h tl : list Group) cur :
  h !! self = Some cur ->
  alter f self (h ++ tl) = <[self := f cur]> h ++ tl.
Proof.
  intros H. pose proof (lookup_lt_Some _ _ _ H) as Hlt.
  rewrite alter_app_l by exact Hlt. f_equal.
  apply list_eq. intros i. rewrite list_lookup_alter.
  destruct (decide (self = i)) as [<-|Hne].
  - rewrite H, list_lookup_insert_eq by exact Hlt. reflexivity.
  - rewrite list_lookup_insert_ne by exact Hne. reflexivity.
Qed.

Lemma alter_as_insert (f : Group -> Group) (self : gid) (h : list Group) cur :
  h !! self = Some cur -> alter f self h = <[self := f cur]> h.
Proof.
  intros H. pose proof (alter_snoc_app f self h [] cur H) as E.
  rewrite !app_nil_r in E. exact E.
Qed.

Lemma lookup_modify self f w cur :
  heap w !! self = Some cur -> heap (modify self f w) !! self = Some (f cur).
Proof.
  intros H. simpl. rewrite (alter_as_insert _ _ _ _ H).
  apply list_lookup_insert_eq. eapply lookup_lt_Some, H.
Qed.

Theorem construction_heap :
  (forall c parent w g w' po,
      Group_init c parent w = Ok (g, w') ->
      lookup_parent parent w = Ok po ->
      g = length (heap w) /\
      heap w' = heap w ++ build c g po /\
      node_methods w' = methods c g ++ node_methods w) /\
  (forall d self w w' cur,
      update self d w = Ok w' ->
      heap w !! self = Some cur ->
      heap w' = <[self := apply_items (length (heap w)) cur d]> (heap w)
                  ++ build_items self d (length (heap w)) cur /\
      node_methods w' = methods_items d (length (heap w)) ++ node_methods w) /\
  (forall gs self w cs w' cur,
      children self gs w = Ok (cs, w') ->
      heap w !! self = Some cur ->
      cs = child_ids (length (heap w)) gs /\
      heap w' = heap w ++ build_list (self, cur) gs (length (heap w)) /\
      node_methods w' = methods_list gs (length (heap w)) ++ node_methods w).
Proof.
  apply value_ind3; try (intros; discriminate).
  - (* Group_init *)
    intros d IH parent w g w' po H Hpo.
    rewrite Group_init_obj, Hpo in H. simpl in H.
    bind_inv H. bind_inv H. bind_inv H. injection H as <- <-.
    assert (Hself : heap (set_heap (heap w ++ [initial (length (heap w)) d po]) w)
                      !! length (heap w)
                    = Some (initial (length (heap w)) d po)).
    { simpl. apply list_lookup_middle. reflexivity. }
    destruct (IH _ _ _ _ E Hself) as [Hh Hm]. simpl in Hh, Hm.
    rewrite length_app, Nat.add_1_r in Hh, Hm.
    rewrite insert_app_r_alt, Nat.sub_diag in Hh by reflexivity. simpl in Hh.
    rewrite <- app_assoc in Hh. simpl in Hh.
    split; [reflexivity|]. rewrite build_obj, methods_obj. split; [exact Hh|].
    rewrite Hh in E0. rewrite list_lookup_middle in E0 by reflexivity.
    injection E0 as <-.
    apply py_str_text in E1. rewrite name_final in E1. subst a1.
    unfold own_methods. simpl. rewrite Hm. reflexivity.
  - (* update, no field left *)
    intros self w w' cur H Hc. rewrite update_nil in H. injection H as <-. simpl.
    rewrite list_insert_id by exact Hc. rewrite app_nil_r. auto.
  - (* update, one field *)
    intros key v rest _ IHv IH self w w' cur H Hc.
    rewrite update_cons in H. bind_inv H.
    rewrite build_items_cons, methods_items_cons, apply_items_cons.
    unfold set_expando, set_expando_with in E.
    unfold build_item, build_item_with, methods_item, methods_item_with,
      count_item, count_item_with, apply_item in *.
    destruct (String.eqb key "groups").
    + destruct v as [| |gs|]; try discriminate.
      bind_inv E. destruct a0 as [cs w1]. injection E as <-.
      destruct (IHv gs eq_refl _ _ _ _ _ E0 Hc) as (-> & Hh & Hm).
      fold count_list build_list methods_list in *.
      assert (Hc' : heap (modify self (set_groups (child_ids (length (heap w)) gs)) w1)
                    !! self = Some (set_groups (child_ids (length (heap w)) gs) cur)).
      { simpl. rewrite Hh, (alter_snoc_app _ _ _ _ _ Hc).
        rewrite lookup_app_l by (rewrite length_insert; eapply lookup_lt_Some, Hc).
        apply list_lookup_insert_eq. eapply lookup_lt_Some, Hc. }
      destruct (IH _ _ _ _ H Hc') as [Hh' Hm']. simpl in Hh', Hm'.
      rewrite Hh, (alter_snoc_app _ _ _ _ _ Hc) in Hh'.
      rewrite length_app, length_insert in Hh'.
      rewrite (proj2 (proj2 build_length)) in Hh'.
      rewrite insert_app_l in Hh' by (rewrite length_insert; eapply lookup_lt_Some, Hc).
      rewrite list_insert_insert_eq in Hh'. rewrite <- app_assoc in Hh'.
      split; [exact Hh'|].
      rewrite Hm', Hm. rewrite length_alter, Hh, length_app.
      rewrite (proj2 (proj2 build_length)). rewrite app_assoc. reflexivity.
    + injection E as <-.
      assert (Hc' : heap (modify self (setattr key v) w) !! self
                    = Some (setattr key v cur)).
      { simpl. rewrite (alter_as_insert _ _ _ _ Hc).
        apply list_lookup_insert_eq. eapply lookup_lt_Some, Hc. }
      destruct (IH _ _ _ _ H Hc') as [Hh' Hm']. simpl in Hh', Hm'.
      rewrite length_alter in Hh', Hm'. rewrite Nat.add_0_r, app_nil_r. simpl.
      split; [|exact Hm'].
      rewrite Hh', (alter_as_insert _ _ _ _ Hc), list_insert_insert_eq.
      reflexivity.
  - (* children, none left *)
    intros self w cs w' cur H Hc. rewrite children_nil in H. injection H as <- <-.
    simpl. rewrite app_nil_r. auto.
  - (* children, one more *)
    intros g gs IHg IH self w cs w' cur H Hc.
    rewrite children_cons in H. bind_inv H. destruct a as [c w1].
    bind_inv H. destruct a as [cs' w2]. injection H as <- <-.
    assert (Hpo : lookup_parent (Some self) w = Ok (Some (self, cur))).
    { simpl. rewrite Hc. reflexivity. }
    destruct (IHg _ _ _ _ _ E Hpo) as (-> & Hh & Hm).
    assert (Hc' : heap w1 !! self = Some cur).
    { rewrite Hh. apply lookup_app_l_Some, Hc. }
    destruct (IH _ _ _ _ _ E0 Hc') as (-> & Hh' & Hm').
    rewrite Hh, length_app, (proj1 build_length) in Hh', Hm' |- *.
    rewrite build_list_cons, methods_list_cons. simpl.
    split; [reflexivity|]. split.
    + rewrite Hh', <- app_assoc. reflexivity.
    + rewrite Hm', Hm, app_assoc. reflexivity.
Qed.

Lemma construction_total :
  (forall c parent w po,
      wf c = true -> lookup_parent parent w = Ok po ->
      exists g w', Group_init c parent w = Ok (g, w')) /\
  (forall d self w cur,
      wf_items d = true -> heap w !! self = Some cur ->
      exists w', update self d w = Ok w') /\
  (forall gs self w cur,
      forallb wf gs = true -> heap w !! self = Some cur ->
      exists cs w', children self gs w = Ok (cs, w')).
Proof.
  apply value_ind3; try (intros; discriminate).
  - intros d IH parent w po Hwf Hpo.
    apply wf_inv in Hwf as (d' & [= <-] & _ & Hn & Hwf).
    rewrite Group_init_obj, Hpo. simpl.
    assert (Hself : heap (set_heap (heap w ++ [initial (length (heap w)) d po]) w)
                      !! length (heap w)
                    = Some (initial (length (heap w)) d po)).
    { simpl. apply list_lookup_middle. reflexivity. }
    destruct (IH _ _ _ Hwf Hself) as [w1 Hu]. rewrite Hu. simpl.
    destruct (proj1 (proj2 construction_heap) _ _ _ _ _ Hu Hself) as [Hh _].
    simpl in Hh. rewrite insert_app_r_alt, Nat.sub_diag in Hh by reflexivity.
    rewrite length_app, Nat.add_1_r in Hh.
    rewrite <- app_assoc in Hh. simpl in Hh. rewrite Hh.
    rewrite list_lookup_middle by reflexivity. simpl.
    rewrite name_final. destruct (final_name d); try discriminate; simpl; eauto.
  - intros self w cur _ _. exists w. reflexivity.
  - intros key v rest _ IHv IH self w cur Hwf Hc.
    rewrite wf_items_cons in Hwf. apply andb_prop in Hwf as [Hv Hwf].
    rewrite update_cons. unfold set_expando, set_expando_with, wf_item, wf_item_with in *.
    destruct (String.eqb key "groups").
    + destruct v as [| |gs|]; try discriminate.
      destruct (IHv gs eq_refl self w cur Hv Hc) as (cs & w1 & Hch).
      fold children. rewrite Hch. simpl.
      destruct (proj2 (proj2 construction_heap) _ _ _ _ _ _ Hch Hc) as (_ & Hh & _).
      eapply IH; [exact Hwf|]. apply lookup_modify.
      rewrite Hh. apply lookup_app_l_Some, Hc.
    + simpl. eapply IH; [exact Hwf|]. apply lookup_modify, Hc.
  - intros self w cur _ _. exists [], w. reflexivity.
  - intros g gs IHg IH self w cur Hwf Hc.
    simpl in Hwf. apply andb_prop in Hwf as [Hg Hwf].
    assert (Hpo : lookup_parent (Some self) w = Ok (Some (self, cur))).
    { simpl. rewrite Hc. reflexivity. }
    destruct (IHg _ _ _ Hg Hpo) as (c & w1 & Hi).
    rewrite children_cons, Hi. simpl.
    destruct (proj1 construction_heap _ _ _ _ _ _ Hi Hpo) as (_ & Hh & _).
    assert (Hc' : heap w1 !! self = Some cur).
    { rewrite Hh. apply lookup_app_l_Some, Hc. }
    destruct (IH _ _ _ Hwf Hc') as (cs & w2 & Hch). rewrite Hch. simpl. eauto.
Qed.

(** ** The attributes of a constructed group *)

Lemma groups_setattr key v cur : groups (setattr key v cur) = groups cur.
Proof.
  unfold setattr.
  repeat (match goal with |- context [if ?b then _ else _] => destruct b end);
    reflexivity.
Qed.

(** Without a [groups] field nothing is allocated and [groups] is kept. *)
Lemma no_groups_field d : forall base cur,
  forallb (fun kv => negb (String.eqb (fst kv) "groups")) d = true ->
  groups (apply_items base cur d) = groups cur /\
  ids_items d base = [] /\ count_items d = 0.
Proof.
  induction d as [|[key v] rest IH]; intros base cur H; [auto|].
  simpl in H. apply andb_prop in H as [Hk Hr].
  rewrite apply_items_cons, count_items_cons. simpl.
  unfold apply_item, ids_item, count_item, count_item_with.
  destruct (String.eqb key "groups"); [discriminate|].
  destruct (IH (base + 0) (setattr key v cur) Hr) as (-> & -> & ->).
  rewrite groups_setattr. auto.
Qed.

(** With distinct keys the [groups] attribute ends up holding the children
    of the one [groups] field. *)
Lemma groups_apply_items d : forall base cur,
  distinct_keys d = true -> groups cur = [] ->
  groups (apply_items base cur d) = ids_items d base.
Proof.
  induction d as [|[key v] rest IH]; intros base cur Hd Hc; [exact Hc|].
  simpl in Hd. apply andb_prop in Hd as [Hk Hr].
  rewrite apply_items_cons. simpl.
  unfold apply_item, ids_item.
  destruct (String.eqb key "groups") eqn:Ek.
  - apply String.eqb_eq in Ek. subst key.
    destruct (no_groups_field rest (base + count_item "groups" v)
                (match v with
                 | VList gs => set_groups (child_ids base gs) cur
                 | _ => cur
                 end) Hk) as (-> & -> & _).
    rewrite app_nil_r. destruct v; simpl; auto.
  - rewrite IH; auto. rewrite groups_setattr. exact Hc.
Qed.

Lemma parent_apply_items d : forall base cur,
  assoc "parent" d = None -> parent (apply_items base cur d) = parent cur.
Proof.
  induction d as [|[key v] rest IH]; intros base cur H; [reflexivity|].
  rewrite apply_items_cons. simpl in H.
  destruct (String.eqb key "parent") eqn:Ek; [discriminate|].
  rewrite IH by exact H. unfold apply_item, setattr. rewrite Ek.
  destruct (String.eqb key "groups"); [destruct v; reflexivity|].
  repeat (match goal with |- context [if ?b then _ else _] => destruct b end);
    reflexivity.
Qed.

Lemma sorter_kept d : forall base cur,
  forallb (fun kv => negb (String.eqb (fst kv) "sorter")) d = true ->
  sorter (apply_items base cur d) = sorter cur.
Proof.
  induction d as [|[key v] rest IH]; intros base cur H; [reflexivity|].
  rewrite apply_items_cons. simpl in H. apply andb_prop in H as [Hk H].
  rewrite IH by exact H. unfold apply_item, setattr.
  destruct (String.eqb key "sorter"); [discriminate|].
  destruct (String.eqb key "groups"); [destruct v; reflexivity|].
  repeat (match goal with |- context [if ?b then _ else _] => destruct b end);
    reflexivity.
Qed.

Lemma sorter_apply_items d : forall base cur v,
  assoc "sorter" d = Some v -> distinct_keys d = true ->
  sorter (apply_items base cur d) = v.
Proof.
  induction d as [|[key x] rest IH]; intros base cur v H Hd; [discriminate|].
  rewrite apply_items_cons. simpl in H, Hd. apply andb_prop in Hd as [Hk Hd].
  destruct (String.eqb key "sorter") eqn:Ek.
  - injection H as ->. apply String.eqb_eq in Ek. subst key.
    rewrite sorter_kept by exact Hk. reflexivity.
  - apply IH; assumption.
Qed.

Lemma root_apply_item base key v cur :
  plain_key (key, v) = true -> root (apply_item base key v cur) = root cur.
Proof.
  unfold plain_key, apply_item, setattr. simpl. intros H.
  apply andb_prop in H as [_ H].
  destruct (String.eqb key "root"); [discriminate|].
  destruct (String.eqb key "groups"); [destruct v; reflexivity|].
  repeat (match goal with |- context [if ?b then _ else _] => destruct b end);
    reflexivity.
Qed.

Lemma root_apply_items d : forall base cur,
  forallb plain_key d = true -> root (apply_items base cur d) = root cur.
Proof.
  induction d as [|[key v] rest IH]; intros base cur H; [reflexivity|].
  simpl in H. apply andb_prop in H as [Hk H].
  rewrite apply_items_cons, IH by exact H. apply root_apply_item, Hk.
Qed.

Lemma plain_keys_no_parent d :
  forallb plain_key d = true -> assoc "parent" d = None.
Proof.
  induction d as [|[key v] rest IH]; [reflexivity|].
  simpl. intros H. apply andb_prop in H as [Hk H].
  unfold plain_key in Hk. simpl in Hk. apply andb_prop in Hk as [Hk _].
  destruct (String.eqb key "parent"); [discriminate|]. auto.
Qed.

Lemma built_from_head d self po base :
  base = S self ->
  built_from (apply_items base (initial self d po) d) (self, VObj d, fst <$> po).
Proof.
  intros ->. exists d. simpl. split; [reflexivity|]. split; [apply name_final|].
  split; [|split].
  - intros Hd. apply groups_apply_items; [exact Hd|reflexivity].
  - intros Hp. rewrite parent_apply_items by exact Hp.
    destruct po as [[p o]|]; reflexivity.
  - intros v Hv Hd. apply sorter_apply_items; assumption.
Qed.

(** ** The walk of a constructed tree *)

Lemma for_yield_app {A B : Type} (xs ys : list A) (body : A -> result (list B)) :
  for_yield (xs ++ ys) body =
  for_yield xs body ≫= fun l1 => for_yield ys body ≫= fun l2 => Ok (l1 ++ l2).
Proof.
  induction xs as [|x xs IH]; simpl.
  - destruct (for_yield ys body); reflexivity.
  - destruct (body x) as [l|e]; simpl; [|reflexivity]. rewrite IH.
    destruct (for_yield xs body) as [l1|e]; simpl; [|reflexivity].
    destruct (for_yield ys body) as [l2|e]; simpl; [|reflexivity].
    rewrite app_assoc. reflexivity.
Qed.

Lemma for_yield_all {A B : Type} (xs : list A) (body : A -> result (list B))
    (f : A -> list B) :
  (forall x, In x xs -> body x = Ok (f x)) ->
  for_yield xs body = Ok (concat (map f xs)).
Proof.
  induction xs as [|x xs IH]; intros H; [reflexivity|].
  simpl. rewrite (H x) by (left; reflexivity). simpl.
  rewrite IH by (intros y Hy; apply H; right; exact Hy). reflexivity.
Qed.

Lemma walk_built :
  (forall c h self po pre post n,
      wf c = true -> h = pre ++ build c self po ++ post -> length pre = self ->
      count c <= n ->
      walk_groups_fuel n h self = Ok (seq self (count c))) /\
  (forall d h self base cur pre post n,
      wf_items d = true -> h = pre ++ build_items self d base cur ++ post ->
      length pre = base -> count_items d <= n ->
      for_yield (ids_items d base) (walk_groups_fuel n h)
      = Ok (seq base (count_items d))) /\
  (forall gs h po base pre post n,
      forallb wf gs = true -> h = pre ++ build_list po gs base ++ post ->
      length pre = base -> count_list gs <= n ->
      for_yield (child_ids base gs) (walk_groups_fuel n h)
      = Ok (seq base (count_list gs))).
Proof.
  apply value_ind3; try (intros; discriminate).
  - (* a group *)
    intros d IH h self po pre post n Hwf Hh Hpre Hn.
    apply wf_inv in Hwf as (d' & [= <-] & Hd & _ & Hwf).
    change (count (VObj d)) with (S (count_items d)) in *.
    destruct n as [|n]; [lia|]. simpl.
    rewrite build_obj in Hh.
    assert (Hself : h !! self = Some (apply_items (S self) (initial self d po) d)).
    { rewrite Hh. apply list_lookup_middle. symmetry. exact Hpre. }
    unfold deref. rewrite Hself. simpl.
    rewrite groups_apply_items by (auto; reflexivity).
    erewrite (IH h self (S self) (initial self d po)
                (pre ++ [apply_items (S self) (initial self d po) d]) post n Hwf).
    + reflexivity.
    + rewrite Hh, <- app_assoc. reflexivity.
    + rewrite length_app. simpl. lia.
    + lia.
  - (* no field *)
    intros. reflexivity.
  - (* one field *)
    intros key v rest _ IHv IH h self base cur pre post n Hwf Hh Hpre Hn.
    rewrite wf_items_cons in Hwf. apply andb_prop in Hwf as [Hv Hwf].
    rewrite build_items_cons in Hh. rewrite count_items_cons in Hn |- *.
    simpl ids_items. rewrite for_yield_app.
    erewrite (IH h self (base + count_item key v) (apply_item base key v cur)
                (pre ++ build_item self key v base cur) post n Hwf).
    + unfold wf_item, wf_item_with, ids_item, build_item, build_item_with,
        count_item, count_item_with in *.
      destruct (String.eqb key "groups");
        [|simpl; rewrite Nat.add_0_r; reflexivity].
      destruct v as [| |gs|]; try discriminate.
      fold count_list build_list in *.
      erewrite (IHv gs eq_refl h (self, cur) base pre
                  (build_items self rest (base + count_list gs)
                     (apply_item base key (VList gs) cur) ++ post) n Hv).
      * simpl. rewrite seq_app. reflexivity.
      * rewrite Hh, <- app_assoc. reflexivity.
      * exact Hpre.
      * lia.
    + rewrite Hh, <- !app_assoc. reflexivity.
    + rewrite length_app. f_equal; [exact Hpre|].
      unfold build_item, build_item_with, count_item, count_item_with.
      destruct (String.eqb key "groups"); [|reflexivity].
      destruct v; try reflexivity. apply build_length.
    + lia.
  - (* no child *)
    intros. reflexivity.
  - (* one child *)
    intros g gs IHg IH h po base pre post n Hwf Hh Hpre Hn.
    simpl in Hwf. apply andb_prop in Hwf as [Hg Hwf].
    rewrite build_list_cons in Hh. rewrite count_list_cons in Hn |- *.
    simpl.
    erewrite (IHg h base (Some po) pre
                (build_list po gs (base + count g) ++ post) n Hg).
    + simpl.
      erewrite (IH h po (base + count g) (pre ++ build g base (Some po)) post n Hwf).
      * simpl. rewrite seq_app. reflexivity.
      * rewrite Hh, <- !app_assoc. reflexivity.
      * rewrite length_app, (proj1 build_length). lia.
      * lia.
    + rewrite Hh, <- app_assoc. reflexivity.
    + exact Hpre.
    + lia.
Qed.

(** ** The groups of a constructed tree *)

(** The groups of a tree take the identifiers that follow the root's. *)
Lemma subtrees_ids :
  (forall c self p, (subtrees c self p).*1.*1 = seq self (count c)) /\
  (forall d p base, (subtrees_items p d base).*1.*1 = seq base (count_items d)) /\
  (forall gs p base, (subtrees_list p gs base).*1.*1 = seq base (count_list gs)).
Proof.
  apply value_ind3; try reflexivity.
  - intros d IH self p. rewrite subtrees_obj. simpl. f_equal. apply IH.
  - intros key v rest _ IHv IH p base.
    rewrite subtrees_items_cons, count_items_cons, !fmap_app, IH, seq_app.
    f_equal.
    unfold subtrees_item, subtrees_item_with, count_item, count_item_with.
    destruct (String.eqb key "groups"); [|reflexivity].
    destruct v; try reflexivity. apply (IHv _ eq_refl).
  - intros g gs IHg IH p base.
    rewrite subtrees_list_cons, count_list_cons, !fmap_app, IHg, IH, seq_app.
    reflexivity.
Qed.

(** Every group of a well-formed tree is built from a well-formed grouping
    and its subtree lies within the tree. *)
Lemma subtrees_wf :
  (forall c self p e, wf c = true -> e ∈ subtrees c self p ->
      wf e.1.2 = true /\ self <= e.1.1 /\ e.1.1 + count e.1.2 <= self + count c) /\
  (forall d p base e, wf_items d = true -> e ∈ subtrees_items p d base ->
      wf e.1.2 = true /\ base <= e.1.1 /\ e.1.1 + count e.1.2 <= base + count_items d) /\
  (forall gs p base e, forallb wf gs = true -> e ∈ subtrees_list p gs base ->
      wf e.1.2 = true /\ base <= e.1.1 /\ e.1.1 + count e.1.2 <= base + count_list gs).
Proof.
  apply value_ind3; try (intros; discriminate).
  - intros d IH self p e Hwf He.
    rewrite subtrees_obj in He. apply elem_of_cons in He as [->|He].
    + simpl. split; [exact Hwf|]. lia.
    + apply wf_inv in Hwf as (d' & [= <-] & _ & _ & Hwf).
      destruct (IH _ _ _ Hwf He) as (? & ? & ?).
      change (count (VObj d)) with (S (count_items d)). split; [assumption|]. lia.
  - intros p base e _ He. apply elem_of_nil in He as [].
  - intros key v rest _ IHv IH p base e Hwf He.
    rewrite wf_items_cons in Hwf. apply andb_prop in Hwf as [Hv Hwf].
    rewrite subtrees_items_cons in He. rewrite count_items_cons.
    apply elem_of_app in He as [He|He].
    + unfold subtrees_item, subtrees_item_with, wf_item, wf_item_with,
        count_item, count_item_with in *.
      destruct (String.eqb key "groups"); [|apply elem_of_nil in He as []].
      destruct v as [| |gs|]; try discriminate.
      destruct (IHv gs eq_refl _ _ _ Hv He) as (? & ? & ?).
      fold count_list. split; [assumption|]. lia.
    + destruct (IH _ _ _ Hwf He) as (? & ? & ?). split; [assumption|]. lia.
  - intros p base e _ He. apply elem_of_nil in He as [].
  - intros g gs IHg IH p base e Hwf He.
    simpl in Hwf. apply andb_prop in Hwf as [Hg Hwf].
    rewrite subtrees_list_cons in He. rewrite count_list_cons.
    apply elem_of_app in He as [He|He].
    + destruct (IHg _ _ _ Hg He) as (? & ? & ?). split; [assumption|]. lia.
    + destruct (IH _ _ _ Hwf He) as (? & ? & ?). split; [assumption|]. lia.
Qed.

Lemma subtrees_no_reserved :
  (forall c self p e, no_reserved c = true -> e ∈ subtrees c self p ->
      no_reserved e.1.2 = true) /\
  (forall d p base e, no_reserved_items d = true -> e ∈ subtrees_items p d base ->
      no_reserved e.1.2 = true) /\
  (forall gs p base e, forallb no_reserved gs = true -> e ∈ subtrees_list p gs base ->
      no_reserved e.1.2 = true).
Proof.
  apply value_ind3;
    try (intros; simpl in *;
         match goal with H : _ ∈ [] |- _ => apply elem_of_nil in H as [] end).
  - intros d IH self p e Hn He. rewrite subtrees_obj in He.
    apply elem_of_cons in He as [->|He]; [exact Hn|].
    rewrite no_reserved_obj in Hn. apply andb_prop in Hn as [_ Hn].
    apply (IH _ _ _ Hn He).
  - intros key v rest _ IHv IH p base e Hn He.
    rewrite no_reserved_items_cons in Hn. apply andb_prop in Hn as [Hv Hn].
    rewrite subtrees_items_cons in He. apply elem_of_app in He as [He|He].
    + unfold subtrees_item, subtrees_item_with, no_reserved_item,
        no_reserved_item_with in *.
      destruct (String.eqb key "groups"); [|apply elem_of_nil in He as []].
      destruct v as [| |gs|]; try (apply elem_of_nil in He as []).
      apply (IHv gs eq_refl _ _ _ Hv He).
    + apply (IH _ _ _ Hn He).
  - intros g gs IHg IH p base e Hn He.
    simpl in Hn. apply andb_prop in Hn as [Hg Hn].
    rewrite subtrees_list_cons in He. apply elem_of_app in He as [He|He].
    + apply (IHg _ _ _ Hg He).
    + apply (IH _ _ _ Hn He).
Qed.

(** Every group of a tree other than its root is constructed by a group of
    the tree that has a smaller identifier. *)
Lemma subtrees_parents :
  (forall c self p e, e ∈ subtrees c self p ->
      (e.1.1 = self /\ e.2 = p) \/
      exists pk cpk pp, e.2 = Some pk /\ pk < e.1.1 /\ (pk, cpk, pp) ∈ subtrees c self p) /\
  (forall d p base e, p < base -> e ∈ subtrees_items p d base ->
      exists pk, e.2 = Some pk /\ pk < e.1.1 /\
        (pk = p \/ exists cpk pp, (pk, cpk, pp) ∈ subtrees_items p d base)) /\
  (forall gs p base e, p < base -> e ∈ subtrees_list p gs base ->
      exists pk, e.2 = Some pk /\ pk < e.1.1 /\
        (pk = p \/ exists cpk pp, (pk, cpk, pp) ∈ subtrees_list p gs base)).
Proof.
  apply value_ind3;
    try (intros; simpl in *;
         match goal with H : _ ∈ [] |- _ => apply elem_of_nil in H as [] end).
  - intros d IH self p e He. rewrite subtrees_obj in He |- *.
    apply elem_of_cons in He as [->|He]; [left; auto|]. right.
    destruct (IH self (S self) e (Nat.lt_succ_diag_r self) He)
      as (pk & Hp & Hlt & [->|(cpk & pp & Hin)]).
    + exists self, (VObj d), p. split; [exact Hp|]. split; [exact Hlt|]. left.
    + exists pk, cpk, pp. split; [exact Hp|]. split; [exact Hlt|]. right. exact Hin.
  - intros key v rest _ IHv IH p base e Hlt He.
    rewrite subtrees_items_cons in He |- *.
    apply elem_of_app in He as [He|He].
    + unfold subtrees_item, subtrees_item_with in *.
      destruct (String.eqb key "groups"); [|apply elem_of_nil in He as []].
      destruct v as [| |gs|]; try (apply elem_of_nil in He as []).
      destruct (IHv gs eq_refl p base e Hlt He) as (pk & Hp & Hl & [->|(cpk & pp & Hin)]).
      * exists p. auto.
      * exists pk. split; [exact Hp|]. split; [exact Hl|]. right.
        exists cpk, pp. apply elem_of_app. left. exact Hin.
    + destruct (IH p (base + count_item key v) e ltac:(lia) He)
        as (pk & Hp & Hl & [->|(cpk & pp & Hin)]).
      * exists p. auto.
      * exists pk. split; [exact Hp|]. split; [exact Hl|]. right.
        exists cpk, pp. apply elem_of_app. right. exact Hin.
  - intros g gs IHg IH p base e Hlt He.
    rewrite subtrees_list_cons in He |- *.
    apply elem_of_app in He as [He|He].
    + destruct (IHg base (Some p) e He) as [[He1 He2]|(pk & cpk & pp & Hp & Hl & Hin)].
      * exists p. split; [exact He2|]. split; [lia|]. left. reflexivity.
      * exists pk. split; [exact Hp|]. split; [exact Hl|]. right.
        exists cpk, pp. apply elem_of_app. left. exact Hin.
    + destruct (IH p (base + count g) e ltac:(lia) He)
        as (pk & Hp & Hl & [->|(cpk & pp & Hin)]).
      * exists p. auto.
      * exists pk. split; [exact Hp|]. split; [exact Hl|]. right.
        exists cpk, pp. apply elem_of_app. right. exact Hin.
Qed.

(** The objects that a construction allocates are the groups of the tree,
    in pre-order. *)
Lemma build_subtrees :
  (forall c self po, Forall2 built_from (build c self po) (subtrees c self (fst <$> po))) /\
  (forall d self base cur,
      Forall2 built_from (build_items self d base cur) (subtrees_items self d base)) /\
  (forall gs po base,
      Forall2 built_from (build_list po gs base) (subtrees_list po.1 gs base)).
Proof.
  apply value_ind3; try (intros; constructor).
  - apply built_from_head. reflexivity.
  - apply H.
  - intros key v rest _ IHv IH self base cur.
    rewrite build_items_cons, subtrees_items_cons.
    apply Forall2_app; [|apply IH].
    unfold build_item, build_item_with, subtrees_item, subtrees_item_with.
    destruct (String.eqb key "groups"); [|constructor].
    destruct v; try constructor. apply (IHv _ eq_refl (self, cur)).
  - intros g gs IHg IH po base.
    rewrite build_list_cons, subtrees_list_cons.
    apply Forall2_app; [|apply IH]. apply (IHg base (Some po)).
Qed.

(** The objects of a subtree are consecutive in the store. *)
Lemma build_segment :
  (forall c self po e, e ∈ subtrees c self (fst <$> po) ->
      exists pre post po',
        build c self po = pre ++ build e.1.2 e.1.1 po' ++ post /\
        self + length pre = e.1.1 /\ fst <$> po' = e.2) /\
  (forall d self base cur e, e ∈ subtrees_items self d base ->
      exists pre post po',
        build_items self d base cur = pre ++ build e.1.2 e.1.1 po' ++ post /\
        base + length pre = e.1.1 /\ fst <$> po' = e.2) /\
  (forall gs po base e, e ∈ subtrees_list po.1 gs base ->
      exists pre post po',
        build_list po gs base = pre ++ build e.1.2 e.1.1 po' ++ post /\
        base + length pre = e.1.1 /\ fst <$> po' = e.2).
Proof.
  apply value_ind3;
    try (intros; simpl in *;
         match goal with H : _ ∈ [] |- _ => apply elem_of_nil in H as [] end).
  - intros d IH self po e He. rewrite subtrees_obj in He.
    apply elem_of_cons in He as [->|He].
    + exists [], [], po. simpl. rewrite app_nil_r. split; [reflexivity|]. split; [lia|reflexivity].
    + destruct (IH self (S self) (initial self d po) e He) as (pre & post & po' & Hb & Hl & Hp).
      exists (apply_items (S self) (initial self d po) d :: pre), post, po'.
      rewrite build_obj. fold build_items. rewrite Hb. simpl.
      split; [reflexivity|]. split; [lia|exact Hp].
  - intros key v rest _ IHv IH self base cur e He.
    rewrite subtrees_items_cons in He. rewrite build_items_cons.
    apply elem_of_app in He as [He|He].
    + unfold subtrees_item, subtrees_item_with, build_item, build_item_with in *.
      destruct (String.eqb key "groups"); [|apply elem_of_nil in He as []].
      destruct v as [| |gs|]; try (apply elem_of_nil in He as []).
      destruct (IHv gs eq_refl (self, cur) base e He) as (pre & post & po' & Hb & Hl & Hp).
      fold build_list. rewrite Hb.
      exists pre, (post ++ build_items self rest (base + count_item key (VList gs))
                     (apply_item base key (VList gs) cur)), po'.
      rewrite <- !app_assoc. auto.
    + destruct (IH self (base + count_item key v) (apply_item base key v cur) e He)
        as (pre & post & po' & Hb & Hl & Hp).
      rewrite Hb. exists (build_item self key v base cur ++ pre), post, po'.
      rewrite <- !app_assoc. split; [reflexivity|]. split; [|exact Hp].
      rewrite length_app.
      assert (length (build_item self key v base cur) = count_item key v); [|lia].
      unfold build_item, build_item_with, count_item, count_item_with.
      destruct (String.eqb key "groups"); [|reflexivity].
      destruct v; try reflexivity. apply build_length.
  - intros g gs IHg IH po base e He.
    rewrite subtrees_list_cons in He. rewrite build_list_cons.
    apply elem_of_app in He as [He|He].
    + destruct (IHg base (Some po) e He) as (pre & post & po' & Hb & Hl & Hp).
      rewrite Hb. exists pre, (post ++ build_list po gs (base + count g)), po'.
      rewrite <- !app_assoc. auto.
    + destruct (IH po (base + count g) e He) as (pre & post & po' & Hb & Hl & Hp).
      rewrite Hb. exists (build g base (Some po) ++ pre), post, po'.
      rewrite <- !app_assoc. split; [reflexivity|]. split; [|exact Hp].
      rewrite length_app, (proj1 build_length). lia.
Qed.

(** What holds of every group of a tree once it is constructed. *)
Lemma constructed_tree c parent w g w' po :
  wf c = true ->
  Group_init c parent w = Ok (g, w') ->
  lookup_parent parent w = Ok po ->
  walk_groups (heap w') g = Ok (seq g (count c)) /\
  forall k ck p, (k, ck, p) ∈ subtrees c g (fst <$> po) ->
    (exists o, heap w' !! k = Some o /\ built_from o (k, ck, p)) /\
    walk_groups (heap w') k = Ok (seq k (count ck)) /\
    wf ck = true /\ g <= k /\ k + count ck <= g + count c.
Proof.
  intros Hwf Hi Hpo.
  destruct (proj1 construction_heap _ _ _ _ _ _ Hi Hpo) as (-> & Hh & _).
  split.
  - apply (proj1 walk_built c (heap w') (length (heap w)) po (heap w) [] _ Hwf).
    + rewrite app_nil_r. exact Hh.
    + reflexivity.
    + rewrite Hh, length_app, (proj1 build_length). lia.
  - intros k ck p He.
    destruct (proj1 subtrees_wf _ _ _ _ Hwf He) as (Hck & Hlo & Hhi). simpl in *.
    destruct (proj1 build_segment _ _ _ _ He) as (pre & post & po' & Hb & Hl & Hp).
    simpl in *. rewrite Hb, app_assoc in Hh.
    apply wf_inv in Hck as Hd. destruct Hd as (dk & -> & _).
    assert (Hk : heap w' !! k = Some (apply_items (S k) (initial k dk po') dk)).
    { rewrite Hh, build_obj. apply list_lookup_middle.
      rewrite length_app. lia. }
    split; [|split; [|auto]].
    + eexists. split; [exact Hk|]. rewrite <- Hp. apply built_from_head. reflexivity.
    + apply (proj1 walk_built (VObj dk) (heap w') k po' (heap w ++ pre) post _ Hck).
      * exact Hh.
      * rewrite length_app. lia.
      * rewrite Hh, !length_app, (proj1 build_length). lia.
Qed.

(** ** The methods attached to the node class *)

Lemma length_append (a b : string) :
  String.length (a +:+ b) = String.length a + String.length b.
Proof. induction a as [|ch a IH]; simpl; [reflexivity|]. rewrite IH. reflexivity. Qed.

(** The two attribute names that a group sets are different. *)
Lemma method_names_differ (n : string) :
  String.eqb ("walk_resources_grouped_by_" +:+ n) ("walk_" +:+ n +:+ "_groups") = false.
Proof.
  apply String.eqb_neq. intros H. apply (f_equal String.length) in H.
  rewrite !length_append in H. simpl in H. lia.
Qed.

Lemma assoc_app_l {A : Type} (key : string) (l l' : list (string * A)) (v : A) :
  assoc key l = Some v -> assoc key (l ++ l') = Some v.
Proof.
  induction l as [|[k x] l IH]; simpl; [discriminate|].
  destruct (String.eqb k key); auto.
Qed.

Lemma assoc_bound {A : Type} (key : string) (v : A) (l : list (string * A)) :
  In (key, v) l -> exists v', assoc key l = Some v' /\ In (key, v') l.
Proof.
  induction l as [|[k x] l IH]; simpl; [intros []|].
  intros [[= -> ->]|H].
  - rewrite String.eqb_refl. eauto.
  - destruct (String.eqb_spec k key) as [->|_]; [eauto|].
    destruct (IH H) as (v' & Hv & Hin). eauto.
Qed.

(** After a construction the two attributes named after the group are
    bound to the group, whatever they were bound to before. *)
Lemma constructed_methods c parent w g w' po :
  Group_init c parent w = Ok (g, w') ->
  lookup_parent parent w = Ok po ->
  assoc ("walk_" +:+ text (cfg_name c) +:+ "_groups") (node_methods w')
  = Some (walk_groups_in_node_of g) /\
  assoc ("walk_resources_grouped_by_" +:+ text (cfg_name c)) (node_methods w')
  = Some (walk_resources_of g).
Proof.
  intros Hi Hpo.
  destruct (proj1 construction_heap _ _ _ _ _ _ Hi Hpo) as (_ & _ & Hm).
  destruct c as [| | |d]; try discriminate.
  rewrite Hm, methods_obj. unfold own_methods, cfg_name.
  rewrite <- !app_comm_cons, !assoc_cons.
  rewrite method_names_differ, !String.eqb_refl. auto.
Qed.

(** The attributes set by the construction of a subtree are consecutive
    among those set by the construction of the tree. *)
Lemma methods_segment :
  (forall c self p e, e ∈ subtrees c self p ->
      exists newer older, methods c self = newer ++ methods e.1.2 e.1.1 ++ older) /\
  (forall d p base e, e ∈ subtrees_items p d base ->
      exists newer older, methods_items d base = newer ++ methods e.1.2 e.1.1 ++ older) /\
  (forall gs p base e, e ∈ subtrees_list p gs base ->
      exists newer older, methods_list gs base = newer ++ methods e.1.2 e.1.1 ++ older).
Proof.
  apply value_ind3;
    try (intros; simpl in *;
         match goal with H : _ ∈ [] |- _ => apply elem_of_nil in H as [] end).
  - intros d IH self p e He. rewrite subtrees_obj in He.
    apply elem_of_cons in He as [->|He].
    + exists [], []. simpl. rewrite app_nil_r. reflexivity.
    + destruct (IH self (S self) e He) as (newer & older & Hm).
      rewrite methods_obj, Hm.
      exists (own_methods (text (final_name d)) self ++ newer), older.
      rewrite <- app_assoc. reflexivity.
  - intros key v rest _ IHv IH p base e He.
    rewrite subtrees_items_cons in He. rewrite methods_items_cons.
    apply elem_of_app in He as [He|He].
    + unfold subtrees_item, subtrees_item_with, methods_item, methods_item_with in *.
      destruct (String.eqb key "groups"); [|apply elem_of_nil in He as []].
      destruct v as [| |gs|]; try (apply elem_of_nil in He as []).
      destruct (IHv gs eq_refl p base e He) as (newer & older & Hm).
      fold methods_list. rewrite Hm.
      exists (methods_items rest (base + count_item key (VList gs)) ++ newer), older.
      rewrite <- app_assoc. reflexivity.
    + destruct (IH p (base + count_item key v) e He) as (newer & older & Hm).
      rewrite Hm. exists newer, (older ++ methods_item key v base).
      rewrite <- !app_assoc. reflexivity.
  - intros g gs IHg IH p base e He.
    rewrite subtrees_list_cons in He. rewrite methods_list_cons.
    apply elem_of_app in He as [He|He].
    + destruct (IHg base (Some p) e He) as (newer & older & Hm).
      rewrite Hm. exists (methods_list gs (base + count g) ++ newer), older.
      rewrite <- app_assoc. reflexivity.
    + destruct (IH p (base + count g) e He) as (newer & older & Hm).
      rewrite Hm. exists newer, (older ++ methods g base).
      rewrite <- !app_assoc. reflexivity.
Qed.

(** ** C1 and C6: the resources of a group *)

Lemma scan_filter h o walker :
  (forall v, root_name h o = Some v -> is_str v = true) ->
  scan h o walker = Ok (List.filter (in_group h o) walker).
Proof.
  intros Hf. unfold scan.
  induction walker as [|r walker IH]; [reflexivity|].
  simpl. rewrite IH. unfold belongs, in_group.
  destruct (meta r) as [m|].
  - destruct (root_name h o) as [v|]; [|reflexivity].
    specialize (Hf v eq_refl). destruct v; try discriminate.
    destruct (assoc s m) as [gv|]; [|reflexivity].
    simpl. destruct (py_eq gv (name o)); reflexivity.
  - simpl. destruct (root_name h o) as [[]|]; reflexivity.
Qed.

(** C1. For a group [self] of any store and any node, a resource is yielded
    by [self.list_resources(node)] if and only if the traversal chosen for
    the node yields it and its metadata has, under the field named by
    [self.root.name], a value equal to [self.name]; the resources are
    yielded in the order of the traversal.  A resource without metadata or
    without that field is passed over and the call returns normally. *)
Theorem list_resources_filters (h : list Group) (self : gid) (o : Group)
    (node : Node) (walker : list Resource) :
  h !! self = Some o ->
  choose_walker o node = Ok walker ->
  (forall v, root_name h o = Some v -> is_str v = true) ->
  exists l,
    list_resources h self node = Ok l /\
    l = List.filter (in_group h o) walker /\
    (forall r, In r l <->
       In r walker /\
       exists field m group_value,
         root_name h o = Some (VStr field) /\
         meta r = Some m /\ assoc field m = Some group_value /\
         py_eq group_value (name o) = true) /\
    (forall r field,
       root_name h o = Some (VStr field) ->
       (meta r = None \/ exists m, meta r = Some m /\ assoc field m = None) ->
       ~ In r l).
Proof.
  intros Ho Hw Hf. exists (List.filter (in_group h o) walker).
  split; [|split; [reflexivity|split]].
  - unfold list_resources, deref. rewrite Ho. simpl. rewrite Hw. simpl.
    apply scan_filter, Hf.
  - intros r. rewrite filter_In. unfold in_group. split.
    + intros [Hr Hm]. split; [exact Hr|].
      destruct (root_name h o) as [[| field | |]|]; try discriminate.
      destruct (meta r) as [m|]; [|discriminate].
      destruct (assoc field m) as [v|] eqn:Ea; [|discriminate].
      exists field, m, v. auto.
    + intros [Hr (field & m & v & -> & -> & -> & Hv)]. auto.
  - intros r field Hfield Hr Hin. apply filter_In in Hin as [_ Hin].
    unfold in_group in Hin. rewrite Hfield in Hin.
    destruct Hr as [Hr|(m & Hr & Hm)]; rewrite Hr in Hin; [discriminate|].
    rewrite Hm in Hin. discriminate.
Qed.

Lemma list_resources_filters_witness :
  exists l,
    list_resources example_groups 1 example_node = Ok l /\
    l = [ {| path := "a.html"; meta := Some [("topics", VStr "a")] |} ].
Proof.
  destruct (list_resources_filters example_groups 1
              {| name := VStr "a"; parent := SRef 0; root := SRef 0;
                 groups := []; sorter := VNone; fields := [] |}
              example_node (Node_walk_resources example_node)
              eq_refl eq_refl) as (l & Hl & Heq & _).
  { intros v [= <-]. reflexivity. }
  exists l. split; [exact Hl|]. rewrite Heq. reflexivity.
Defined.

Lemma sorted_walker_name s :
  String.eqb ("walk_resources_sorted_by_" +:+ s) "walk_resources" = false.
Proof. reflexivity. Qed.

(** C6. A group whose sorter is a non-empty string [s] lists the resources
    that the node's [walk_resources_sorted_by_s] yields when the node has
    that walker, and those of [walk_resources] when it has not; choosing
    the traversal raises no error in either case.  A group whose sorter is
    [None] or empty uses [walk_resources]. *)
Theorem list_resources_walker (h : list Group) (self : gid) (o : Group) (node : Node) :
  h !! self = Some o ->
  (truthy (sorter o) = false ->
     choose_walker o node = Ok (Node_walk_resources node) /\
     list_resources h self node = scan h o (Node_walk_resources node)) /\
  (forall s, sorter o = VStr s -> s <> "" ->
     (forall sorted,
        assoc ("walk_resources_sorted_by_" +:+ s) (Node_walkers node) = Some sorted ->
        choose_walker o node = Ok sorted /\
        list_resources h self node = scan h o sorted) /\
     (assoc ("walk_resources_sorted_by_" +:+ s) (Node_walkers node) = None ->
        choose_walker o node = Ok (Node_walk_resources node) /\
        list_resources h self node = scan h o (Node_walk_resources node))).
Proof.
  intros Ho. unfold list_resources, deref. rewrite Ho. simpl. split.
  - intros Hs. unfold choose_walker. rewrite Hs. simpl. auto.
  - intros s Hs Hne. unfold choose_walker. rewrite Hs. simpl.
    destruct (String.eqb_spec s "") as [->|_]; [contradiction|]. simpl.
    unfold Node_getattr. rewrite sorted_walker_name.
    split; [intros sorted Hw|intros Hw]; rewrite Hw; simpl; auto.
Qed.

Lemma list_resources_walker_witness :
  list_resources [example_sorted_group] 0 example_sorted_node =
  scan [example_sorted_group] example_sorted_group
    [ {| path := "a.html"; meta := Some [("topics", VStr "a")] |};
      {| path := "b.html"; meta := Some [("topics", VStr "a")] |} ].
Proof.
  destruct (list_resources_walker [example_sorted_group] 0 example_sorted_group
              example_sorted_node eq_refl) as [_ H].
  destruct (H "kind" eq_refl ltac:(discriminate)) as [H1 _].
  exact (proj2 (H1 _ eq_refl)).
Defined.

(** ** C4: the walk of the groups *)

Lemma seq_block g n k m :
  g <= k -> k + m <= g + n -> 0 < m ->
  seq g n = seq g (k - g) ++ k :: seq (S k) (m - 1) ++ seq (k + m) (g + n - (k + m)).
Proof.
  intros H1 H2 H3.
  replace n with ((k - g) + (m + (g + n - (k + m)))) at 1 by lia.
  rewrite seq_app. f_equal. replace (g + (k - g)) with k by lia.
  rewrite seq_app. destruct m as [|m]; [lia|]. simpl.
  rewrite Nat.sub_0_r. reflexivity.
Qed.

(** C4. The construction of a well-formed grouping [c] returns, and
    [walk_groups()] on the group it returns yields the groups of the tree in
    depth-first pre-order ([subtrees]: a group, then the subtree of each
    child in the order of the configuration): every group once, as many
    groups as the configuration has groupings ([count c]).  Every group [k]
    of the tree is a [Group] object built from its grouping, its own walk
    starts with [k], and that walk is a block of the walk of the root: [k]
    comes before all its descendants. *)
Theorem walk_groups_preorder (c : value) (w : world) :
  wf c = true ->
  exists g w',
    Group_init c None w = Ok (g, w') /\
    walk_groups (heap w') g = Ok (subtrees c g None).*1.*1 /\
    NoDup (subtrees c g None).*1.*1 /\
    length (subtrees c g None) = count c /\
    head (subtrees c g None) = Some (g, c, None) /\
    forall k ck p, (k, ck, p) ∈ subtrees c g None ->
      exists o before after,
        heap w' !! k = Some o /\ built_from o (k, ck, p) /\
        walk_groups (heap w') k = Ok (k :: seq (S k) (count ck - 1)) /\
        (subtrees c g None).*1.*1
        = before ++ k :: seq (S k) (count ck - 1) ++ after.
Proof.
  intros Hwf.
  destruct (proj1 construction_total c None w None Hwf eq_refl) as (g & w' & Hi).
  exists g, w'. split; [exact Hi|].
  destruct (constructed_tree c None w g w' None Hwf Hi eq_refl) as [Hwalk Hall].
  rewrite (proj1 subtrees_ids). split; [exact Hwalk|].
  split; [apply NoDup_seq|]. split.
  { transitivity (length (subtrees c g None).*1.*1).
    - rewrite !length_fmap. reflexivity.
    - rewrite (proj1 subtrees_ids). apply length_seq. }
  split.
  { apply wf_inv in Hwf as (d & -> & _). reflexivity. }
  intros k ck p He.
  destruct (Hall k ck p He) as ((o & Ho & Hb) & Hk & Hck & Hlo & Hhi).
  pose proof (wf_count ck Hck) as Hpos.
  exists o, (seq g (k - g)), (seq (k + count ck) (g + count c - (k + count ck))).
  split; [exact Ho|]. split; [exact Hb|]. split.
  - rewrite Hk. destruct (count ck); [lia|]. simpl. rewrite Nat.sub_0_r. reflexivity.
  - apply seq_block; assumption.
Qed.

Lemma walk_groups_preorder_witness :
  exists g w',
    Group_init example_grouping None empty_world = Ok (g, w') /\
    walk_groups (heap w') g = Ok (subtrees example_grouping g None).*1.*1.
Proof.
  destruct (walk_groups_preorder example_grouping empty_world eq_refl)
    as (g & w' & Hi & Hw & _).
  exists g, w'. split; [exact Hi|exact Hw].
Defined.

(** ** C2 and C3: the methods of a node *)

Lemma concat_map_filter {A : Type} (p : A -> bool) (xs : list A) :
  concat (map (fun x => if p x then [x] else []) xs) = List.filter p xs.
Proof.
  induction xs as [|x xs IH]; [reflexivity|].
  simpl. rewrite IH. destruct (p x); reflexivity.
Qed.

Lemma scan_next h o walker : forall l,
  scan h o walker = Ok l ->
  match l with
  | [] => next_yield walker (belongs h o) = Ok None
  | r :: l' =>
      exists skipped rest,
        walker = skipped ++ r :: rest /\
        next_yield walker (belongs h o) = Ok (Some (r, rest)) /\
        scan h o skipped = Ok [] /\ scan h o rest = Ok l'
  end.
Proof.
  induction walker as [|x xs IH]; intros l H.
  - injection H as <-. reflexivity.
  - rewrite scan_cons in H. simpl.
    destruct (belongs h o x) as [b|e] eqn:Eb; [|discriminate]. simpl in *.
    destruct (scan h o xs) as [l0|e] eqn:Es; [|discriminate]. simpl in H.
    injection H as <-. specialize (IH l0 eq_refl). destruct b.
    + simpl. exists [], xs. auto.
    + simpl. destruct l0 as [|r l'].
      * exact IH.
      * destruct IH as (skipped & rest & -> & Hn & Hs & Hr).
        exists (x :: skipped), rest. split; [reflexivity|]. split; [exact Hn|].
        split; [|exact Hr]. rewrite scan_cons, Eb. simpl.
        rewrite Hs. reflexivity.
Qed.

Lemma list_resources_first h self node l :
  list_resources h self node = Ok l ->
  exists o walker,
    h !! self = Some o /\ choose_walker o node = Ok walker /\
    match l with
    | [] => list_resources_next h self node = Ok None
    | r :: l' =>
        exists skipped rest,
          walker = skipped ++ r :: rest /\
          list_resources_next h self node = Ok (Some (r, rest)) /\
          scan h o skipped = Ok [] /\ scan h o rest = Ok l'
    end.
Proof.
  unfold list_resources, list_resources_next, deref. intros H.
  destruct (h !! self) as [o|]; [|discriminate]. simpl in *.
  destruct (choose_walker o node) as [walker|] eqn:Hw; [|discriminate]. simpl in *.
  exists o, walker. split; [reflexivity|]. split; [exact Hw|].
  apply scan_next, H.
Qed.

Lemma for_yield_map {A B : Type} (xs : list A) (body : A -> result (list B))
    (f : A -> B) :
  (forall x, In x xs -> body x = Ok [f x]) ->
  for_yield xs body = Ok (map f xs).
Proof.
  induction xs as [|x xs IH]; intros H; [reflexivity|].
  simpl. rewrite (H x) by (left; reflexivity). simpl.
  rewrite IH by (intros y Hy; apply H; right; exact Hy). reflexivity.
Qed.

(** The turns of [walk_groups_in_node]: one for every group of the walk, in
    the order of the walk, with what the first resumption of the list of
    the group returns; the groups yielded are those with a non-empty
    list. *)
Lemma walk_turns h node group walker (listed : gid -> list Resource) :
  walk_groups h group = Ok walker ->
  (forall g, In g walker -> list_resources h g node = Ok (listed g)) ->
  exists turns,
    walk_groups_in_node h node group = Ok turns /\
    (turns.*1) = walker /\
    yielded_groups turns = List.filter (fun g => nonempty (listed g)) walker /\
    forall g lister, In (g, lister) turns ->
      In g walker /\ list_resources_next h g node = Ok lister.
Proof.
  intros Hw Hl.
  set (nxt := fun g => match list_resources_next h g node with
                       | Ok lister => lister
                       | Raise _ => None
                       end).
  assert (Hn : forall g, In g walker ->
            list_resources_next h g node = Ok (nxt g) /\
            (nxt g = None <-> listed g = [])).
  { intros g Hg. unfold nxt.
    destruct (list_resources_first _ _ _ _ (Hl g Hg)) as (o & tr & _ & _ & Hf).
    destruct (listed g) as [|r l'].
    - rewrite Hf. tauto.
    - destruct Hf as (skipped & rest & _ & -> & _). split; [reflexivity|].
      split; discriminate. }
  exists (map (fun g => (g, nxt g)) walker). split; [|split; [|split]].
  - unfold walk_groups_in_node. rewrite Hw. simpl. apply for_yield_map.
    intros g Hg. rewrite (proj1 (Hn g Hg)). reflexivity.
  - clear. induction walker as [|g walker IH]; [reflexivity|].
    simpl. f_equal. exact IH.
  - clear - Hn. induction walker as [|g walker IH]; [reflexivity|].
    simpl. rewrite IH by (intros g' Hg'; apply Hn; right; exact Hg').
    destruct (Hn g (or_introl eq_refl)) as [_ Hg].
    destruct (nxt g) as [[r rest]|]; destruct (listed g) as [|r' l']; simpl;
      try reflexivity.
    + destruct Hg as [_ Hg]. discriminate (Hg eq_refl).
    + destruct Hg as [Hg _]. discriminate (Hg eq_refl).
  - intros g lister Hin. apply in_map_iff in Hin as (g' & [= <- <-] & Hg).
    split; [exact Hg|]. apply Hn, Hg.
Qed.

(** C2. The method [walk_<name>_groups] that a group [group] has attached
    to the node class yields, for a node, those groups of
    [group.walk_groups()] whose own [list_resources(node)] yields at least
    one resource, in the order of the walk: whether a group is kept depends
    on its own list only, and a kept group is yielded once however many
    resources it lists.  The method takes one turn for every group of the
    walk, and in the turn of a kept group only the first resource of its
    list is requested: the generator of the list is left suspended at that
    resource, the traversal of the node consumed up to it and no further;
    the generator of a group that is not kept is exhausted.  In a
    constructed tree every group has attached the
    method of its name bound to itself, its walk is the pre-order of its
    subtree, without repetition, and the method named after the root is
    bound to the root. *)
Theorem walk_groups_in_node_filters (w : world) (node : Node) :
  (forall attr group walker listed,
     assoc attr (node_methods w) = Some (walk_groups_in_node_of group) ->
     walk_groups (heap w) group = Ok walker ->
     (forall g, In g walker -> list_resources (heap w) g node = Ok (listed g)) ->
     call_method w node attr
     = Ok (Groups (List.filter (fun g => nonempty (listed g)) walker)) /\
     (exists turns,
        walk_groups_in_node (heap w) node group = Ok turns /\
        (turns.*1) = walker /\
        yielded_groups turns
        = List.filter (fun g => nonempty (listed g)) walker /\
        forall g lister, In (g, lister) turns ->
          exists o traversal,
            heap w !! g = Some o /\ choose_walker o node = Ok traversal /\
            match lister with
            | None => listed g = []
            | Some (r, rest) =>
                exists skipped l',
                  listed g = r :: l' /\
                  traversal = skipped ++ r :: rest /\
                  scan (heap w) o skipped = Ok [] /\
                  scan (heap w) o rest = Ok l'
            end) /\
     forall g r l', In g walker -> listed g = r :: l' ->
       exists o traversal skipped rest,
         heap w !! g = Some o /\ choose_walker o node = Ok traversal /\
         traversal = skipped ++ r :: rest /\
         scan (heap w) o skipped = Ok [] /\
         list_resources_next (heap w) g node = Ok (Some (r, rest))) /\
  (forall c w0 g,
     wf c = true -> Group_init c None w0 = Ok (g, w) ->
     assoc ("walk_" +:+ text (cfg_name c) +:+ "_groups") (node_methods w)
     = Some (walk_groups_in_node_of g) /\
     forall k ck p, (k, ck, p) ∈ subtrees c g None ->
       In ("walk_" +:+ text (cfg_name ck) +:+ "_groups", walk_groups_in_node_of k)
          (node_methods w) /\
       walk_groups (heap w) k = Ok (seq k (count ck)) /\
       NoDup (seq k (count ck))).
Proof.
  split.
  - intros attr group walker listed Ha Hw Hl.
    destruct (walk_turns _ _ _ _ _ Hw Hl) as (turns & Ht & Hfst & Hy & Hin).
    split; [|split].
    + unfold call_method. rewrite Ha, Ht. simpl. rewrite Hy. reflexivity.
    + exists turns. split; [exact Ht|]. split; [exact Hfst|]. split; [exact Hy|].
      intros g lister Hg. destruct (Hin g lister Hg) as [Hgw Hnext].
      destruct (list_resources_first _ _ _ _ (Hl g Hgw)) as (o & tr & Ho & Htr & Hn).
      exists o, tr. split; [exact Ho|]. split; [exact Htr|].
      destruct (listed g) as [|r l'].
      * rewrite Hn in Hnext. injection Hnext as <-. reflexivity.
      * destruct Hn as (skipped & rest & Hsplit & Hn & Hsk & Hrest).
        rewrite Hn in Hnext. injection Hnext as <-.
        exists skipped, l'. auto.
    + intros g r l' Hg Hlg.
      destruct (list_resources_first _ _ _ _ (Hl g Hg)) as (o & tr & Ho & Htr & Hn).
      rewrite Hlg in Hn. destruct Hn as (skipped & rest & Hsplit & Hnext & Hsk & _).
      exists o, tr, skipped, rest. auto.
  - intros c w0 g Hwf Hi. split.
    + apply (constructed_methods c None w0 g w None Hi eq_refl).
    + intros k ck p He.
      destruct (constructed_tree c None w0 g w None Hwf Hi eq_refl) as [_ Hall].
      destruct (Hall k ck p He) as (_ & Hk & Hck & _).
      split; [|split; [exact Hk|apply NoDup_seq]].
      destruct (proj1 construction_heap _ _ _ _ _ _ Hi eq_refl) as (_ & _ & Hm).
      destruct (proj1 methods_segment _ _ _ _ He) as (newer & older & Hs).
      cbn [fst snd] in Hs. apply wf_inv in Hck as (dk & -> & _).
      rewrite Hm, Hs, methods_obj. unfold cfg_name, own_methods.
      apply in_or_app. left. apply in_or_app. right. apply in_or_app. left.
      right. left. reflexivity.
Qed.

(** C3. The method [walk_resources_grouped_by_<name>] that a group [group]
    has attached to the node class yields, for a node, the concatenation of
    [h.list_resources(node)] over the groups [h] of [group.walk_groups()],
    every group of the walk included, in the order of the walk and, within a
    group, in the order of its list.  In a constructed tree every group has
    attached the method of its name bound to itself, its walk is the
    pre-order of its subtree, and the method named after the root is bound
    to the root. *)
Theorem walk_resources_concatenates (w : world) (node : Node) :
  (forall attr group walker listed,
     assoc attr (node_methods w) = Some (walk_resources_of group) ->
     walk_groups (heap w) group = Ok walker ->
     (forall g, In g walker -> list_resources (heap w) g node = Ok (listed g)) ->
     call_method w node attr = Ok (Resources (concat (map listed walker)))) /\
  (forall c w0 g,
     wf c = true -> Group_init c None w0 = Ok (g, w) ->
     assoc ("walk_resources_grouped_by_" +:+ text (cfg_name c)) (node_methods w)
     = Some (walk_resources_of g) /\
     forall k ck p, (k, ck, p) ∈ subtrees c g None ->
       In ("walk_resources_grouped_by_" +:+ text (cfg_name ck), walk_resources_of k)
          (node_methods w) /\
       walk_groups (heap w) k = Ok (seq k (count ck))).
Proof.
  split.
  - intros attr group walker listed Ha Hw Hl.
    unfold call_method. rewrite Ha. unfold walk_resources. rewrite Hw. simpl.
    rewrite (for_yield_all walker _ listed Hl). reflexivity.
  - intros c w0 g Hwf Hi. split.
    + apply (constructed_methods c None w0 g w None Hi eq_refl).
    + intros k ck p He.
      destruct (constructed_tree c None w0 g w None Hwf Hi eq_refl) as [_ Hall].
      destruct (Hall k ck p He) as (_ & Hk & Hck & _).
      split; [|exact Hk].
      destruct (proj1 construction_heap _ _ _ _ _ _ Hi eq_refl) as (_ & _ & Hm).
      destruct (proj1 methods_segment _ _ _ _ He) as (newer & older & Hs).
      cbn [fst snd] in Hs. apply wf_inv in Hck as (dk & -> & _).
      rewrite Hm, Hs, methods_obj. unfold cfg_name, own_methods.
      apply in_or_app. left. apply in_or_app. right. apply in_or_app. left.
      left. reflexivity.
Qed.

Lemma example_listed_ok (g : gid) :
  In g [0; 1; 2] ->
  list_resources (heap example_world) g example_node = Ok (example_listed g).
Proof. intros [<-|[<-|[<-|[]]]]; reflexivity. Qed.

Lemma walk_groups_in_node_filters_witness :
  call_method example_world example_node "walk_topics_groups" = Ok (Groups [1; 2]) /\
  exists turns,
    walk_groups_in_node (heap example_world) example_node 0 = Ok turns /\
    (turns.*1) = [0; 1; 2] /\ yielded_groups turns = [1; 2].
Proof.
  destruct (proj1 (walk_groups_in_node_filters example_world example_node)
              "walk_topics_groups" 0 [0; 1; 2] example_listed
              eq_refl eq_refl example_listed_ok)
    as (Hcall & (turns & Ht & Hfst & Hy & _) & _).
  split; [exact Hcall|]. exists turns. split; [exact Ht|].
  split; [exact Hfst|exact Hy].
Defined.

Lemma walk_resources_concatenates_witness :
  call_method example_world example_node "walk_resources_grouped_by_topics"
  = Ok (Resources
          [ {| path := "a.html"; meta := Some [("topics", VStr "a")] |};
            {| path := "b.html"; meta := Some [("topics", VStr "b")] |} ]).
Proof.
  exact (proj1 (walk_resources_concatenates example_world example_node)
           "walk_resources_grouped_by_topics" 0 [0; 1; 2] example_listed
           eq_refl eq_refl example_listed_ok).
Defined.

(** ** C10: what a construction attaches *)

(** C10. The construction of a well-formed grouping sets on the node class
    the attributes [methods c g] and nothing else.  Every group [k] of the
    tree, the root and every nested group alike, sets the attributes
    [walk_<n>_groups] and [walk_resources_grouped_by_<n>] for its own name
    [n], bound to [k] itself; the attributes of the groups below [k] are
    all older than those of [k] (children register before their parent).
    Looking up a name that the construction has set finds a binding of this
    construction, whatever the name was bound to before; the names of the
    root are bound to the root. *)
Theorem methods_of_construction (c : value) (w : world) :
  wf c = true ->
  exists g w',
    Group_init c None w = Ok (g, w') /\
    node_methods w' = methods c g ++ node_methods w /\
    (forall k dk p, (k, VObj dk, p) ∈ subtrees c g None ->
       exists newer older,
         methods c g
         = newer ++ own_methods (text (final_name dk)) k
                 ++ methods_items dk (S k) ++ older /\
         forall k' dk' p', (k', VObj dk', p') ∈ subtrees_items k dk (S k) ->
           exists l1 l2,
             methods_items dk (S k)
             = l1 ++ own_methods (text (final_name dk')) k' ++ l2) /\
    (forall attr m, In (attr, m) (methods c g) ->
       exists m', assoc attr (node_methods w') = Some m' /\
                  In (attr, m') (methods c g)) /\
    assoc ("walk_" +:+ text (cfg_name c) +:+ "_groups") (node_methods w')
    = Some (walk_groups_in_node_of g) /\
    assoc ("walk_resources_grouped_by_" +:+ text (cfg_name c)) (node_methods w')
    = Some (walk_resources_of g).
Proof.
  intros Hwf.
  destruct (proj1 construction_total c None w None Hwf eq_refl) as (g & w' & Hi).
  exists g, w'. split; [exact Hi|].
  destruct (proj1 construction_heap _ _ _ _ _ _ Hi eq_refl) as (_ & _ & Hm).
  split; [exact Hm|]. split; [|split].
  - intros k dk p He.
    destruct (proj1 methods_segment _ _ _ _ He) as (newer & older & Hs).
    cbn [fst snd] in Hs. exists newer, older. split.
    + rewrite Hs, methods_obj, <- !app_assoc. reflexivity.
    + intros k' dk' p' He'.
      destruct (proj1 (proj2 methods_segment) _ _ _ _ He') as (l1 & l2 & Hs').
      cbn [fst snd] in Hs'. rewrite Hs', methods_obj.
      exists l1, (methods_items dk' (S k') ++ l2).
      rewrite <- !app_assoc. reflexivity.
  - intros attr m Hin. destruct (assoc_bound _ _ _ Hin) as (m' & Ha & Hin').
    exists m'. split; [|exact Hin']. rewrite Hm. apply assoc_app_l, Ha.
  - apply (constructed_methods c None w g w' None Hi eq_refl).
Qed.

Lemma methods_of_construction_witness :
  exists g w',
    Group_init example_grouping None empty_world = Ok (g, w') /\
    node_methods w' = methods example_grouping g ++ node_methods empty_world.
Proof.
  destruct (methods_of_construction example_grouping empty_world eq_refl)
    as (g & w' & Hi & Hm & _).
  exists g, w'. split; [exact Hi|exact Hm].
Defined.

(** ** C7: [begin_site] *)

Lemma assoc_assign key v d : assoc key (assign key v d) = Some v.
Proof.
  induction d as [|[k x] rest IH]; simpl.
  - rewrite String.eqb_refl. reflexivity.
  - destruct (String.eqb k key) eqn:E; simpl; rewrite E; auto.
Qed.

Lemma assoc_None_notin {A : Type} key (d : list (string * A)) v :
  assoc key d = None -> ~ In (key, v) d.
Proof.
  induction d as [|[k x] rest IH]; simpl; [tauto|].
  destruct (String.eqb_spec k key) as [->|Hne]; [discriminate|].
  intros H [[= E _]|Hin]; [contradiction|]. exact (IH H Hin).
Qed.

Lemma distinct_keys_assoc key (d : list (string * value)) :
  forallb (fun kv => negb (String.eqb (fst kv) key)) d = true -> assoc key d = None.
Proof.
  induction d as [|[k x] rest IH]; simpl; [reflexivity|].
  intros H. apply andb_prop in H as [Hk H].
  destruct (String.eqb k key); [discriminate|]. auto.
Qed.

Lemma begin_site_loop_spec items : forall reg w items' reg' w',
  begin_site_loop items reg w = Ok (items', reg', w') ->
  items' = named items /\
  (exists tl, heap w' = heap w ++ tl) /\
  (forall key, assoc key items = None -> reg' !! key = reg !! key) /\
  (distinct_keys items = true ->
   forall key spec, In (key, spec) items ->
     exists g wa wb,
       reg' !! key = Some g /\
       Group_init (with_name key spec) None wa = Ok (g, wb) /\
       length (heap w) <= g /\
       exists tl, heap w' = heap wb ++ tl).
Proof.
  induction items as [|[key spec] rest IH]; intros reg w items' reg' w' H.
  - injection H as <- <- <-. split; [reflexivity|]. split; [exists []; symmetry; apply app_nil_r|].
    split; [reflexivity|]. intros _ key spec [].
  - destruct spec as [| | |d]; try discriminate.
    rewrite begin_site_loop_cons in H.
    bind_inv H. destruct a as [g w1].
    bind_inv H. destruct a as [[rest' reg1] w2]. injection H as <- <- <-.
    destruct (IH _ _ _ _ _ E0) as (-> & [tl Htl] & Hframe & Hin).
    destruct (proj1 construction_heap _ _ _ _ _ _ E eq_refl) as (-> & Hh & _).
    split; [reflexivity|]. split.
    { exists (build (with_name key (VObj d)) (length (heap w)) None ++ tl).
      rewrite Htl, Hh, app_assoc. reflexivity. }
    split.
    { intros k Hk. simpl in Hk.
      destruct (String.eqb_spec key k) as [->|Hne]; [discriminate|].
      rewrite (Hframe k Hk). apply lookup_insert_ne, Hne. }
    intros Hd k spec Hks. simpl in Hd. apply andb_prop in Hd as [Hfresh Hd].
    destruct Hks as [[= <- <-]|Hks].
    + exists (length (heap w)), w, w1. split; [|split; [exact E|split; [lia|eauto]]].
      rewrite (Hframe key (distinct_keys_assoc _ _ Hfresh)).
      apply lookup_insert_eq.
    + destruct (Hin Hd k spec Hks) as (g & wa & wb & Hr & Hi & Hle & Hp).
      exists g, wa, wb. split; [exact Hr|]. split; [exact Hi|]. split; [|exact Hp].
      rewrite Hh, length_app in Hle. lia.
Qed.

Lemma begin_site_loop_total items : forall reg w,
  (forall key spec, In (key, spec) items -> wf (with_name key spec) = true) ->
  exists items' reg' w', begin_site_loop items reg w = Ok (items', reg', w').
Proof.
  induction items as [|[key spec] rest IH]; intros reg w Hwf; [simpl; eauto|].
  pose proof (Hwf key spec (or_introl eq_refl)) as Hs.
  destruct spec as [| | |d]; try discriminate.
  destruct (proj1 construction_total _ None w None Hs eq_refl) as (g & w1 & Hi).
  rewrite begin_site_loop_cons, Hi. simpl.
  destruct (IH (<[key := g]> reg) w1) as (items' & reg' & w' & Hl).
  { intros k s Hks. apply Hwf. right. exact Hks. }
  rewrite Hl. simpl. eauto.
Qed.

Lemma name_untouched d : forall base cur,
  forallb (fun kv => negb (String.eqb (fst kv) "name")) d = true ->
  name (apply_items base cur d) = name cur.
Proof.
  induction d as [|[key v] rest IH]; intros base cur H; [reflexivity|].
  rewrite apply_items_cons. simpl in H. apply andb_prop in H as [Hk H].
  rewrite IH by exact H. unfold apply_item, setattr.
  destruct (String.eqb key "name"); [discriminate|].
  destruct (String.eqb key "groups"); [destruct v; reflexivity|].
  repeat (match goal with |- context [if ?b then _ else _] => destruct b end);
    reflexivity.
Qed.

Lemma name_assigned d : forall base cur v,
  assoc "name" d = Some v -> distinct_keys d = true ->
  name (apply_items base cur d) = v.
Proof.
  induction d as [|[key x] rest IH]; intros base cur v H Hd; [discriminate|].
  rewrite apply_items_cons. simpl in H, Hd. apply andb_prop in Hd as [Hk Hd].
  destruct (String.eqb key "name") eqn:Ek.
  - injection H as ->. apply String.eqb_eq in Ek. subst key.
    rewrite name_untouched by exact Hk. reflexivity.
  - apply IH; assumption.
Qed.

Lemma constructed_below c w g w' :
  Group_init c None w = Ok (g, w') ->
  g = length (heap w) /\ g < length (heap w') /\
  exists tl, heap w' = heap w ++ tl.
Proof.
  intros H.
  destruct (proj1 construction_heap _ _ _ _ _ _ H eq_refl) as (-> & Hh & _).
  split; [reflexivity|]. split; [|eauto].
  rewrite Hh, length_app, (proj1 build_length).
  destruct c as [| | |d]; try discriminate.
  change (count (VObj d)) with (S (count_items d)). lia.
Qed.

Lemma begin_site_loop_fresh items reg w items' reg' w' :
  begin_site_loop items reg w = Ok (items', reg', w') ->
  distinct_keys items = true ->
  forall key spec, In (key, spec) items ->
    exists g o d,
      reg' !! key = Some g /\ length (heap w) <= g /\ g < length (heap w') /\
      heap w' !! g = Some o /\ with_name key spec = VObj d /\
      name o = final_name d.
Proof.
  intros H Hd key spec Hin.
  destruct (begin_site_loop_spec _ _ _ _ _ _ H) as (_ & _ & _ & Hall).
  destruct (Hall Hd key spec Hin) as (g & wa & wb & Hr & Hi & Hle & tl & Htl).
  destruct (constructed_below _ _ _ _ Hi) as (Hg & Hlt & _).
  destruct (proj1 construction_heap _ _ _ _ _ _ Hi eq_refl) as (_ & Hh & _).
  destruct (with_name key spec) as [| | |d] eqn:Ec; try discriminate.
  rewrite build_obj in Hh.
  exists g, (apply_items (S g) (initial g d None) d), d.
  split; [exact Hr|]. split; [exact Hle|]. split.
  { rewrite Htl, length_app. lia. }
  split; [|split; [reflexivity|apply name_final]].
  rewrite Htl. apply lookup_app_l_Some. rewrite Hh.
  apply list_lookup_middle. exact Hg.
Qed.

Lemma assoc_assign_other key k v d :
  k <> key -> assoc k (assign key v d) = assoc k d.
Proof.
  intros Hne. induction d as [|[k' x] rest IH]; simpl.
  - destruct (String.eqb_spec key k) as [->|_]; [contradiction|reflexivity].
  - destruct (String.eqb_spec k' key) as [->|Hk]; simpl.
    + destruct (String.eqb_spec key k) as [->|_]; [contradiction|reflexivity].
    + rewrite IH. reflexivity.
Qed.

Lemma forallb_assign (p : string -> bool) key v d :
  p key = true ->
  forallb (fun kv => p (fst kv)) (assign key v d) = forallb (fun kv => p (fst kv)) d.
Proof.
  intros Hp. induction d as [|[k x] rest IH]; simpl.
  - rewrite Hp. reflexivity.
  - destruct (String.eqb k key); simpl; [reflexivity|]. rewrite IH. reflexivity.
Qed.

Lemma distinct_keys_assign key v d :
  distinct_keys (assign key v d) = distinct_keys d.
Proof.
  induction d as [|[k x] rest IH]; [reflexivity|]. simpl.
  destruct (String.eqb_spec k key) as [->|Hne]; [reflexivity|]. simpl.
  rewrite IH. f_equal.
  apply (forallb_assign (fun k' => negb (String.eqb k' k))).
  destruct (String.eqb_spec key k) as [->|_]; [contradiction|reflexivity].
Qed.

(** A loop that returns has met attribute objects only. *)
Lemma begin_site_loop_objects items : forall reg w r,
  begin_site_loop items reg w = Ok r ->
  forall key spec, In (key, spec) items -> exists d, spec = VObj d.
Proof.
  induction items as [|[k s] rest IH]; intros reg w r H key spec Hin; [destruct Hin|].
  destruct s as [| | |d]; try discriminate.
  rewrite begin_site_loop_cons in H.
  bind_inv H. destruct a as [g w1]. bind_inv H.
  destruct Hin as [[= <- <-]|Hin]; [eauto|].
  apply (IH _ _ _ E0 key spec Hin).
Qed.

Lemma named_keys items : (named items).*1 = items.*1.
Proof.
  induction items as [|[k s] rest IH]; [reflexivity|].
  change (named ((k, s) :: rest)) with ((k, with_name k s) :: named rest).
  rewrite !fmap_cons, IH. reflexivity.
Qed.

(** C7. [begin_site] changes nothing when the site configuration has no
    [grouper] attribute.  When it has one, [begin_site] leaves [site.grouper]
    defined; the configuration then holds, under the same keys in the same
    order, groupings whose [name] is their key and whose other fields are
    what they were; for every entry [(key, spec)] the registry holds under
    [key] the group that a construction [Group(spec)] without parent has
    just returned, a group that did not exist before and whose [name] is
    the key; and under every key that is not in the configuration the
    registry holds what it held before (nothing, when the registry was
    absent).  On a configuration whose groupings are well formed
    [begin_site] returns. *)
Theorem begin_site_fills_registry (site : Site) (w : world) :
  (getattr (config site) "grouper" = None -> begin_site site w = Ok (site, w)) /\
  (forall items site' w',
     getattr (config site) "grouper" = Some (VObj items) ->
     begin_site site w = Ok (site', w') ->
     exists reg',
       grouper site' = Some reg' /\
       getattr (config site') "grouper" = Some (VObj (named items)) /\
       (exists items',
          getattr (config site') "grouper" = Some (VObj items') /\
          (items'.*1) = (items.*1) /\
          forall key spec, In (key, spec) items ->
            exists spec',
              In (key, spec') items' /\
              getattr spec' "name" = Some (VStr key) /\
              forall k, k <> "name" -> getattr spec' k = getattr spec k) /\
       (forall key, assoc key items = None ->
          reg' !! key = default ∅ (grouper site) !! key) /\
       (distinct_keys items = true ->
        forall key spec, In (key, spec) items ->
          exists g wa wb,
            reg' !! key = Some g /\
            Group_init (with_name key spec) None wa = Ok (g, wb) /\
            length (heap w) <= g /\
            (exists tl, heap w' = heap wb ++ tl) /\
            getattr (with_name key spec) "name" = Some (VStr key) /\
            exists o,
              heap w' !! g = Some o /\
              forall d, spec = VObj d -> distinct_keys d = true ->
                name o = VStr key)) /\
  (forall items,
     getattr (config site) "grouper" = Some (VObj items) ->
     (forall key spec, In (key, spec) items -> wf (with_name key spec) = true) ->
     exists site' w', begin_site site w = Ok (site', w')).
Proof.
  split; [|split].
  - intros H. unfold begin_site. rewrite H. reflexivity.
  - intros items site' w' Hg H. unfold begin_site in H. rewrite Hg in H.
    bind_inv H. destruct a as [[items' reg'] w1].
    destruct (config site) as [| | |d] eqn:Ec; try discriminate.
    injection H as <- <-. simpl.
    destruct (begin_site_loop_spec _ _ _ _ _ _ E) as (-> & _ & Hframe & Hin).
    pose proof (begin_site_loop_objects _ _ _ _ E) as Hobj.
    assert (Hname : forall key spec, In (key, spec) items ->
              getattr (with_name key spec) "name" = Some (VStr key) /\
              forall k, k <> "name" ->
                getattr (with_name key spec) k = getattr spec k).
    { intros key spec Hks. destruct (Hobj key spec Hks) as [ds ->]. simpl.
      split; [apply assoc_assign|]. intros k Hk. apply assoc_assign_other, Hk. }
    exists reg'. split; [reflexivity|]. split; [apply assoc_assign|].
    split; [|split; [exact Hframe|]].
    + exists (named items). split; [apply assoc_assign|].
      split; [apply named_keys|].
      intros key spec Hks. exists (with_name key spec).
      split; [|apply Hname, Hks].
      unfold named. apply in_map_iff. exists (key, spec). auto.
    + intros Hd key spec Hks.
      destruct (Hin Hd key spec Hks) as (g & wa & wb & Hr & Hi & Hle & Htl).
      destruct (begin_site_loop_fresh _ _ _ _ _ _ E Hd key spec Hks)
        as (g' & o & d' & Hr' & _ & _ & Ho & Hc & Hn).
      rewrite Hr in Hr'. injection Hr' as <-.
      exists g, wa, wb. split; [exact Hr|]. split; [exact Hi|].
      split; [exact Hle|]. split; [exact Htl|].
      split; [apply Hname, Hks|].
      exists o. split; [exact Ho|].
      intros ds -> Hds. simpl in Hc. injection Hc as <-. rewrite Hn.
      unfold final_name. apply name_assigned; [apply assoc_assign|].
      rewrite distinct_keys_assign. exact Hds.
  - intros items Hg Hwf. unfold begin_site. rewrite Hg.
    destruct (begin_site_loop_total items (default ∅ (grouper site)) w Hwf)
      as (items' & reg' & w' & Hl).
    rewrite Hl. simpl.
    destruct (config site) as [| | |d]; try discriminate. eauto.
Qed.

Lemma begin_site_fills_registry_witness :
  exists site' w' items' spec',
    begin_site example_site empty_world = Ok (site', w') /\
    getattr (config site') "grouper" = Some (VObj items') /\
    In ("topics", spec') items' /\
    getattr spec' "name" = Some (VStr "topics").
Proof.
  destruct (proj2 (proj2 (begin_site_fills_registry example_site empty_world))
              [("topics",
                VObj [("groups",
                       VList [VObj [("name", VStr "a")];
                              VObj [("name", VStr "b")]])])]
              eq_refl) as (site' & w' & Hb).
  { intros key spec [[= <- <-]|[]]. reflexivity. }
  destruct (proj1 (proj2 (begin_site_fills_registry example_site empty_world))
              _ site' w' eq_refl Hb)
    as (reg' & _ & _ & (items' & Hc & _ & Hall) & _).
  destruct (Hall "topics" _ (or_introl eq_refl)) as (spec' & Hin & Hn & _).
  exists site', w', items', spec'. auto.
Defined.

(** ** C8: the example *)

Lemma example_begin_site :
  begin_site example_site empty_world = Ok example_site_world.
Proof. vm_compute. reflexivity. Qed.

Lemma example_heap_built : heap (snd example_site_world) = example_heap.
Proof. reflexivity. Qed.

Lemma example_list_resources (node : Node) (k : gid) (o : Group) :
  example_heap !! k = Some o ->
  list_resources example_heap k node
  = Ok (List.filter (in_group example_heap o) (Node_walk_resources node)).
Proof.
  intros Ho. unfold list_resources, deref. rewrite Ho. simpl.
  assert (Hs : sorter o = VNone /\ root_name example_heap o = Some (VStr "topics")).
  { destruct k as [|[|[|k]]]; simpl in Ho; try discriminate;
      injection Ho as <-; split; reflexivity. }
  destruct Hs as [Hs Hr]. unfold choose_walker. rewrite Hs. simpl.
  apply scan_filter. intros v Hv. rewrite Hr in Hv. injection Hv as <-. reflexivity.
Qed.

Lemma example_in_group (k : gid) (o : Group) (r : Resource) m x :
  example_heap !! k = Some o ->
  meta r = Some m -> assoc "topics" m = Some x ->
  in_group example_heap o r = py_eq x (name o).
Proof.
  intros Ho Hm Hx. unfold in_group.
  assert (Hr : root_name example_heap o = Some (VStr "topics")).
  { destruct k as [|[|[|k]]]; simpl in Ho; try discriminate;
      injection Ho as <-; reflexivity. }
  rewrite Hr, Hm, Hx. reflexivity.
Qed.

Lemma example_lists (ra rb : Resource) ma mb (node : Node) :
  meta ra = Some ma -> assoc "topics" ma = Some (VStr "a") ->
  meta rb = Some mb -> assoc "topics" mb = Some (VStr "b") ->
  Node_walk_resources node = [ra; rb] \/ Node_walk_resources node = [rb; ra] ->
  list_resources example_heap 0 node = Ok [] /\
  list_resources example_heap 1 node = Ok [ra] /\
  list_resources example_heap 2 node = Ok [rb].
Proof.
  intros Hma Ha Hmb Hb Hnode.
  rewrite (example_list_resources node 0 example_root eq_refl).
  rewrite (example_list_resources node 1 example_a eq_refl).
  rewrite (example_list_resources node 2 example_b eq_refl).
  destruct Hnode as [-> | ->]; simpl;
    rewrite (example_in_group 0 example_root ra ma _ eq_refl Hma Ha),
      (example_in_group 0 example_root rb mb _ eq_refl Hmb Hb),
      (example_in_group 1 example_a ra ma _ eq_refl Hma Ha),
      (example_in_group 1 example_a rb mb _ eq_refl Hmb Hb),
      (example_in_group 2 example_b ra ma _ eq_refl Hma Ha),
      (example_in_group 2 example_b rb mb _ eq_refl Hmb Hb);
    simpl; auto.
Qed.

(** C8. With the configuration [grouper: {topics: {groups: [{name: a},
    {name: b}]}}] and a node that holds two resources, one with
    [meta.topics = "a"] and one with [meta.topics = "b"], in either order:
    [node.walk_resources_grouped_by_topics()] yields the two resources, the
    one of [a] first, and [node.walk_topics_groups()] yields the group named
    [a] and then the group named [b]; the root group [topics], which the
    registry holds, is not among them. *)
Theorem topics_example (ra rb : Resource) (ma mb : list (string * value)) (node : Node) :
  meta ra = Some ma -> assoc "topics" ma = Some (VStr "a") ->
  meta rb = Some mb -> assoc "topics" mb = Some (VStr "b") ->
  Node_walk_resources node = [ra; rb] \/ Node_walk_resources node = [rb; ra] ->
  exists site' w' reg groot ga gb oroot oa ob,
    begin_site example_site empty_world = Ok (site', w') /\
    call_method w' node "walk_resources_grouped_by_topics" = Ok (Resources [ra; rb]) /\
    call_method w' node "walk_topics_groups" = Ok (Groups [ga; gb]) /\
    heap w' !! ga = Some oa /\ name oa = VStr "a" /\
    heap w' !! gb = Some ob /\ name ob = VStr "b" /\
    grouper site' = Some reg /\ reg !! "topics" = Some groot /\
    heap w' !! groot = Some oroot /\ name oroot = VStr "topics" /\
    groups oroot = [ga; gb] /\ groot <> ga /\ groot <> gb.
Proof.
  intros Hma Ha Hmb Hb Hnode.
  destruct (example_lists ra rb ma mb node Hma Ha Hmb Hb Hnode) as (H0 & H1 & H2).
  exists (fst example_site_world), (snd example_site_world).
  eexists _, 0, 1, 2, example_root, example_a, example_b.
  split; [exact example_begin_site|].
  split; [|split].
  - unfold call_method. simpl assoc. unfold walk_resources.
    rewrite example_heap_built.
    change (walk_groups example_heap 0) with (@Ok (list nat) [0; 1; 2]).
    simpl. rewrite H0, H1, H2. reflexivity.
  - destruct (list_resources_first _ _ _ _ H0) as (o0 & t0 & _ & _ & N0).
    destruct (list_resources_first _ _ _ _ H1)
      as (o1 & t1 & _ & _ & (s1 & rest1 & _ & N1 & _)).
    destruct (list_resources_first _ _ _ _ H2)
      as (o2 & t2 & _ & _ & (s2 & rest2 & _ & N2 & _)).
    unfold call_method. simpl assoc. unfold walk_groups_in_node.
    rewrite example_heap_built.
    change (walk_groups example_heap 0) with (@Ok (list nat) [0; 1; 2]).
    simpl. rewrite N0, N1, N2. reflexivity.
  - repeat split; try reflexivity; discriminate.
Qed.

Lemma topics_example_witness :
  exists site' w',
    begin_site example_site empty_world = Ok (site', w') /\
    call_method w' {| Node_walk_resources := [example_rb; example_ra];
                      Node_walkers := [] |}
      "walk_resources_grouped_by_topics"
    = Ok (Resources [example_ra; example_rb]).
Proof.
  destruct (topics_example example_ra example_rb
              [("topics", VStr "a")] [("topics", VStr "b")]
              {| Node_walk_resources := [example_rb; example_ra];
                 Node_walkers := [] |}
              eq_refl eq_refl eq_refl eq_refl (or_intror eq_refl))
    as (site' & w' & reg & groot & ga & gb & oroot & oa & ob & Hb & Hr & _).
  exists site', w'. split; [exact Hb|exact Hr].
Defined.

(** ** C5: sorter inheritance *)

(** C5, at [nested_sorter_grouping].  The group [leaf] (object 2) is built
    from a grouping without sorter, its parent is [mid] (object 1), and
    [mid] ends up with its own sorter [m]; yet [leaf] ends up with the
    sorter [r] of the root, because [mid] builds its groups before its own
    [sorter] field is copied: the sorters of the tree are not resolved as
    the specification words it.  When the dictionary of [mid] iterates
    [sorter] first, [leaf] gets [m] and they are. *)
Theorem sorter_of_grandchild :
  wf nested_sorter_grouping = true /\
  parent_at nested_sorter_grouping 2 = Some (SRef 1) /\
  sorter_at nested_sorter_grouping 1 = Some (VStr "m") /\
  sorter_at nested_sorter_grouping 2 = Some (VStr "r") /\
  ~ sorters_resolved nested_sorter_grouping empty_world /\
  sorter_at nested_sorter_grouping' 1 = Some (VStr "m") /\
  sorter_at nested_sorter_grouping' 2 = Some (VStr "m") /\
  sorters_resolved nested_sorter_grouping' empty_world.
Proof.
  split; [reflexivity|]. split; [reflexivity|]. split; [reflexivity|].
  split; [reflexivity|]. split.
  { intros (g & w' & Hi & Hall).
    vm_compute in Hi. injection Hi as <- <-.
    specialize (Hall 2 [("name", VStr "leaf")] (Some 1)
                  {| name := VStr "leaf"; parent := SRef 1; root := SRef 0;
                     groups := []; sorter := VStr "r"; fields := [] |}).
    simpl in Hall. destruct Hall as (po & Hpo & Hs).
    - right. right. left.
    - reflexivity.
    - injection Hpo as <-. discriminate Hs. }
  split; [reflexivity|]. split; [reflexivity|].
  eexists _, _. split; [vm_compute; reflexivity|].
  intros k dk p o Hin Ho. simpl in Hin.
  repeat (apply elem_of_cons in Hin as [Hin|Hin]);
    try (apply elem_of_nil in Hin as []);
    injection Hin as -> -> ->; simpl in Ho; injection Ho as <-; simpl; eauto.
Qed.

(** X15. What does hold of the sorter of every group of a constructed
    tree: a group whose grouping has a [sorter] field ends up with that
    sorter, whatever the sorter of its parent is and whatever the order of
    the fields. *)
Lemma own_sorter_wins (c : value) (w : world) (g : gid) (w' : world) :
  wf c = true -> Group_init c None w = Ok (g, w') ->
  forall k dk p v, (k, VObj dk, p) ∈ subtrees c g None ->
    assoc "sorter" dk = Some v ->
    exists o, heap w' !! k = Some o /\ sorter o = v.
Proof.
  intros Hwf Hi k dk p v He Hv.
  destruct (constructed_tree c None w g w' None Hwf Hi eq_refl) as [_ Hall].
  destruct (Hall k (VObj dk) p He) as ((o & Ho & Hb) & _ & Hck & _).
  exists o. split; [exact Ho|].
  destruct Hb as (d & [= <-] & _ & _ & _ & Hs).
  apply wf_inv in Hck as (d' & [= <-] & Hd & _). apply Hs; assumption.
Qed.

Lemma own_sorter_wins_witness :
  exists o, heap nested_sorter_world !! 1 = Some o /\ sorter o = VStr "m".
Proof.
  apply (own_sorter_wins nested_sorter_grouping empty_world 0 nested_sorter_world
           eq_refl eq_refl
           1 [("name", VStr "mid");
              ("groups", VList [VObj [("name", VStr "leaf")]]);
              ("sorter", VStr "m")] (Some 0) (VStr "m")).
  - right. left.
  - reflexivity.
Defined.

(** ** C9: parent and root links *)

(** Without [root] fields, every object of a tree holds in [root] what the
    root of the tree holds. *)
Lemma build_roots :
  (forall c self po, no_reserved c = true ->
      Forall (fun o => root o = root_at self po) (build c self po)) /\
  (forall d self base cur,
      forallb plain_key d = true -> no_reserved_items d = true ->
      Forall (fun o => root o = root cur) (build_items self d base cur)) /\
  (forall gs po base, forallb no_reserved gs = true ->
      Forall (fun o => root o = root po.2) (build_list po gs base)).
Proof.
  apply value_ind3; try (intros; constructor).
  - rewrite no_reserved_obj in H0. apply andb_prop in H0 as [Hk Hi].
    rewrite root_apply_items by exact Hk. destruct po as [[p o]|]; reflexivity.
  - rewrite no_reserved_obj in H0. apply andb_prop in H0 as [Hk Hi].
    replace (root_at self po) with (root (initial self d po))
      by (destruct po as [[p o]|]; reflexivity).
    apply H; assumption.
  - intros key v rest _ IHv IH self base cur Hk Hi.
    simpl in Hk. apply andb_prop in Hk as [Hkv Hk].
    rewrite no_reserved_items_cons in Hi. apply andb_prop in Hi as [Hv Hi].
    rewrite build_items_cons. apply Forall_app. split.
    + unfold build_item, build_item_with, no_reserved_item, no_reserved_item_with in *.
      destruct (String.eqb key "groups"); [|constructor].
      destruct v; try constructor. apply (IHv _ eq_refl (self, cur) base Hv).
    + rewrite <- (root_apply_item base key v cur Hkv). apply IH; assumption.
  - intros g gs IHg IH po base H. simpl in H. apply andb_prop in H as [Hg H].
    rewrite build_list_cons. apply Forall_app. split.
    + destruct po as [p o]. apply (IHg base (Some (p, o)) Hg).
    + apply IH, H.
Qed.

(** The groups that a group builds are objects whose [parent] is the group. *)
Lemma children_heads gs : forall po base child,
  forallb wf gs = true -> forallb no_reserved gs = true ->
  In child (child_ids base gs) ->
  exists oc, build_list po gs base !! (child - base) = Some oc /\
             parent oc = SRef po.1 /\ base <= child.
Proof.
  induction gs as [|g gs IH]; intros po base child Hwf Hn Hin; [destruct Hin|].
  simpl in Hwf, Hn. apply andb_prop in Hwf as [Hg Hwf]. apply andb_prop in Hn as [Hng Hn].
  rewrite build_list_cons. destruct Hin as [<-|Hin].
  - apply wf_inv in Hg as (dg & -> & _).
    rewrite no_reserved_obj in Hng. apply andb_prop in Hng as [Hk _].
    rewrite Nat.sub_diag, build_obj. simpl. eexists. split; [reflexivity|].
    split; [|lia]. rewrite parent_apply_items by (apply plain_keys_no_parent, Hk).
    destruct po; reflexivity.
  - destruct (IH po (base + count g) child Hwf Hn Hin) as (oc & Hl & Hp & Hle).
    exists oc. split; [|split; [exact Hp|lia]].
    rewrite lookup_app_r by (rewrite (proj1 build_length); lia).
    rewrite (proj1 build_length). rewrite <- Hl. f_equal. lia.
Qed.

Lemma children_heads_items d : forall self base cur child,
  wf_items d = true -> no_reserved_items d = true ->
  In child (ids_items d base) ->
  exists oc, build_items self d base cur !! (child - base) = Some oc /\
             parent oc = SRef self /\ base <= child.
Proof.
  induction d as [|[key v] rest IH]; intros self base cur child Hwf Hn Hin;
    [destruct Hin|].
  rewrite wf_items_cons in Hwf. apply andb_prop in Hwf as [Hv Hwf].
  rewrite no_reserved_items_cons in Hn. apply andb_prop in Hn as [Hnv Hn].
  rewrite build_items_cons. simpl in Hin. apply in_app_or in Hin.
  assert (Hlen : length (build_item self key v base cur) = count_item key v).
  { unfold build_item, build_item_with, count_item, count_item_with.
    destruct (String.eqb key "groups"); [|reflexivity].
    destruct v; try reflexivity. apply build_length. }
  destruct Hin as [Hin|Hin].
  - unfold ids_item, build_item, build_item_with, wf_item, wf_item_with,
      no_reserved_item, no_reserved_item_with in *.
    destruct (String.eqb key "groups"); [|destruct Hin].
    destruct v as [| |gs|]; try discriminate.
    destruct (children_heads gs (self, cur) base child Hv Hnv Hin) as (oc & Hl & Hp & Hle).
    exists oc. split; [|split; [exact Hp|exact Hle]].
    apply lookup_app_l_Some. exact Hl.
  - destruct (IH self (base + count_item key v) (apply_item base key v cur) child
                Hwf Hn Hin) as (oc & Hl & Hp & Hle).
    exists oc. split; [|split; [exact Hp|lia]].
    rewrite lookup_app_r by lia. rewrite Hlen, <- Hl. f_equal. lia.
Qed.

Lemma follow_parents_more fuel : forall fuel' h k r,
  follow_parents fuel h k = Some r -> fuel <= fuel' ->
  follow_parents fuel' h k = Some r.
Proof.
  induction fuel as [|fuel IH]; intros fuel' h k r H Hle; [discriminate|].
  destruct fuel' as [|fuel']; [lia|]. simpl in *.
  destruct (h !! k) as [o|]; [|discriminate].
  destruct (parent o); [|exact H]. apply IH; [exact H|lia].
Qed.

(** C9, as amended.  In the tree constructed from a well-formed grouping
    none of whose groupings has a field named [parent] or [root]: the root
    has no parent; every group [k] of the tree holds in [root] a reference
    to the root of the tree, so that [root.name] is the name of the root
    for every group; it holds in [parent] a reference to the group that
    constructed it; following the [parent] references from [k] ends at the
    root; and every entry of [k.groups] is a [Group] object of the store
    whose [parent] is [k]. *)
Theorem tree_links (c : value) (w : world) :
  wf c = true -> no_reserved c = true -> tree_linked c w.
Proof.
  intros Hwf Hn. unfold tree_linked.
  destruct (proj1 construction_total c None w None Hwf eq_refl) as (g & w' & Hi).
  destruct (proj1 construction_heap _ _ _ _ _ _ Hi eq_refl) as (Hg & Hh & _).
  assert (Hobj : forall k ck p, (k, ck, p) ∈ subtrees c g None ->
            exists o dk,
              ck = VObj dk /\ heap w' !! k = Some o /\ root o = SRef g /\
              parent o = parent_slot p /\
              forall child, In child (groups o) ->
                exists oc, heap w' !! child = Some oc /\ parent oc = SRef k).
  { intros k ck p He.
    destruct (proj1 subtrees_wf _ _ _ _ Hwf He) as (Hck & Hlo & Hhi).
    pose proof (proj1 subtrees_no_reserved _ _ _ _ Hn He) as Hnk.
    destruct (proj1 build_segment c g None _ He) as (pre & post & po' & Hb & Hl & Hp).
    cbn [fst snd] in *.
    apply wf_inv in Hck as Hd. destruct Hd as (dk & -> & Hdist & _ & Hwfi).
    rewrite no_reserved_obj in Hnk. apply andb_prop in Hnk as [Hkeys Hni].
    assert (Hk : heap w' !! k = Some (apply_items (S k) (initial k dk po') dk)).
    { rewrite Hh, Hb, build_obj, app_assoc. apply list_lookup_middle.
      rewrite length_app. lia. }
    exists (apply_items (S k) (initial k dk po') dk), dk.
    split; [reflexivity|]. split; [exact Hk|]. split; [|split].
    - pose proof (proj1 build_roots c g None Hn) as Hroots.
      rewrite Forall_lookup in Hroots. apply (Hroots (k - g)).
      rewrite Hh in Hk. rewrite lookup_app_r in Hk by lia.
      replace (k - g) with (k - length (heap w)) by lia. exact Hk.
    - rewrite parent_apply_items by (apply plain_keys_no_parent, Hkeys).
      rewrite <- Hp. destruct po' as [[? ?]|]; reflexivity.
    - intros child Hc.
      rewrite groups_apply_items in Hc by (auto; reflexivity).
      destruct (children_heads_items dk k (S k) (initial k dk po') child Hwfi Hni Hc)
        as (oc & Hl' & Hpc & Hle).
      exists oc. split; [|exact Hpc].
      rewrite Hh, Hb, build_obj, app_assoc.
      rewrite lookup_app_r by (rewrite length_app; lia).
      rewrite length_app.
      replace (child - (length (heap w) + length pre)) with (S (child - S k)) by lia.
      simpl. apply lookup_app_l_Some. exact Hl'. }
  assert (Hroot : (g, c, None) ∈ subtrees c g None).
  { apply wf_inv in Hwf as (d & -> & _). rewrite subtrees_obj. left. }
  destruct (Hobj g c None Hroot) as (oroot & droot & _ & Horoot & _ & Hproot & _).
  exists g, w', oroot. split; [exact Hi|]. split; [exact Horoot|].
  split; [exact Hproot|].
  assert (Hfollow : forall n k ck p, k < n -> (k, ck, p) ∈ subtrees c g None ->
            follow_parents (S k) (heap w') k = Some g).
  { induction n as [|n IHn]; intros k ck p Hlt He; [lia|].
    destruct (Hobj k ck p He) as (o & dk & _ & Ho & _ & Hpar & _).
    simpl. rewrite Ho, Hpar.
    destruct (proj1 subtrees_parents _ _ _ _ He)
      as [[Hk Hp]|(pk & cpk & pp & Hp & Hpk & Hin)]; cbn [fst snd] in *.
    - subst p k. reflexivity.
    - subst p. simpl.
      apply (follow_parents_more (S pk)); [|lia].
      apply (IHn pk cpk pp); [lia|exact Hin]. }
  intros k ck p He.
  destruct (Hobj k ck p He) as (o & dk & _ & Ho & Hr & Hpar & Hch).
  exists o. split; [exact Ho|]. split; [exact Hr|]. split.
  { unfold root_name. rewrite Hr, Horoot. reflexivity. }
  split; [exact Hpar|]. split.
  { intros ->.
    destruct (proj1 subtrees_parents _ _ _ _ He)
      as [[Hk _]|(pk & cpk & pp & Hp & _)]; cbn [fst snd] in *;
      [exact Hk|discriminate]. }
  split; [|exact Hch].
  apply (Hfollow (S k) k ck p); [lia|exact He].
Qed.

Lemma tree_links_witness :
  exists g w',
    Group_init example_grouping None empty_world = Ok (g, w') /\
    follow_parents 3 (heap w') 2 = Some g.
Proof.
  destruct (tree_links example_grouping empty_world eq_refl eq_refl)
    as (g & w' & oroot & Hi & _ & _ & Hall).
  exists g, w'. split; [exact Hi|].
  assert (Hg : g = 0).
  { pose proof Hi as Hi'. vm_compute in Hi'. injection Hi' as <- _. reflexivity. }
  subst g.
  destruct (Hall 2 (VObj [("name", VStr "b")]) (Some 0)) as (o & _ & _ & _ & _ & _ & Hf & _).
  { right. right. left. }
  exact Hf.
Defined.

(** C9 as stated, for every constructed tree, fails: [reserved_grouping] is
    well formed, but in the tree constructed from it the [root] of the
    groups is the string [x], not the root of the tree (and the [parent] of
    the group [a] is the string [y]). *)
Lemma reserved_fields_break_links :
  wf reserved_grouping = true /\
  ~ tree_linked reserved_grouping empty_world /\
  parent_at reserved_grouping 1 = Some (SVal (VStr "y")) /\
  root_slot_at reserved_grouping 0 = Some (SVal (VStr "x")) /\
  root_slot_at reserved_grouping 1 = Some (SVal (VStr "x")).
Proof.
  split; [reflexivity|]. split; [|repeat split; reflexivity].
  intros (g & w' & oroot & Hi & _ & _ & Hall).
  vm_compute in Hi. injection Hi as <- <-.
  destruct (Hall 0 reserved_grouping None) as (o & Ho & Hr & _).
  { left. }
  vm_compute in Ho. injection Ho as <-. discriminate Hr.
Qed.

(** ** Sorter resolution when [sorter] is copied before [groups] *)

Lemma ordered_obj d :
  ordered (VObj d) = (sorter_before_groups d && ordered_items d).
Proof. reflexivity. Qed.

Lemma ordered_items_cons key v rest :
  ordered_items ((key, v) :: rest) = (ordered_item key v && ordered_items rest).
Proof. reflexivity. Qed.

Lemma sorter_apply_item base key v cur :
  sorter (apply_item base key v cur)
  = if String.eqb key "groups" then sorter cur
    else if String.eqb key "sorter" then v else sorter cur.
Proof.
  unfold apply_item, setattr.
  destruct (String.eqb key "groups") eqn:Eg; [destruct v; reflexivity|].
  destruct (String.eqb_spec key "name") as [->|_]; [reflexivity|].
  destruct (String.eqb_spec key "parent") as [->|_]; [reflexivity|].
  destruct (String.eqb_spec key "root") as [->|_]; [reflexivity|].
  destruct (String.eqb key "sorter"); reflexivity.
Qed.

Lemma no_key_assoc key (d : list (string * value)) :
  assoc key d = None ->
  forallb (fun kv => negb (String.eqb (fst kv) key)) d = true.
Proof.
  induction d as [|[k x] rest IH]; simpl; [reflexivity|].
  destruct (String.eqb k key); [discriminate|]. exact IH.
Qed.

(** Nothing is left to settle when no [groups] field remains. *)
Lemma settled_no_groups d : forall s fin,
  forallb (fun kv => negb (String.eqb (fst kv) "groups")) d = true ->
  settled s fin d.
Proof.
  induction d as [|[key v] rest IH]; intros s fin H; [exact I|].
  simpl in H |- *. apply andb_prop in H as [Hk H].
  destruct (String.eqb key "groups"); [discriminate|]. apply IH, H.
Qed.

Lemma settled_ordered d : forall base cur,
  distinct_keys d = true -> sorter_before_groups d = true ->
  settled (sorter cur) (sorter (apply_items base cur d)) d.
Proof.
  induction d as [|[key v] rest IH]; intros base cur Hd Ho; [exact I|].
  simpl in Hd, Ho. apply andb_prop in Hd as [Hk Hd]. apply andb_prop in Ho as [Hs Ho].
  rewrite apply_items_cons. simpl.
  destruct (String.eqb key "groups") eqn:Eg.
  - apply String.eqb_eq in Eg. subst key. split.
    + rewrite sorter_kept by exact Hs. rewrite sorter_apply_item. reflexivity.
    + apply settled_no_groups, Hk.
  - specialize (IH (base + count_item key v) (apply_item base key v cur) Hd Ho).
    rewrite sorter_apply_item, Eg in IH. exact IH.
Qed.

(** The sorter of a root is settled from the start: line 29 of [__init__]
    has read it from the grouping. *)
Lemma settled_same d : forall s,
  (forall v, In ("sorter", v) d -> v = s) -> settled s s d.
Proof.
  induction d as [|[key v] rest IH]; intros s H; [exact I|]. simpl.
  destruct (String.eqb key "groups"); [split; [reflexivity|]|].
  - apply IH. intros x Hx. apply H. right. exact Hx.
  - destruct (String.eqb_spec key "sorter") as [->|_].
    + rewrite (H v (or_introl eq_refl)). apply IH. intros x Hx. apply H. right. exact Hx.
    + apply IH. intros x Hx. apply H. right. exact Hx.
Qed.

Lemma distinct_assoc_In key (d : list (string * value)) v :
  distinct_keys d = true -> In (key, v) d -> assoc key d = Some v.
Proof.
  induction d as [|[k x] rest IH]; intros Hd Hin; [destruct Hin|].
  simpl in Hd. apply andb_prop in Hd as [Hk Hd]. simpl.
  destruct Hin as [[= -> ->]|Hin].
  - rewrite String.eqb_refl. reflexivity.
  - destruct (String.eqb_spec k key) as [->|_]; [|auto].
    exfalso. apply (assoc_None_notin key rest v); [|exact Hin].
    apply distinct_keys_assoc, Hk.
Qed.

Lemma final_sorter d base cur :
  distinct_keys d = true ->
  sorter (apply_items base cur d) = default (sorter cur) (assoc "sorter" d).
Proof.
  intros Hd. destruct (assoc "sorter" d) as [v|] eqn:E; simpl.
  - apply sorter_apply_items; assumption.
  - apply sorter_kept, no_key_assoc, E.
Qed.

Lemma resolved_in_subtrees :
  (forall c h self po pre post,
      wf c = true -> ordered c = true ->
      h = pre ++ build c self po ++ post -> length pre = self ->
      match po with
      | Some (pk, pcur) => exists pfin, h !! pk = Some pfin /\ sorter pfin = sorter pcur
      | None => True
      end ->
      forall e, e ∈ subtrees c self (fst <$> po) -> resolved_at h e) /\
  (forall d h self base cur pre post sfin,
      wf_items d = true -> ordered_items d = true ->
      h = pre ++ build_items self d base cur ++ post -> length pre = base ->
      h !! self = Some sfin -> settled (sorter cur) (sorter sfin) d ->
      forall e, e ∈ subtrees_items self d base -> resolved_at h e) /\
  (forall gs h po base pre post pfin,
      forallb wf gs = true -> forallb ordered gs = true ->
      h = pre ++ build_list po gs base ++ post -> length pre = base ->
      h !! po.1 = Some pfin -> sorter pfin = sorter po.2 ->
      forall e, e ∈ subtrees_list po.1 gs base -> resolved_at h e).
Proof.
  apply value_ind3;
    try (intros; simpl in *; try discriminate;
         match goal with H : _ ∈ [] |- _ => apply elem_of_nil in H as [] end).
  - (* a group *)
    intros d IH h self po pre post Hwf Hord Hh Hpre Hpo e He.
    apply wf_inv in Hwf as (d' & [= <-] & Hd & _ & Hwfi).
    rewrite ordered_obj in Hord. apply andb_prop in Hord as [Hsb Hoi].
    rewrite build_obj in Hh.
    assert (Hself : h !! self = Some (apply_items (S self) (initial self d po) d)).
    { rewrite Hh. apply list_lookup_middle. symmetry. exact Hpre. }
    rewrite subtrees_obj in He. apply elem_of_cons in He as [->|He].
    + intros dk o [= <-] Ho. cbn [fst snd] in *. rewrite Hself in Ho.
      injection Ho as <-. rewrite final_sorter by exact Hd.
      destruct (assoc "sorter" d) as [v|] eqn:Es; [reflexivity|]. simpl.
      destruct po as [[pk pcur]|]; simpl.
      * destruct Hpo as (pfin & Hpk & Hs). exists pfin. auto.
      * rewrite Es. reflexivity.
    + apply (IH h self (S self) (initial self d po)
               (pre ++ [apply_items (S self) (initial self d po) d]) post
               (apply_items (S self) (initial self d po) d) Hwfi Hoi).
      * rewrite Hh, <- app_assoc. reflexivity.
      * rewrite length_app. simpl. lia.
      * exact Hself.
      * apply settled_ordered; assumption.
      * exact He.
  - (* one field *)
    intros key v rest _ IHv IH h self base cur pre post sfin Hwf Hord Hh Hpre Hself Hset e He.
    rewrite wf_items_cons in Hwf. apply andb_prop in Hwf as [Hv Hwf].
    rewrite ordered_items_cons in Hord. apply andb_prop in Hord as [Hov Hord].
    rewrite build_items_cons in Hh. rewrite subtrees_items_cons in He.
    assert (Hlen : length (build_item self key v base cur) = count_item key v).
    { unfold build_item, build_item_with, count_item, count_item_with.
      destruct (String.eqb key "groups"); [|reflexivity].
      destruct v; try reflexivity. apply build_length. }
    assert (Hset' : settled (sorter (apply_item base key v cur)) (sorter sfin) rest).
    { simpl in Hset. rewrite sorter_apply_item.
      destruct (String.eqb key "groups"); [apply Hset|exact Hset]. }
    apply elem_of_app in He as [He|He].
    + unfold subtrees_item, subtrees_item_with, build_item, build_item_with,
        wf_item, wf_item_with, ordered_item, ordered_item_with in *.
      simpl in Hset.
      destruct (String.eqb key "groups"); [|apply elem_of_nil in He as []].
      destruct v as [| |gs|]; try discriminate.
      destruct Hset as [Hs _].
      apply (IHv gs eq_refl h (self, cur) base pre
               (build_items self rest (base + count_item key (VList gs))
                  (apply_item base key (VList gs) cur) ++ post) sfin Hv Hov).
      * rewrite Hh, <- app_assoc. reflexivity.
      * exact Hpre.
      * exact Hself.
      * symmetry. exact Hs.
      * exact He.
    + apply (IH h self (base + count_item key v) (apply_item base key v cur)
               (pre ++ build_item self key v base cur) post sfin Hwf Hord).
      * rewrite Hh, <- !app_assoc. reflexivity.
      * rewrite length_app. lia.
      * exact Hself.
      * exact Hset'.
      * exact He.
  - (* one child *)
    intros g gs IHg IH h po base pre post pfin Hwf Hord Hh Hpre Hp Hs e He.
    simpl in Hwf, Hord. apply andb_prop in Hwf as [Hg Hwf].
    apply andb_prop in Hord as [Hog Hord].
    rewrite build_list_cons in Hh. rewrite subtrees_list_cons in He.
    apply elem_of_app in He as [He|He].
    + destruct po as [pk pcur].
      apply (IHg h base (Some (pk, pcur)) pre
               (build_list (pk, pcur) gs (base + count g) ++ post) Hg Hog).
      * rewrite Hh, <- app_assoc. reflexivity.
      * exact Hpre.
      * exists pfin. auto.
      * exact He.
    + apply (IH h po (base + count g) (pre ++ build g base (Some po)) post pfin Hwf Hord).
      * rewrite Hh, <- !app_assoc. reflexivity.
      * rewrite length_app, (proj1 build_length). lia.
      * exact Hp.
      * exact Hs.
      * exact He.
Qed.

Lemma ordered_resolved (c : value) (w : world) (g : gid) (w' : world) :
  wf c = true -> ordered_below c = true ->
  Group_init c None w = Ok (g, w') ->
  forall k dk p o, (k, VObj dk, p) ∈ subtrees c g None ->
    heap w' !! k = Some o ->
    match assoc "sorter" dk with
    | Some v => sorter o = v
    | None =>
        match p with
        | Some pk => exists po, heap w' !! pk = Some po /\ sorter o = sorter po
        | None => sorter o = VNone
        end
    end.
Proof.
  intros Hwf Hord Hi.
  destruct (proj1 construction_heap _ _ _ _ _ _ Hi eq_refl) as (-> & Hh & _).
  apply wf_inv in Hwf as Hc. destruct Hc as (d & -> & Hd & _ & Hwfi).
  simpl in Hord. rewrite build_obj in Hh.
  set (o0 := initial (length (heap w)) d None) in *.
  set (fin := apply_items (S (length (heap w))) o0 d) in *.
  assert (Hself : heap w' !! length (heap w) = Some fin).
  { rewrite Hh. apply list_lookup_middle. reflexivity. }
  assert (Hfin : sorter fin = sorter o0).
  { unfold fin. rewrite final_sorter by exact Hd. unfold o0. simpl.
    destruct (assoc "sorter" d); reflexivity. }
  intros k dk p o He Ho. rewrite subtrees_obj in He.
  apply elem_of_cons in He as [[= -> -> ->]|He].
  - rewrite Hself in Ho. injection Ho as <-. rewrite Hfin. unfold o0. simpl.
    destruct (assoc "sorter" d); reflexivity.
  - apply (proj1 (proj2 resolved_in_subtrees) d (heap w') (length (heap w))
             (S (length (heap w))) o0 (heap w ++ [fin]) [] fin Hwfi Hord)
      with (e := (k, VObj dk, p)) (dk := dk) (o := o).
    + rewrite Hh, app_nil_r, <- app_assoc. reflexivity.
    + rewrite length_app. simpl. lia.
    + exact Hself.
    + rewrite Hfin. apply settled_same. intros v Hv.
      unfold o0. simpl. rewrite (distinct_assoc_In _ _ _ Hd Hv). reflexivity.
    + exact He.
    + reflexivity.
    + exact Ho.
Qed.

(** X16. In the tree constructed from a well-formed grouping in which every
    grouping other than the root iterates [sorter] before [groups], the
    sorters are resolved as the specification words it: every group has
    the sorter of its own grouping when the grouping has one, and the
    sorter of its parent otherwise; a root without sorter has none. *)
Lemma sorters_resolved_when_ordered (c : value) (w : world) :
  wf c = true -> ordered_below c = true -> sorters_resolved c w.
Proof.
  intros Hwf Hord.
  destruct (proj1 construction_total c None w None Hwf eq_refl) as (g & w' & Hi).
  exists g, w'. split; [exact Hi|].
  apply (ordered_resolved c w g w' Hwf Hord Hi).
Qed.

Lemma sorters_resolved_when_ordered_witness :
  sorters_resolved nested_sorter_grouping' empty_world.
Proof.
  exact (sorters_resolved_when_ordered nested_sorter_grouping' empty_world
           eq_refl eq_refl).
Defined.

(** ** What a construction allocates and what it leaves alone *)

Lemma methods_names :
  (forall c self p attr m, In (attr, m) (methods c self) ->
      exists k ck pk, (k, ck, pk) ∈ subtrees c self p /\
                      In (attr, m) (own_methods (text (cfg_name ck)) k)) /\
  (forall d p base attr m, In (attr, m) (methods_items d base) ->
      exists k ck pk, (k, ck, pk) ∈ subtrees_items p d base /\
                      In (attr, m) (own_methods (text (cfg_name ck)) k)) /\
  (forall gs p base attr m, In (attr, m) (methods_list gs base) ->
      exists k ck pk, (k, ck, pk) ∈ subtrees_list p gs base /\
                      In (attr, m) (own_methods (text (cfg_name ck)) k)).
Proof.
  apply value_ind3; try (intros; simpl in *; contradiction).
  - intros d IH self p attr m Hin. rewrite methods_obj in Hin.
    rewrite subtrees_obj. apply in_app_or in Hin as [Hin|Hin].
    + exists self, (VObj d), p. split; [left|exact Hin].
    + destruct (IH self (S self) attr m Hin) as (k & ck & pk & He & Ho).
      exists k, ck, pk. split; [right; exact He|exact Ho].
  - intros key v rest _ IHv IH p base attr m Hin.
    rewrite methods_items_cons in Hin. rewrite subtrees_items_cons.
    apply in_app_or in Hin as [Hin|Hin].
    + destruct (IH p (base + count_item key v) attr m Hin) as (k & ck & pk & He & Ho).
      exists k, ck, pk. split; [apply elem_of_app; right; exact He|exact Ho].
    + unfold methods_item, methods_item_with, subtrees_item, subtrees_item_with in *.
      destruct (String.eqb key "groups"); [|destruct Hin].
      destruct v as [| |gs|]; try (destruct Hin).
      destruct (IHv gs eq_refl p base attr m Hin) as (k & ck & pk & He & Ho).
      exists k, ck, pk. split; [apply elem_of_app; left; exact He|exact Ho].
  - intros g gs IHg IH p base attr m Hin.
    rewrite methods_list_cons in Hin. rewrite subtrees_list_cons.
    apply in_app_or in Hin as [Hin|Hin].
    + destruct (IH p (base + count g) attr m Hin) as (k & ck & pk & He & Ho).
      exists k, ck, pk. split; [apply elem_of_app; right; exact He|exact Ho].
    + destruct (IHg base (Some p) attr m Hin) as (k & ck & pk & He & Ho).
      exists k, ck, pk. split; [apply elem_of_app; left; exact He|exact Ho].
Qed.

Lemma assoc_app {A : Type} (key : string) (l l' : list (string * A)) :
  assoc key (l ++ l')
  = match assoc key l with
    | Some v => Some v
    | None => assoc key l'
    end.
Proof.
  induction l as [|[k x] l IH]; [reflexivity|].
  simpl. destruct (String.eqb k key); [reflexivity|exact IH].
Qed.

Lemma assoc_In {A : Type} (key : string) (l : list (string * A)) (v : A) :
  assoc key l = Some v -> In (key, v) l.
Proof.
  induction l as [|[k x] l IH]; [discriminate|]. simpl.
  destruct (String.eqb_spec k key) as [->|_]; [intros [= ->]; left; reflexivity|].
  intros H. right. apply IH, H.
Qed.

(** X1. A construction [Group(c, parent)] that returns has allocated one
    object for every grouping of [c], the first of them, which it returns,
    at the first free place of the store; it has left every [Group] object
    that existed before as it was, the parent included; and every attribute
    of the node class that was bound before is still bound, to what it was
    bound to or to a method of a group that this construction has
    created. *)
Theorem construction_frame (c : value) (parent : option gid) (w : world)
    (g : gid) (w' : world) :
  Group_init c parent w = Ok (g, w') ->
  g = length (heap w) /\
  length (heap w') = length (heap w) + count c /\
  (forall k o, heap w !! k = Some o -> heap w' !! k = Some o) /\
  (forall attr m, assoc attr (node_methods w) = Some m ->
     exists m',
       assoc attr (node_methods w') = Some m' /\
       (m' = m \/
        exists k, g <= k < g + count c /\
                  (m' = walk_groups_in_node_of k \/ m' = walk_resources_of k))).
Proof.
  intros H.
  assert (Hpo : exists po, lookup_parent parent w = Ok po).
  { destruct c as [| | |d]; try discriminate. rewrite Group_init_obj in H.
    destruct (lookup_parent parent w) as [po|]; [eauto|discriminate]. }
  destruct Hpo as [po Hpo].
  destruct (proj1 construction_heap _ _ _ _ _ _ H Hpo) as (-> & Hh & Hm).
  split; [reflexivity|]. split.
  { rewrite Hh, length_app, (proj1 build_length). reflexivity. }
  split.
  { intros k o Hk. rewrite Hh. apply lookup_app_l_Some, Hk. }
  intros attr m Hold. rewrite Hm, assoc_app.
  destruct (assoc attr (methods c (length (heap w)))) as [m'|] eqn:Ea;
    [|exists m; auto].
  exists m'. split; [reflexivity|]. right.
  destruct (proj1 methods_names c (length (heap w)) None attr m' (assoc_In _ _ _ Ea))
    as (k & ck & pk & He & Ho).
  exists k. split.
  - assert (Hk : k ∈ (subtrees c (length (heap w)) None).*1.*1).
    { apply list_elem_of_fmap. exists (k, ck). split; [reflexivity|].
      apply list_elem_of_fmap. exists (k, ck, pk). split; [reflexivity|exact He]. }
    rewrite (proj1 subtrees_ids) in Hk. apply elem_of_seq in Hk. lia.
  - unfold own_methods in Ho.
    destruct Ho as [[= _ <-]|[[= _ <-]|[]]]; auto.
Qed.

Lemma construction_frame_witness :
  length (heap tags_world) = length (heap example_world) + count tags_grouping /\
  exists m',
    assoc "walk_topics_groups" (node_methods tags_world) = Some m' /\
    (m' = walk_groups_in_node_of 0 \/
     exists k, 3 <= k < 3 + count tags_grouping /\
               (m' = walk_groups_in_node_of k \/ m' = walk_resources_of k)).
Proof.
  assert (H : Group_init tags_grouping None example_world = Ok (3, tags_world))
    by reflexivity.
  destruct (construction_frame _ _ _ _ _ H) as (_ & Hlen & _ & Hattr).
  split; [exact Hlen|].
  exact (Hattr "walk_topics_groups" (walk_groups_in_node_of 0) eq_refl).
Defined.

(** ** Errors and defaults of a construction *)

Lemma update_groups_none d : forall self w,
  assoc "groups" d = Some VNone -> update self d w = Raise TypeError.
Proof.
  induction d as [|[key v] rest IH]; intros self w H; [discriminate|].
  rewrite update_cons. rewrite assoc_cons in H.
  unfold set_expando, set_expando_with.
  destruct (String.eqb key "groups").
  - injection H as ->. reflexivity.
  - simpl. apply IH, H.
Qed.

(** X2. A grouping whose [groups] field is [None] cannot be constructed:
    [Group(grouping, parent)] raises [TypeError] (the comprehension of
    [set_expando] iterates over [None]), whatever the other fields are and
    whether the group is a root or a nested group. *)
Theorem groups_none_raises (d : list (string * value)) (parent : option gid)
    (w : world) (po : option (gid * Group)) :
  assoc "groups" d = Some VNone ->
  lookup_parent parent w = Ok po ->
  Group_init (VObj d) parent w = Raise TypeError.
Proof.
  intros Hg Hpo. rewrite Group_init_obj, Hpo. simpl.
  rewrite update_groups_none by exact Hg. reflexivity.
Qed.

Lemma groups_none_raises_witness :
  Group_init none_groups_grouping None empty_world = Raise TypeError.
Proof.
  exact (groups_none_raises [("name", VStr "topics"); ("groups", VNone)]
           None empty_world None eq_refl eq_refl).
Defined.

Lemma name_kept d : forall base cur,
  assoc "name" d = None -> name (apply_items base cur d) = name cur.
Proof.
  induction d as [|[key v] rest IH]; intros base cur H; [reflexivity|].
  rewrite apply_items_cons. rewrite assoc_cons in H.
  destruct (String.eqb key "name") eqn:Ek; [discriminate|].
  rewrite IH by exact H. unfold apply_item, setattr. rewrite Ek.
  destruct (String.eqb key "groups"); [destruct v; reflexivity|].
  repeat (match goal with |- context [if ?b then _ else _] => destruct b end);
    reflexivity.
Qed.

(** X3. A grouping without a [name] field gives a group named ['groups'],
    the name that [__init__] sets before the fields are copied, and the
    construction binds the node attributes [walk_groups_groups] and
    [walk_resources_grouped_by_groups] to that group. *)
Theorem unnamed_group (d : list (string * value)) (parent : option gid)
    (w : world) (po : option (gid * Group)) :
  wf (VObj d) = true ->
  assoc "name" d = None ->
  lookup_parent parent w = Ok po ->
  exists g w' o,
    Group_init (VObj d) parent w = Ok (g, w') /\
    heap w' !! g = Some o /\ name o = VStr "groups" /\
    assoc "walk_groups_groups" (node_methods w') = Some (walk_groups_in_node_of g) /\
    assoc "walk_resources_grouped_by_groups" (node_methods w')
    = Some (walk_resources_of g).
Proof.
  intros Hwf Hn Hpo.
  destruct (proj1 construction_total _ parent w po Hwf Hpo) as (g & w' & Hi).
  assert (Hfin : final_name d = VStr "groups").
  { unfold final_name. rewrite name_kept by exact Hn. reflexivity. }
  destruct (constructed_tree _ _ _ _ _ _ Hwf Hi Hpo) as [_ Hall].
  destruct (Hall g (VObj d) (fst <$> po)) as ((o & Ho & Hb) & _).
  { rewrite subtrees_obj. left. }
  destruct Hb as (d' & [= <-] & Hname & _).
  exists g, w', o. split; [exact Hi|]. split; [exact Ho|].
  split; [rewrite Hname; exact Hfin|].
  pose proof (constructed_methods _ _ _ _ _ _ Hi Hpo) as Hm.
  unfold cfg_name in Hm. rewrite Hfin in Hm. exact Hm.
Qed.

Lemma unnamed_group_witness :
  exists g w' o,
    Group_init unnamed_grouping None empty_world = Ok (g, w') /\
    heap w' !! g = Some o /\ name o = VStr "groups".
Proof.
  destruct (unnamed_group [("description", VStr "untitled")] None empty_world None
              eq_refl eq_refl eq_refl) as (g & w' & o & Hi & Ho & Hn & _).
  exists g, w', o. auto.
Defined.

Lemma leaf_items d :
  distinct_keys d = true ->
  assoc "groups" d = None \/ assoc "groups" d = Some (VList []) ->
  count_items d = 0 /\ forall base, ids_items d base = [].
Proof.
  induction d as [|[key v] rest IH]; intros Hd Hg; [auto|].
  simpl in Hd. apply andb_prop in Hd as [Hk Hd].
  rewrite assoc_cons in Hg. rewrite count_items_cons. simpl ids_items.
  unfold count_item, count_item_with, ids_item.
  destruct (String.eqb key "groups") eqn:Ek.
  - apply String.eqb_eq in Ek. subst key.
    destruct Hg as [Hg|Hg]; [discriminate|]. injection Hg as ->.
    split.
    + destruct (no_groups_field rest 0 (initial 0 [] None) Hk) as (_ & _ & ->).
      reflexivity.
    + intros base. simpl.
      apply (no_groups_field rest _ (initial 0 [] None) Hk).
  - destruct (IH Hd Hg) as [-> Hi]. split; [reflexivity|].
    intros base. apply Hi.
Qed.

(** X4. A grouping without a [groups] field, or with an empty one, gives a
    group without children: the construction allocates this one object, its
    [groups] attribute is the empty list, and its [walk_groups()] yields the
    group itself and nothing else. *)
Theorem leaf_group (d : list (string * value)) (parent : option gid)
    (w : world) (po : option (gid * Group)) :
  wf (VObj d) = true ->
  assoc "groups" d = None \/ assoc "groups" d = Some (VList []) ->
  lookup_parent parent w = Ok po ->
  exists g w' o,
    Group_init (VObj d) parent w = Ok (g, w') /\
    length (heap w') = S (length (heap w)) /\
    heap w' !! g = Some o /\ groups o = [] /\
    walk_groups (heap w') g = Ok [g].
Proof.
  intros Hwf Hg Hpo.
  destruct (proj1 construction_total _ parent w po Hwf Hpo) as (g & w' & Hi).
  apply wf_inv in Hwf as Hc. destruct Hc as (d' & [= <-] & Hd & _).
  destruct (leaf_items d Hd Hg) as [Hcount Hids].
  destruct (constructed_tree _ _ _ _ _ _ Hwf Hi Hpo) as [Hwalk Hall].
  destruct (Hall g (VObj d) (fst <$> po)) as ((o & Ho & Hb) & _).
  { rewrite subtrees_obj. left. }
  destruct Hb as (d' & [= <-] & _ & Hgr & _).
  destruct (proj1 construction_heap _ _ _ _ _ _ Hi Hpo) as (_ & Hh & _).
  change (count (VObj d)) with (S (count_items d)) in Hwalk.
  rewrite Hcount in Hwalk.
  exists g, w', o. split; [exact Hi|]. split.
  { rewrite Hh, length_app, (proj1 build_length).
    change (count (VObj d)) with (S (count_items d)). rewrite Hcount. lia. }
  split; [exact Ho|]. split; [|exact Hwalk].
  rewrite (Hgr Hd). apply Hids.
Qed.

Lemma leaf_group_witness :
  exists g w' o,
    Group_init (VObj [("name", VStr "a")]) None example_world = Ok (g, w') /\
    heap w' !! g = Some o /\ groups o = [] /\
    walk_groups (heap w') g = Ok [g].
Proof.
  destruct (leaf_group [("name", VStr "a")] None example_world None
              eq_refl (or_introl eq_refl) eq_refl)
    as (g & w' & o & Hi & _ & Ho & Hg & Hw).
  exists g, w', o. auto.
Defined.

(** ** Errors of [list_resources] *)

Lemma scan_no_meta h o walker :
  Forall (fun r => meta r = None) walker -> scan h o walker = Ok [].
Proof.
  induction 1 as [|r walker Hr _ IH]; [reflexivity|].
  rewrite scan_cons. unfold belongs. rewrite Hr. simpl. rewrite IH. reflexivity.
Qed.

Lemma scan_bad_field h o walker v :
  root_name h o = Some v -> is_str v = false ->
  Exists (fun r => meta r <> None) walker -> scan h o walker = Raise TypeError.
Proof.
  intros Hv Hs. induction 1 as [r walker Hr|r walker _ IH].
  - rewrite scan_cons. unfold belongs.
    destruct (meta r) as [m|]; [|contradiction]. rewrite Hv.
    destruct v; try discriminate; reflexivity.
  - rewrite scan_cons, IH. unfold belongs.
    destruct (meta r) as [m|]; [|reflexivity]. rewrite Hv.
    destruct v; try discriminate; reflexivity.
Qed.

(** X5. [list_resources] raises nothing but [TypeError], and only in two
    cases.  A sorter that is true but not a string (a non-empty sequence,
    an object) makes the call raise [TypeError] when the name of the walker
    is built.  A [root.name] that is not a string ([None], a sequence, an
    object) makes the call raise [TypeError] when the chosen traversal
    yields a resource that has metadata; when no resource of the traversal
    has metadata, every resource is passed over and the call yields
    nothing.  With a sorter that is false or a string, and a [root.name]
    that is a string or missing, the call returns. *)
Theorem list_resources_type_errors (h : list Group) (self : gid) (o : Group)
    (node : Node) :
  h !! self = Some o ->
  (truthy (sorter o) = true -> is_str (sorter o) = false ->
     list_resources h self node = Raise TypeError) /\
  (forall walker v,
     choose_walker o node = Ok walker ->
     root_name h o = Some v -> is_str v = false ->
     (Forall (fun r => meta r = None) walker ->
        list_resources h self node = Ok []) /\
     (Exists (fun r => meta r <> None) walker ->
        list_resources h self node = Raise TypeError)) /\
  (truthy (sorter o) = false \/ is_str (sorter o) = true ->
   (forall v, root_name h o = Some v -> is_str v = true) ->
   exists l, list_resources h self node = Ok l).
Proof.
  intros Ho. unfold list_resources, deref. rewrite Ho. simpl.
  split; [|split].
  - intros Ht Hs. unfold choose_walker. rewrite Ht.
    destruct (sorter o); try discriminate; reflexivity.
  - intros walker v Hw Hv Hs. rewrite Hw. simpl. split.
    + apply scan_no_meta.
    + apply scan_bad_field with v; assumption.
  - intros Hsorter Hroot.
    assert (Hw : exists walker, choose_walker o node = Ok walker).
    { unfold choose_walker. destruct (truthy (sorter o)) eqn:Ht.
      - destruct Hsorter as [Hf|Hs]; [discriminate|].
        destruct (sorter o); try discriminate. simpl. eauto.
      - simpl. eauto. }
    destruct Hw as [walker Hw]. rewrite Hw. simpl.
    rewrite (scan_filter h o walker Hroot). eauto.
Qed.

Lemma list_resources_type_errors_witness :
  list_resources [list_sorter_group] 0 example_node = Raise TypeError /\
  list_resources [none_name_group] 0
    {| Node_walk_resources := [bare_resource]; Node_walkers := [] |} = Ok [] /\
  list_resources [none_name_group] 0 example_node = Raise TypeError.
Proof.
  split; [|split].
  - exact (proj1 (list_resources_type_errors [list_sorter_group] 0 list_sorter_group
                    example_node eq_refl) eq_refl eq_refl).
  - apply (proj1 (proj2 (list_resources_type_errors [none_name_group] 0 none_name_group
                           {| Node_walk_resources := [bare_resource];
                              Node_walkers := [] |} eq_refl))
             [bare_resource] VNone eq_refl eq_refl eq_refl).
    repeat constructor.
  - apply (proj1 (proj2 (list_resources_type_errors [none_name_group] 0 none_name_group
                           example_node eq_refl))
             (Node_walk_resources example_node) VNone eq_refl eq_refl eq_refl).
    left. discriminate.
Defined.

Lemma scan_no_field h o walker :
  root_name h o = None -> scan h o walker = Ok [].
Proof.
  intros Hr. induction walker as [|r walker IH]; [reflexivity|].
  rewrite scan_cons, IH. unfold belongs. rewrite Hr.
  destruct (meta r); reflexivity.
Qed.

(** X6. A group whose [root] attribute holds a plain value without a
    [name] (a configuration field [root] has replaced the reference to the
    root group) lists no resource of any node: the [AttributeError] of
    [self.root.name] is caught for every resource, and the call returns
    normally. *)
Theorem list_resources_without_root_name (h : list Group) (self : gid)
    (o : Group) (node : Node) (walker : list Resource) (v : value) :
  h !! self = Some o ->
  choose_walker o node = Ok walker ->
  root o = SVal v -> getattr v "name" = None ->
  list_resources h self node = Ok [] /\
  list_resources_next h self node = Ok None.
Proof.
  intros Ho Hw Hr Hn.
  assert (Hroot : root_name h o = None).
  { unfold root_name. rewrite Hr. destruct v; try reflexivity. exact Hn. }
  assert (Hl : list_resources h self node = Ok []).
  { unfold list_resources, deref. rewrite Ho. simpl. rewrite Hw. simpl.
    apply scan_no_field, Hroot. }
  split; [exact Hl|].
  destruct (list_resources_first _ _ _ _ Hl) as (_ & _ & _ & _ & Hnext).
  exact Hnext.
Qed.

Lemma list_resources_without_root_name_witness :
  list_resources reserved_heap 1 example_node = Ok [] /\
  list_resources_next reserved_heap 1 example_node = Ok None.
Proof.
  exact (list_resources_without_root_name reserved_heap 1
           {| name := VStr "a"; parent := SVal (VStr "y"); root := SVal (VStr "x");
              groups := []; sorter := VNone; fields := [] |}
           example_node (Node_walk_resources example_node) (VStr "x")
           eq_refl eq_refl eq_refl eq_refl).
Defined.

(** ** The two methods of a group on the same node *)

Lemma in_node_filter h node group walker (listed : gid -> list Resource) :
  walk_groups h group = Ok walker ->
  (forall g, In g walker -> list_resources h g node = Ok (listed g)) ->
  exists turns,
    walk_groups_in_node h node group = Ok turns /\
    yielded_groups turns = List.filter (fun g => nonempty (listed g)) walker.
Proof.
  intros Hw Hl.
  destruct (walk_turns _ _ _ _ _ Hw Hl) as (turns & Ht & _ & Hy & _).
  exists turns. auto.
Qed.

Lemma grouped_concat h node group walker (listed : gid -> list Resource) :
  walk_groups h group = Ok walker ->
  (forall g, In g walker -> list_resources h g node = Ok (listed g)) ->
  walk_resources h node group = Ok (concat (map listed walker)).
Proof.
  intros Hw Hl. unfold walk_resources. rewrite Hw. simpl.
  apply for_yield_all, Hl.
Qed.

Lemma nonempty_length {A : Type} (l : list A) :
  nonempty l = true -> 0 < length l.
Proof. destruct l; simpl; [discriminate|lia]. Qed.

Lemma filter_concat_length (listed : gid -> list Resource) (walker : list gid) :
  length (List.filter (fun g => nonempty (listed g)) walker)
  <= length (concat (map listed walker)).
Proof.
  induction walker as [|g walker IH]; [reflexivity|].
  simpl. rewrite length_app.
  destruct (nonempty (listed g)) eqn:E; simpl; [|lia].
  apply nonempty_length in E. lia.
Qed.

(** X7. For the same group and the same node, the resources that
    [walk_resources] yields are those that the groups yielded by the turns
    of [walk_groups_in_node] list: a resource is yielded by the first if and
    only if it is in the list of a group yielded by the second.  No group
    is yielded exactly when no resource is, and there are never more
    groups than resources. *)
Theorem grouped_walks_agree (h : list Group) (node : Node) (group : gid)
    (walker : list gid) (listed : gid -> list Resource) :
  walk_groups h group = Ok walker ->
  (forall g, In g walker -> list_resources h g node = Ok (listed g)) ->
  exists gs rs,
    (exists turns,
       walk_groups_in_node h node group = Ok turns /\ yielded_groups turns = gs) /\
    walk_resources h node group = Ok rs /\
    (forall r, In r rs <-> exists g, In g gs /\ In r (listed g)) /\
    (gs = [] <-> rs = []) /\
    length gs <= length rs.
Proof.
  intros Hw Hl.
  exists (List.filter (fun g => nonempty (listed g)) walker),
         (concat (map listed walker)).
  split; [apply in_node_filter; assumption|].
  split; [apply grouped_concat; assumption|].
  assert (Hmem : forall r, In r (concat (map listed walker)) <->
            exists g, In g (List.filter (fun g => nonempty (listed g)) walker)
                      /\ In r (listed g)).
  { intros r. rewrite in_concat. split.
    - intros (l & Hin & Hr). apply in_map_iff in Hin as (g & <- & Hg).
      exists g. split; [|exact Hr]. apply filter_In. split; [exact Hg|].
      destruct (listed g); [destruct Hr|reflexivity].
    - intros (g & Hg & Hr). apply filter_In in Hg as [Hg _].
      exists (listed g). split; [|exact Hr]. apply in_map, Hg. }
  split; [exact Hmem|]. split; [|apply filter_concat_length].
  split.
  - intros Hgs.
    destruct (concat (map listed walker)) as [|r rs] eqn:E; [reflexivity|].
    destruct (proj1 (Hmem r) (or_introl eq_refl)) as (g & Hg & _).
    rewrite Hgs in Hg. destruct Hg.
  - intros Hrs.
    destruct (List.filter (fun g => nonempty (listed g)) walker) as [|g gs] eqn:E;
      [reflexivity|].
    assert (Hg : In g (List.filter (fun g => nonempty (listed g)) walker))
      by (rewrite E; left; reflexivity).
    apply filter_In in Hg as [Hg Hne].
    destruct (listed g) as [|r l] eqn:El; [discriminate|].
    assert (Hr : In r (concat (map listed walker))).
    { apply Hmem. exists g. split; [left; reflexivity|].
      rewrite El. left. reflexivity. }
    rewrite Hrs in Hr. destruct Hr.
Qed.

Lemma grouped_walks_agree_witness :
  exists gs rs,
    (exists turns,
       walk_groups_in_node (heap example_world) example_node 0 = Ok turns /\
       yielded_groups turns = gs) /\
    walk_resources (heap example_world) example_node 0 = Ok rs /\
    length gs <= length rs.
Proof.
  destruct (grouped_walks_agree (heap example_world) example_node 0 [0; 1; 2]
              example_listed eq_refl example_listed_ok)
    as (gs & rs & Hg & Hr & _ & _ & Hlen).
  exists gs, rs. auto.
Defined.

(** ** Groups with different names share no resource *)

Lemma py_eq_eq :
  forall a b, py_eq a b = true -> a = b.
Proof.
  apply (value_rect3
           (fun a => forall b, py_eq a b = true -> a = b)
           (fun _ => True)
           (fun xs => forall ys,
              (fix all2 (xs ys : list value) {struct xs} : bool :=
                 match xs, ys with
                 | [], [] => true
                 | x :: xs', y :: ys' => py_eq x y && all2 xs' ys'
                 | _, _ => false
                 end) xs ys = true -> xs = ys)).
  - intros [] H; try discriminate; reflexivity.
  - intros s [] H; try discriminate. simpl in H. apply String.eqb_eq in H.
    subst. reflexivity.
  - intros l IH [] H; try discriminate. simpl in H. f_equal. apply IH, H.
  - intros d _ [] H; discriminate.
  - exact I.
  - intros; exact I.
  - intros [] H; [reflexivity|discriminate].
  - intros v l IHv IH [|y ys] H; [discriminate|].
    apply andb_prop in H as [H1 H2]. f_equal; [apply IHv, H1|apply IH, H2].
Qed.

Lemma in_group_name h o r field :
  root_name h o = Some (VStr field) -> in_group h o r = true ->
  exists m, meta r = Some m /\ assoc field m = Some (name o).
Proof.
  unfold in_group. intros -> H.
  destruct (meta r) as [m|]; [|discriminate].
  destruct (assoc field m) as [gv|] eqn:Ea; [|discriminate].
  apply py_eq_eq in H. subst gv. exists m. auto.
Qed.

Lemma for_yield_no_repeat h node field (walker : list gid) :
  NoDup walker ->
  (forall g, In g walker ->
     exists o traversal,
       h !! g = Some o /\ choose_walker o node = Ok traversal /\
       NoDup traversal /\ root_name h o = Some (VStr field)) ->
  (forall g1 g2 o1 o2, In g1 walker -> In g2 walker -> g1 <> g2 ->
     h !! g1 = Some o1 -> h !! g2 = Some o2 -> name o1 <> name o2) ->
  exists rs,
    for_yield walker (fun g => list_resources h g node) = Ok rs /\
    NoDup rs /\
    forall r, In r rs ->
      exists g o m, In g walker /\ h !! g = Some o /\
                    meta r = Some m /\ assoc field m = Some (name o).
Proof.
  induction walker as [|g walker IH]; intros Hnd Hobj Hnames.
  - exists []. split; [reflexivity|]. split; [constructor|]. intros r [].
  - apply NoDup_cons in Hnd as [Hg Hnd].
    destruct (Hobj g (or_introl eq_refl)) as (o & tr & Ho & Htr & Hndtr & Hroot).
    destruct IH as (rs & Hrs & Hndrs & Hin).
    + exact Hnd.
    + intros g' Hg'. apply Hobj. right. exact Hg'.
    + intros g1 g2 o1 o2 H1 H2. apply Hnames; right; assumption.
    + assert (Hl : list_resources h g node = Ok (List.filter (in_group h o) tr)).
      { unfold list_resources, deref. rewrite Ho. simpl. rewrite Htr. simpl.
        apply scan_filter. intros v Hv. rewrite Hroot in Hv.
        injection Hv as <-. reflexivity. }
      exists (List.filter (in_group h o) tr ++ rs). simpl. rewrite Hl, Hrs. simpl.
      split; [reflexivity|]. split.
      * apply NoDup_app.
        split; [apply NoDup_ListNoDup, List.NoDup_filter, NoDup_ListNoDup, Hndtr|].
        split; [|exact Hndrs].
        intros r Hr Hr'. apply list_elem_of_In in Hr, Hr'.
        apply filter_In in Hr as [_ Hr].
        destruct (in_group_name _ _ _ _ Hroot Hr) as (m & Hm & Ha).
        destruct (Hin r Hr') as (g' & o' & m' & Hg' & Ho' & Hm' & Ha').
        rewrite Hm in Hm'. injection Hm' as <-. rewrite Ha in Ha'.
        injection Ha' as Heq.
        apply (Hnames g g' o o'); auto.
        -- left. reflexivity.
        -- right. exact Hg'.
        -- intros <-. apply Hg. apply list_elem_of_In. exact Hg'.
      * intros r Hr. apply in_app_or in Hr as [Hr|Hr].
        -- apply filter_In in Hr as [_ Hr].
           destruct (in_group_name _ _ _ _ Hroot Hr) as (m & Hm & Ha).
           exists g, o, m. split; [left; reflexivity|]. auto.
        -- destruct (Hin r Hr) as (g' & o' & m' & Hg' & Ho' & Hm' & Ha').
           exists g', o', m'. split; [right; exact Hg'|]. auto.
Qed.

(** X8. When the groups of a walk have pairwise different names, look at
    the same metadata field (they share their root) and every traversal
    yields a resource once, [walk_resources] yields every resource at most
    once: a resource belongs to one group at most, the one whose name its
    metadata holds. *)
Theorem walk_resources_no_repeat (h : list Group) (node : Node) (group : gid)
    (walker : list gid) (field : string) :
  walk_groups h group = Ok walker ->
  NoDup walker ->
  (forall g, In g walker ->
     exists o traversal,
       h !! g = Some o /\ choose_walker o node = Ok traversal /\
       NoDup traversal /\ root_name h o = Some (VStr field)) ->
  (forall g1 g2 o1 o2, In g1 walker -> In g2 walker -> g1 <> g2 ->
     h !! g1 = Some o1 -> h !! g2 = Some o2 -> name o1 <> name o2) ->
  exists rs,
    walk_resources h node group = Ok rs /\ NoDup rs /\
    forall r, In r rs ->
      exists g o m, In g walker /\ h !! g = Some o /\
                    meta r = Some m /\ assoc field m = Some (name o).
Proof.
  intros Hw Hnd Hobj Hnames.
  destruct (for_yield_no_repeat h node field walker Hnd Hobj Hnames)
    as (rs & Hrs & Hndrs & Hin).
  exists rs. split; [|auto].
  unfold walk_resources. rewrite Hw. simpl. exact Hrs.
Qed.

Lemma walk_resources_no_repeat_witness :
  exists rs, walk_resources example_heap example_node 0 = Ok rs /\ NoDup rs.
Proof.
  destruct (walk_resources_no_repeat example_heap example_node 0 [0; 1; 2] "topics"
              eq_refl (NoDup_seq 0 3)) as (rs & Hrs & Hnd & _).
  - intros g [<-|[<-|[<-|[]]]]; eexists _, (Node_walk_resources example_node);
      (split; [reflexivity|]); (split; [reflexivity|]); (split; [|reflexivity]);
      apply NoDup_ListNoDup; repeat constructor; simpl; intuition discriminate.
  - intros g1 g2 o1 o2 [<-|[<-|[<-|[]]]] [<-|[<-|[<-|[]]]] Hne H1 H2;
      try (exfalso; apply Hne; reflexivity);
      injection H1 as <-; injection H2 as <-; discriminate.
  - exists rs. split; [exact Hrs|exact Hnd].
Defined.

(** ** Existing groups after a later construction *)

Lemma for_yield_ext {A B : Type} (xs : list A) (f g : A -> result (list B)) :
  (forall x, In x xs -> f x = g x) -> for_yield xs f = for_yield xs g.
Proof.
  induction xs as [|x xs IH]; intros H; [reflexivity|].
  simpl. rewrite (H x) by (left; reflexivity).
  rewrite IH by (intros y Hy; apply H; right; exact Hy). reflexivity.
Qed.

Lemma for_yield_In {A B : Type} (xs : list A) (f : A -> result (list B)) l y :
  for_yield xs f = Ok l -> In y l ->
  exists x l', In x xs /\ f x = Ok l' /\ In y l'.
Proof.
  revert l. induction xs as [|x xs IH]; intros l H Hy.
  - injection H as <-. destruct Hy.
  - simpl in H. bind_inv H. bind_inv H. injection H as <-.
    apply in_app_or in Hy as [Hy|Hy].
    + exists x, a. split; [left; reflexivity|]. auto.
    + destruct (IH _ E0 Hy) as (x' & l' & Hx & Hf & Hl).
      exists x', l'. split; [right; exact Hx|]. auto.
Qed.

Lemma walk_groups_fuel_more n : forall n' h tl self l,
  walk_groups_fuel n h self = Ok l -> n <= n' ->
  walk_groups_fuel n' (h ++ tl) self = Ok l.
Proof.
  induction n as [|n IH]; intros n' h tl self l H Hle; [discriminate|].
  destruct n' as [|n']; [lia|]. simpl in *.
  unfold deref in *. destruct (h !! self) as [o|] eqn:Ho; [|discriminate].
  rewrite (lookup_app_l_Some _ _ _ _ Ho). simpl in *.
  bind_inv H. injection H as <-.
  assert (Hfor : forall xs l0, for_yield xs (walk_groups_fuel n h) = Ok l0 ->
            for_yield xs (walk_groups_fuel n' (h ++ tl)) = Ok l0).
  { induction xs as [|x xs IHxs]; intros l0 H0; [exact H0|].
    simpl in *. bind_inv H0. bind_inv H0. injection H0 as <-.
    rewrite (IH n' h tl x a0 E0) by lia. simpl.
    rewrite (IHxs _ E1). reflexivity. }
  rewrite (Hfor _ _ E). reflexivity.
Qed.

Lemma walk_groups_fuel_bound n : forall h self l k,
  walk_groups_fuel n h self = Ok l -> In k l -> k < length h.
Proof.
  induction n as [|n IH]; intros h self l k H Hk; [discriminate|].
  simpl in H. unfold deref in H.
  destruct (h !! self) as [o|] eqn:Ho; [|discriminate]. simpl in H.
  bind_inv H. injection H as <-.
  destruct Hk as [<-|Hk]; [eapply lookup_lt_Some, Ho|].
  destruct (for_yield_In _ _ _ _ E Hk) as (x & l' & _ & Hx & Hl).
  apply (IH h x l' k Hx Hl).
Qed.

Lemma root_name_app h tl o :
  (forall r, root o = SRef r -> r < length h) ->
  root_name (h ++ tl) o = root_name h o.
Proof.
  intros H. unfold root_name. destruct (root o) as [r|v]; [|reflexivity].
  rewrite lookup_app_l by (apply H; reflexivity). reflexivity.
Qed.

Lemma list_resources_app h tl self o node :
  h !! self = Some o ->
  (forall r, root o = SRef r -> r < length h) ->
  list_resources (h ++ tl) self node = list_resources h self node.
Proof.
  intros Ho Hr. unfold list_resources, deref.
  rewrite (lookup_app_l_Some _ _ _ _ Ho), Ho. simpl.
  destruct (choose_walker o node) as [walker|e]; [|reflexivity]. simpl.
  unfold scan, belongs. rewrite (root_name_app h tl o Hr). reflexivity.
Qed.

(** X9. The construction of another group changes nothing for the groups
    that exist: [walk_groups()] of an existing group yields what it yielded
    before; [list_resources(node)] of an existing group whose [root] is an
    existing group (or a plain value) yields what it yielded before; and so
    does [walk_resources(node, group)] when this holds of the groups of the
    walk. *)
Theorem later_construction_keeps_results (c : value) (parent : option gid)
    (w : world) (g : gid) (w' : world) :
  Group_init c parent w = Ok (g, w') ->
  (forall self l,
     walk_groups (heap w) self = Ok l -> walk_groups (heap w') self = Ok l) /\
  (forall self o node,
     heap w !! self = Some o ->
     (forall r, root o = SRef r -> r < length (heap w)) ->
     list_resources (heap w') self node = list_resources (heap w) self node) /\
  (forall self l node,
     walk_groups (heap w) self = Ok l ->
     (forall k o r, In k l -> heap w !! k = Some o -> root o = SRef r ->
        r < length (heap w)) ->
     walk_resources (heap w') node self = walk_resources (heap w) node self).
Proof.
  intros H.
  assert (Hpo : exists po, lookup_parent parent w = Ok po).
  { destruct c as [| | |d]; try discriminate. rewrite Group_init_obj in H.
    destruct (lookup_parent parent w) as [po|]; [eauto|discriminate]. }
  destruct Hpo as [po Hpo].
  destruct (proj1 construction_heap _ _ _ _ _ _ H Hpo) as (_ & Hh & _).
  assert (Hwalk : forall self l,
            walk_groups (heap w) self = Ok l -> walk_groups (heap w') self = Ok l).
  { intros self l Hl. unfold walk_groups in *. rewrite Hh.
    apply (walk_groups_fuel_more (length (heap w))); [exact Hl|].
    rewrite length_app. lia. }
  split; [exact Hwalk|]. split.
  - intros self o node Ho Hr. rewrite Hh. apply list_resources_app with o; assumption.
  - intros self l node Hl Hr. unfold walk_resources.
    rewrite (Hwalk _ _ Hl), Hl. simpl. apply for_yield_ext.
    intros k Hk.
    pose proof (walk_groups_fuel_bound _ _ _ _ _ Hl Hk) as Hlt.
    destruct (lookup_lt_is_Some_2 _ _ Hlt) as [o Ho].
    rewrite Hh. apply list_resources_app with o; [exact Ho|].
    intros r. apply (Hr k o r Hk Ho).
Qed.

Lemma tags_constructed :
  Group_init tags_grouping None example_world = Ok (3, tags_world).
Proof. reflexivity. Qed.

Lemma later_construction_keeps_results_witness :
  walk_groups (heap tags_world) 0 = Ok [0; 1; 2] /\
  list_resources (heap tags_world) 1 example_node
  = list_resources (heap example_world) 1 example_node.
Proof.
  destruct (later_construction_keeps_results tags_grouping None example_world 3
              tags_world tags_constructed) as (Hw & Hl & _).
  split.
  - apply Hw. reflexivity.
  - apply (Hl 1 example_a example_node eq_refl).
    intros r [= <-]. simpl. lia.
Defined.

(** ** The names that a construction binds *)

Lemma assoc_app_notin {A : Type} (key : string) (l l' : list (string * A)) :
  (forall v, ~ In (key, v) l) -> assoc key (l ++ l') = assoc key l'.
Proof.
  induction l as [|[k x] l IH]; intros H; [reflexivity|].
  simpl. destruct (String.eqb_spec k key) as [->|_].
  - exfalso. apply (H x). left. reflexivity.
  - apply IH. intros v Hv. apply (H v). right. exact Hv.
Qed.

(** X10. A construction binds on the node class the two attributes named
    after each group of its tree and no other: an attribute whose name is
    neither [walk_<n>_groups] nor [walk_resources_grouped_by_<n>] for the
    name [n] of a group of the tree is bound after the construction to what
    it was bound to before, or is still unbound. *)
Theorem construction_binds_own_names (c : value) (parent : option gid)
    (w : world) (g : gid) (w' : world) (attr : string) :
  Group_init c parent w = Ok (g, w') ->
  (forall k ck p, (k, ck, p) ∈ subtrees c g None ->
     attr <> "walk_" +:+ text (cfg_name ck) +:+ "_groups" /\
     attr <> "walk_resources_grouped_by_" +:+ text (cfg_name ck)) ->
  assoc attr (node_methods w') = assoc attr (node_methods w).
Proof.
  intros H Hattr.
  assert (Hpo : exists po, lookup_parent parent w = Ok po).
  { destruct c as [| | |d]; try discriminate. rewrite Group_init_obj in H.
    destruct (lookup_parent parent w) as [po|]; [eauto|discriminate]. }
  destruct Hpo as [po Hpo].
  destruct (proj1 construction_heap _ _ _ _ _ _ H Hpo) as (_ & _ & Hm).
  rewrite Hm. apply assoc_app_notin. intros m Hin.
  destruct (proj1 methods_names c g None attr m Hin) as (k & ck & pk & He & Ho).
  destruct (Hattr k ck pk He) as [H1 H2].
  unfold own_methods in Ho.
  destruct Ho as [[= E _]|[[= E _]|[]]]; [apply H2|apply H1]; symmetry; exact E.
Qed.

Lemma construction_binds_own_names_witness :
  assoc "walk_topics_groups" (node_methods tags_world)
  = Some (walk_groups_in_node_of 0).
Proof.
  rewrite (construction_binds_own_names tags_grouping None example_world 3
             tags_world "walk_topics_groups" tags_constructed);
    [reflexivity|].
  intros k ck p He. simpl in He.
  repeat (apply elem_of_cons in He as [He|He]);
    try (apply elem_of_nil in He as []);
    injection He as -> -> ->; split; discriminate.
Defined.

(** ** Errors of [begin_site] *)

Lemma begin_site_loop_raises pre : forall key spec rest reg w,
  (forall k s, In (k, s) pre -> wf (with_name k s) = true) ->
  (forall d, spec <> VObj d) ->
  begin_site_loop (pre ++ (key, spec) :: rest) reg w = Raise AttributeError.
Proof.
  induction pre as [|[k s] pre IH]; intros key spec rest reg w Hwf Hspec.
  - simpl. destruct spec as [| | |d]; try reflexivity.
    exfalso. apply (Hspec d). reflexivity.
  - pose proof (Hwf k s (or_introl eq_refl)) as Hs.
    destruct s as [| | |d]; try discriminate.
    destruct (proj1 construction_total _ None w None Hs eq_refl) as (g & w1 & Hi).
    rewrite <- app_comm_cons, begin_site_loop_cons, Hi. simpl.
    rewrite IH; [reflexivity| |exact Hspec].
    intros k' s' Hin. apply Hwf. right. exact Hin.
Qed.

(** X11. [begin_site] raises [AttributeError] when [config.grouper] is not
    an attribute object ([None], a string, a sequence: it has no
    [__dict__]), and when one of the groupings is not an attribute object
    while those before it are well formed ([grouping.name = name] fails on
    it); the groupings after it are not looked at. *)
Theorem begin_site_attribute_errors (site : Site) (w : world) :
  (forall v, getattr (config site) "grouper" = Some v ->
     (forall items, v <> VObj items) ->
     begin_site site w = Raise AttributeError) /\
  (forall pre key spec rest,
     getattr (config site) "grouper" = Some (VObj (pre ++ (key, spec) :: rest)) ->
     (forall k s, In (k, s) pre -> wf (with_name k s) = true) ->
     (forall d, spec <> VObj d) ->
     begin_site site w = Raise AttributeError).
Proof.
  split.
  - intros v Hg Hv. unfold begin_site. rewrite Hg.
    destruct v as [| | |items]; try reflexivity.
    exfalso. apply (Hv items). reflexivity.
  - intros pre key spec rest Hg Hwf Hspec. unfold begin_site. rewrite Hg.
    rewrite begin_site_loop_raises by assumption. reflexivity.
Qed.

Lemma begin_site_attribute_errors_witness :
  begin_site {| config := broken_config; grouper := None |} empty_world
  = Raise AttributeError.
Proof.
  apply (proj2 (begin_site_attribute_errors
                  {| config := broken_config; grouper := None |} empty_world)
           [("topics", VObj [("groups", VList [VObj [("name", VStr "a")]])])]
           "tags" VNone [] eq_refl).
  - intros k s [[= <- <-]|[]]. reflexivity.
  - intros d. discriminate.
Defined.

(** ** The registry after [begin_site] *)

(** X12. After [begin_site] on a configuration whose groupings are well
    formed, the registry holds under every key of [config.grouper] a
    [Group] object of the store whose [name] is that key, whatever [name]
    field the grouping had. *)
Theorem registry_group_names (site : Site) (w : world)
    (items : list (string * value)) :
  getattr (config site) "grouper" = Some (VObj items) ->
  distinct_keys items = true ->
  (forall key spec, In (key, spec) items -> wf (with_name key spec) = true) ->
  exists site' w' reg',
    begin_site site w = Ok (site', w') /\ grouper site' = Some reg' /\
    forall key spec, In (key, spec) items ->
      exists g o, reg' !! key = Some g /\ heap w' !! g = Some o /\
                  name o = VStr key.
Proof.
  intros Hg Hd Hwf. unfold begin_site. rewrite Hg.
  destruct (begin_site_loop_total items (default ∅ (grouper site)) w Hwf)
    as (items' & reg' & w' & Hl).
  rewrite Hl. simpl.
  destruct (config site) as [| | |c]; try discriminate.
  eexists _, w', reg'. split; [reflexivity|]. split; [reflexivity|].
  intros key spec Hin.
  destruct (begin_site_loop_fresh _ _ _ _ _ _ Hl Hd key spec Hin)
    as (g & o & d & Hr & _ & _ & Ho & Hc & Hn).
  exists g, o. split; [exact Hr|]. split; [exact Ho|].
  rewrite Hn. pose proof (Hwf key spec Hin) as Hs. rewrite Hc in Hs.
  apply wf_inv in Hs as (d' & [= <-] & Hdd & _).
  destruct spec as [| | |ds]; try discriminate. injection Hc as <-.
  unfold final_name. apply name_assigned; [apply assoc_assign|exact Hdd].
Qed.

Lemma registry_group_names_witness :
  exists site' w' reg' g o,
    begin_site example_site empty_world = Ok (site', w') /\
    grouper site' = Some reg' /\
    reg' !! "topics" = Some g /\ heap w' !! g = Some o /\ name o = VStr "topics".
Proof.
  destruct (registry_group_names example_site empty_world
              [("topics",
                VObj [("groups",
                       VList [VObj [("name", VStr "a")];
                              VObj [("name", VStr "b")]])])]
              eq_refl eq_refl) as (site' & w' & reg' & Hb & Hr & Hall).
  { intros key spec [[= <- <-]|[]]. reflexivity. }
  destruct (Hall "topics" _ (or_introl eq_refl)) as (g & o & Hg & Ho & Hn).
  exists site', w', reg', g, o. auto.
Defined.

Lemma begin_site_loop_injective items : forall reg w items' reg' w',
  begin_site_loop items reg w = Ok (items', reg', w') ->
  distinct_keys items = true ->
  forall k1 s1 k2 s2 g1 g2,
    In (k1, s1) items -> In (k2, s2) items -> k1 <> k2 ->
    reg' !! k1 = Some g1 -> reg' !! k2 = Some g2 -> g1 <> g2.
Proof.
  induction items as [|[key spec] rest IH]; intros reg w items' reg' w' H Hd;
    [intros ? ? ? ? ? ? []|].
  pose proof H as H0.
  destruct spec as [| | |d]; try discriminate.
  rewrite begin_site_loop_cons in H.
  bind_inv H. destruct a as [g w1].
  bind_inv H. destruct a as [[rest' reg1] w2]. injection H as <- <- <-.
  simpl in Hd. apply andb_prop in Hd as [Hfresh Hd].
  destruct (constructed_below _ _ _ _ E) as (Hg & Hlt & _).
  assert (Hhead : reg1 !! key = Some g).
  { destruct (begin_site_loop_spec _ _ _ _ _ _ E0) as (_ & _ & Hframe & _).
    rewrite (Hframe key (distinct_keys_assoc _ _ Hfresh)).
    apply lookup_insert_eq. }
  assert (Hrest : forall k s g', In (k, s) rest -> reg1 !! k = Some g' -> g < g').
  { intros k s g' Hin Hk.
    destruct (begin_site_loop_fresh _ _ _ _ _ _ E0 Hd k s Hin)
      as (g'' & _ & _ & Hr & Hle & _).
    rewrite Hk in Hr. injection Hr as <-. lia. }
  intros k1 s1 k2 s2 g1 g2 [[= <- <-]|H1] [[= <- <-]|H2] Hne Hk1 Hk2.
  - contradiction.
  - rewrite Hhead in Hk1. injection Hk1 as <-.
    pose proof (Hrest k2 s2 g2 H2 Hk2). lia.
  - rewrite Hhead in Hk2. injection Hk2 as <-.
    pose proof (Hrest k1 s1 g1 H1 Hk1). lia.
  - apply (IH _ _ _ _ _ E0 Hd k1 s1 k2 s2); assumption.
Qed.

(** X13. The groups that [begin_site] registers under two different keys
    of [config.grouper] are two different [Group] objects, each created by
    this run of [begin_site]. *)
Theorem registry_groups_differ (site : Site) (w : world) (site' : Site)
    (w' : world) (items : list (string * value)) (reg' : gmap string gid) :
  getattr (config site) "grouper" = Some (VObj items) ->
  distinct_keys items = true ->
  begin_site site w = Ok (site', w') ->
  grouper site' = Some reg' ->
  forall k1 s1 k2 s2 g1 g2,
    In (k1, s1) items -> In (k2, s2) items -> k1 <> k2 ->
    reg' !! k1 = Some g1 -> reg' !! k2 = Some g2 ->
    g1 <> g2 /\ length (heap w) <= g1 /\ length (heap w) <= g2.
Proof.
  intros Hg Hd H Hreg. unfold begin_site in H. rewrite Hg in H.
  bind_inv H. destruct a as [[items1 reg1] w1].
  destruct (config site) as [| | |c]; try discriminate.
  injection H as <- <-. simpl in Hreg. injection Hreg as <-.
  intros k1 s1 k2 s2 g1 g2 H1 H2 Hne Hk1 Hk2.
  split; [apply (begin_site_loop_injective _ _ _ _ _ _ E Hd k1 s1 k2 s2); assumption|].
  destruct (begin_site_loop_fresh _ _ _ _ _ _ E Hd k1 s1 H1) as (g & _ & _ & Hr & Hle & _).
  rewrite Hk1 in Hr. injection Hr as <-.
  destruct (begin_site_loop_fresh _ _ _ _ _ _ E Hd k2 s2 H2) as (g & _ & _ & Hr & Hle' & _).
  rewrite Hk2 in Hr. injection Hr as <-. auto.
Qed.

Lemma two_groupings_begin_site :
  begin_site two_groupings_site empty_world = Ok two_groupings_site_world.
Proof. vm_compute. reflexivity. Qed.

Lemma registry_groups_differ_witness :
  two_groupings_registry !! "topics" = Some 0 /\
  two_groupings_registry !! "tags" = Some 2 /\
  0 <> 2.
Proof.
  assert (H1 : two_groupings_registry !! "topics" = Some 0) by reflexivity.
  assert (H2 : two_groupings_registry !! "tags" = Some 2) by reflexivity.
  split; [exact H1|]. split; [exact H2|].
  refine (proj1 (registry_groups_differ two_groupings_site empty_world
                   (fst two_groupings_site_world) (snd two_groupings_site_world)
                   [("topics", VObj [("groups", VList [VObj [("name", VStr "a")]])]);
                    ("tags", VObj [("groups", VList [VObj [("name", VStr "t")]])])]
                   two_groupings_registry eq_refl eq_refl
                   two_groupings_begin_site eq_refl
                   "topics" _ "tags" _ 0 2 (or_introl eq_refl)
                   (or_intror (or_introl eq_refl)) _ H1 H2)).
  discriminate.
Defined.

(** ** Running [begin_site] again *)

Lemma assign_assign key v v' d :
  assign key v (assign key v' d) = assign key v d.
Proof.
  induction d as [|[k x] rest IH]; simpl.
  - rewrite String.eqb_refl. reflexivity.
  - destruct (String.eqb k key) eqn:E; simpl; rewrite E; [reflexivity|].
    rewrite IH. reflexivity.
Qed.

Lemma with_name_idem key spec :
  with_name key (with_name key spec) = with_name key spec.
Proof. destruct spec; simpl; try reflexivity. rewrite assign_assign. reflexivity. Qed.

Lemma named_idem items : named (named items) = named items.
Proof.
  induction items as [|[key spec] rest IH]; [reflexivity|].
  unfold named in *. simpl. rewrite IH, with_name_idem. reflexivity.
Qed.

Lemma forallb_named (p : string -> bool) items :
  forallb (fun kv => p (fst kv)) (named items) = forallb (fun kv => p (fst kv)) items.
Proof.
  induction items as [|[key spec] rest IH]; [reflexivity|].
  unfold named in *. simpl. rewrite IH. reflexivity.
Qed.

Lemma distinct_keys_named items : distinct_keys (named items) = distinct_keys items.
Proof.
  induction items as [|[key spec] rest IH]; [reflexivity|].
  change (named ((key, spec) :: rest)) with ((key, with_name key spec) :: named rest).
  simpl. rewrite IH.
  rewrite (forallb_named (fun k => negb (String.eqb k key)) rest). reflexivity.
Qed.

Lemma In_named key spec items :
  In (key, spec) items -> In (key, with_name key spec) (named items).
Proof.
  intros H. unfold named. apply in_map_iff. exists (key, spec). auto.
Qed.

Lemma named_In key spec' items :
  In (key, spec') (named items) ->
  exists spec, spec' = with_name key spec /\ In (key, spec) items.
Proof.
  unfold named. intros H. apply in_map_iff in H as ([k s] & [= <- <-] & Hin).
  eauto.
Qed.

(** X14. [begin_site] can be run again on the site it has left.  On a
    configuration whose groupings are well formed both runs return; the
    second run leaves the configuration as the first left it, keeps every
    [Group] object of the store, and replaces the group that the registry
    holds under each key of [config.grouper] by a group that it has newly
    created. *)
Theorem begin_site_again (site : Site) (w : world)
    (items : list (string * value)) :
  getattr (config site) "grouper" = Some (VObj items) ->
  distinct_keys items = true ->
  (forall key spec, In (key, spec) items -> wf (with_name key spec) = true) ->
  exists site1 w1 site2 w2 reg1 reg2,
    begin_site site w = Ok (site1, w1) /\
    begin_site site1 w1 = Ok (site2, w2) /\
    config site2 = config site1 /\
    grouper site1 = Some reg1 /\ grouper site2 = Some reg2 /\
    (forall k o, heap w1 !! k = Some o -> heap w2 !! k = Some o) /\
    forall key spec, In (key, spec) items ->
      exists g1 g2,
        reg1 !! key = Some g1 /\ reg2 !! key = Some g2 /\
        g1 < length (heap w1) /\ length (heap w1) <= g2.
Proof.
  intros Hg Hd Hwf.
  destruct (begin_site_loop_total items (default ∅ (grouper site)) w Hwf)
    as (items1 & reg1 & w1 & Hl1).
  destruct (begin_site_loop_spec _ _ _ _ _ _ Hl1) as (-> & _).
  assert (Hwf' : forall key spec, In (key, spec) (named items) ->
            wf (with_name key spec) = true).
  { intros key spec' Hin. destruct (named_In _ _ _ Hin) as (spec & -> & Hin').
    rewrite with_name_idem. apply Hwf, Hin'. }
  destruct (begin_site_loop_total (named items) reg1 w1 Hwf')
    as (items2 & reg2 & w2 & Hl2).
  destruct (begin_site_loop_spec _ _ _ _ _ _ Hl2) as (-> & [tl Htl] & _).
  rewrite named_idem in Hl2.
  destruct (config site) as [| | |c] eqn:Ec; try discriminate. simpl in Hg.
  exists {| config := VObj (assign "grouper" (VObj (named items)) c);
            grouper := Some reg1 |}, w1,
         {| config := VObj (assign "grouper" (VObj (named items)) c);
            grouper := Some reg2 |}, w2, reg1, reg2.
  split.
  { unfold begin_site. rewrite Ec. simpl. rewrite Hg, Hl1. reflexivity. }
  split.
  { unfold begin_site. simpl. rewrite assoc_assign, Hl2. simpl.
    rewrite assign_assign. reflexivity. }
  split; [reflexivity|]. split; [reflexivity|]. split; [reflexivity|].
  split.
  { intros k o Hk. rewrite Htl. apply lookup_app_l_Some, Hk. }
  intros key spec Hin.
  destruct (begin_site_loop_fresh _ _ _ _ _ _ Hl1 Hd key spec Hin)
    as (g1 & _ & _ & Hr1 & _ & Hlt & _).
  assert (Hd' : distinct_keys (named items) = true)
    by (rewrite distinct_keys_named; exact Hd).
  destruct (begin_site_loop_fresh _ _ _ _ _ _ Hl2 Hd' key _ (In_named _ _ _ Hin))
    as (g2 & _ & _ & Hr2 & Hle & _).
  exists g1, g2. auto.
Qed.

Lemma begin_site_again_witness :
  exists site1 w1 site2 w2,
    begin_site example_site empty_world = Ok (site1, w1) /\
    begin_site site1 w1 = Ok (site2, w2) /\
    config site2 = config site1.
Proof.
  destruct (begin_site_again example_site empty_world
              [("topics",
                VObj [("groups",
                       VList [VObj [("name", VStr "a")];
                              VObj [("name", VStr "b")]])])]
              eq_refl eq_refl)
    as (site1 & w1 & site2 & w2 & reg1 & reg2 & H1 & H2 & Hc & _).
  { intros key spec [[= <- <-]|[]]. reflexivity. }
  exists site1, w1, site2, w2. auto.
Defined.

(** ** The sorters of a tree of two levels *)

Lemma no_groups_subtrees d : forall p base,
  forallb (fun kv => negb (String.eqb (fst kv) "groups")) d = true ->
  subtrees_items p d base = [] /\ sorter_before_groups d = true /\
  ordered_items d = true.
Proof.
  induction d as [|[key v] rest IH]; intros p base H; [auto|].
  simpl in H. apply andb_prop in H as [Hk H].
  rewrite subtrees_items_cons, ordered_items_cons. simpl.
  unfold subtrees_item, subtrees_item_with, ordered_item, ordered_item_with.
  destruct (String.eqb key "groups"); [discriminate|].
  destruct (IH p (base + count_item key v) H) as (-> & -> & ->). auto.
Qed.

Lemma childless_list gs : forall p base,
  forallb wf gs = true ->
  (forall dk, In (VObj dk) gs -> assoc "groups" dk = None) ->
  forallb ordered gs = true /\
  forall i c, gs !! i = Some c -> (base + i, c, Some p) ∈ subtrees_list p gs base.
Proof.
  induction gs as [|c0 gs IH]; intros p base Hwf Hch.
  - split; [reflexivity|]. intros i c Hi. discriminate.
  - simpl in Hwf. apply andb_prop in Hwf as [Hc Hwf].
    apply wf_inv in Hc as (dk & -> & _).
    pose proof (no_key_assoc _ _ (Hch dk (or_introl eq_refl))) as Hng.
    destruct (no_groups_subtrees dk base (S base) Hng) as (Hs & Hsb & Hoi).
    destruct (no_groups_field dk 0 (initial 0 [] None) Hng) as (_ & _ & Hcount).
    destruct (IH p (base + 1) Hwf) as [Hord Hin].
    { intros dk' Hdk'. apply Hch. right. exact Hdk'. }
    split.
    + simpl. fold (ordered_items dk). rewrite Hsb, Hoi, Hord. reflexivity.
    + intros i c Hi. rewrite subtrees_list_cons, subtrees_obj.
      fold (subtrees_items base dk (S base)). rewrite Hs.
      change (count (VObj dk)) with (S (count_items dk)). rewrite Hcount.
      destruct i as [|i]; simpl in Hi.
      * injection Hi as <-. rewrite Nat.add_0_r. left.
      * right. replace (base + S i) with (base + 1 + i) by lia. apply Hin, Hi.
Qed.

Lemma groups_item d : forall p base gs,
  distinct_keys d = true -> assoc "groups" d = Some (VList gs) ->
  subtrees_items p d base = subtrees_list p gs base /\
  ordered_items d = forallb ordered gs.
Proof.
  induction d as [|[key v] rest IH]; intros p base gs Hd Hg; [discriminate|].
  simpl in Hd. apply andb_prop in Hd as [Hk Hd].
  rewrite assoc_cons in Hg. rewrite subtrees_items_cons, ordered_items_cons.
  unfold subtrees_item, subtrees_item_with, ordered_item, ordered_item_with,
    count_item, count_item_with.
  destruct (String.eqb key "groups") eqn:Ek.
  - injection Hg as ->. apply String.eqb_eq in Ek. subst key.
    destruct (no_groups_subtrees rest p (base + sum_with count gs) Hk) as (-> & _ & ->).
    rewrite app_nil_r, andb_true_r. auto.
  - rewrite Nat.add_0_r. simpl. apply IH; assumption.
Qed.

(** X17. In a tree of two levels (the groups of the root have no groups of
    their own) the sorters are what the configuration says, whatever the
    order of the fields: the root has the sorter of its grouping, or [None]
    when the grouping has none; the group built from the [i]-th entry of
    [groups] is the object that follows the root at distance [i + 1], it
    has the name of its grouping, and its sorter is the sorter of its
    grouping when that has one and the sorter of the root otherwise. *)
Theorem two_level_sorters (d : list (string * value)) (gs : list value)
    (w : world) :
  wf (VObj d) = true ->
  assoc "groups" d = Some (VList gs) ->
  (forall dk, In (VObj dk) gs -> assoc "groups" dk = None) ->
  exists g w' o,
    Group_init (VObj d) None w = Ok (g, w') /\
    heap w' !! g = Some o /\
    sorter o = default VNone (assoc "sorter" d) /\
    forall i dk, gs !! i = Some (VObj dk) ->
      exists oc,
        heap w' !! (S g + i) = Some oc /\
        name oc = final_name dk /\
        sorter oc = default (sorter o) (assoc "sorter" dk).
Proof.
  intros Hwf Hg Hch.
  destruct (proj1 construction_total _ None w None Hwf eq_refl) as (g & w' & Hi).
  apply wf_inv in Hwf as Hc. destruct Hc as (d' & [= <-] & Hd & _ & Hwfi).
  assert (Hwfgs : forallb wf gs = true).
  { clear - Hwfi Hg. induction d as [|[key v] rest IH]; [discriminate|].
    rewrite wf_items_cons in Hwfi. apply andb_prop in Hwfi as [Hv Hwfi].
    rewrite assoc_cons in Hg. unfold wf_item, wf_item_with in Hv.
    destruct (String.eqb key "groups"); [|auto].
    injection Hg as ->. exact Hv. }
  destruct (childless_list gs g (S g) Hwfgs Hch) as [Hord Hin].
  destruct (groups_item d g (S g) gs Hd Hg) as [Hsub Hoi].
  assert (Hob : ordered_below (VObj d) = true).
  { simpl. fold (ordered_items d). rewrite Hoi. exact Hord. }
  destruct (constructed_tree _ _ _ _ _ _ Hwf Hi eq_refl) as [_ Hall].
  assert (Hroot : (g, VObj d, None) ∈ subtrees (VObj d) g None).
  { rewrite subtrees_obj. left. }
  destruct (Hall _ _ _ Hroot) as ((o & Ho & _) & _).
  pose proof (ordered_resolved _ _ _ _ Hwf Hob Hi g d None o Hroot Ho) as Hso.
  exists g, w', o. split; [exact Hi|]. split; [exact Ho|]. split.
  { destruct (assoc "sorter" d); exact Hso. }
  intros i dk Hidx.
  assert (He : (S g + i, VObj dk, Some g) ∈ subtrees (VObj d) g None).
  { rewrite subtrees_obj. right. fold (subtrees_items g d (S g)).
    rewrite Hsub. apply Hin, Hidx. }
  destruct (Hall _ _ _ He) as ((oc & Hoc & Hb) & _).
  exists oc. split; [exact Hoc|].
  destruct Hb as (dk' & [= <-] & Hname & _). split; [exact Hname|].
  pose proof (ordered_resolved _ _ _ _ Hwf Hob Hi _ dk (Some g) oc He Hoc) as Hs.
  destruct (assoc "sorter" dk) as [v|]; [exact Hs|].
  destruct Hs as (po & Hpo & Hs). rewrite Ho in Hpo. injection Hpo as <-.
  exact Hs.
Qed.

Lemma two_level_sorters_witness :
  exists g w' oc,
    Group_init hyde_grouping None empty_world = Ok (g, w') /\
    heap w' !! (S g + 1) = Some oc /\
    name oc = VStr "making of" /\ sorter oc = VStr "kind".
Proof.
  destruct (two_level_sorters
              [("name", VStr "hyde"); ("sorter", VStr "kind");
               ("description", VStr "Articles about hyde");
               ("groups",
                VList [VObj [("name", VStr "announcements");
                             ("description", VStr "Hyde release announcements")];
                       VObj [("name", VStr "making of");
                             ("description",
                              VStr "Articles about hyde design decisions")];
                       VObj [("name", VStr "tips and tricks");
                             ("description", VStr "Helpful snippets and tweaks")]])]
              [VObj [("name", VStr "announcements");
                     ("description", VStr "Hyde release announcements")];
               VObj [("name", VStr "making of");
                     ("description", VStr "Articles about hyde design decisions")];
               VObj [("name", VStr "tips and tricks");
                     ("description", VStr "Helpful snippets and tweaks")]]
              empty_world eq_refl eq_refl)
    as (g & w' & o & Hi & Ho & Hs & Hall).
  { intros dk [[= <-]|[[= <-]|[[= <-]|[]]]]; reflexivity. }
  destruct (Hall 1 _ eq_refl) as (oc & Hoc & Hn & Hsc).
  exists g, w', oc. split; [exact Hi|]. split; [exact Hoc|].
  split; [exact Hn|]. rewrite Hsc, Hs. reflexivity.
Defined.

(** ** The plain fields of a grouping *)

Lemma assoc_filter_other key k (l : list (string * value)) :
  String.eqb k key = false ->
  assoc key (List.filter (fun kv => negb (String.eqb (fst kv) k)) l) = assoc key l.
Proof.
  intros Hne. induction l as [|[k' x] l IH]; [reflexivity|]. simpl.
  destruct (String.eqb_spec k' k) as [->|Hk]; simpl.
  - rewrite Hne. exact IH.
  - rewrite IH. reflexivity.
Qed.

Lemma fields_apply_item base k x cur key :
  String.eqb k key = false ->
  assoc key (fields (apply_item base k x cur)) = assoc key (fields cur).
Proof.
  intros Hne. unfold apply_item, setattr.
  destruct (String.eqb k "groups"); [destruct x; reflexivity|].
  repeat (match goal with
          | |- context [if String.eqb k ?s then _ else _] =>
              destruct (String.eqb k s)
          end); try reflexivity.
  simpl. rewrite Hne. apply assoc_filter_other, Hne.
Qed.

Lemma fields_kept d : forall base cur key,
  forallb (fun kv => negb (String.eqb (fst kv) key)) d = true ->
  assoc key (fields (apply_items base cur d)) = assoc key (fields cur).
Proof.
  induction d as [|[k x] rest IH]; intros base cur key H; [reflexivity|].
  rewrite apply_items_cons. simpl in H. apply andb_prop in H as [Hk H].
  rewrite IH by exact H. apply fields_apply_item.
  destruct (String.eqb k key); [discriminate|reflexivity].
Qed.

Lemma fields_apply_items d : forall base cur key v,
  distinct_keys d = true -> assoc key d = Some v -> plain_field key = true ->
  assoc key (fields (apply_items base cur d)) = Some v.
Proof.
  induction d as [|[k x] rest IH]; intros base cur key v Hd Ha Hp; [discriminate|].
  rewrite apply_items_cons. simpl in Hd. apply andb_prop in Hd as [Hk Hd].
  rewrite assoc_cons in Ha.
  destruct (String.eqb k key) eqn:Ek.
  - injection Ha as ->. apply String.eqb_eq in Ek. subst k.
    rewrite fields_kept by exact Hk.
    unfold plain_field in Hp.
    repeat (apply andb_prop in Hp as [Hp ?]).
    unfold apply_item, setattr.
    repeat (match goal with
            | H : negb (String.eqb key ?s) = true |- _ =>
                apply negb_true_iff in H; rewrite H; clear H
            end).
    simpl. rewrite String.eqb_refl. reflexivity.
  - apply IH; assumption.
Qed.

Lemma fields_without_groups d : forall base cur,
  assoc "groups" (fields cur) = None ->
  assoc "groups" (fields (apply_items base cur d)) = None.
Proof.
  induction d as [|[k x] rest IH]; intros base cur H; [exact H|].
  rewrite apply_items_cons. apply IH.
  destruct (String.eqb k "groups") eqn:Ek.
  - unfold apply_item. rewrite Ek. destruct x; exact H.
  - rewrite fields_apply_item by exact Ek. exact H.
Qed.

(** X18. Every field of a grouping other than [name], [parent], [root],
    [sorter] and [groups] is copied onto every group built from it: the
    group holds the value of the grouping under the same name.  The
    [groups] field is never copied as it is: no group holds the
    configuration sequence under [groups]. *)
Theorem plain_fields_copied (c : value) (w : world) (g : gid) (w' : world) :
  wf c = true -> Group_init c None w = Ok (g, w') ->
  forall k dk p, (k, VObj dk, p) ∈ subtrees c g None ->
    exists o,
      heap w' !! k = Some o /\
      assoc "groups" (fields o) = None /\
      forall key v, assoc key dk = Some v -> plain_field key = true ->
        assoc key (fields o) = Some v.
Proof.
  intros Hwf Hi k dk p He.
  destruct (proj1 construction_heap _ _ _ _ _ _ Hi eq_refl) as (Hg & Hh & _).
  destruct (proj1 subtrees_wf _ _ _ _ Hwf He) as (Hck & Hlo & Hhi).
  destruct (proj1 build_segment c g None _ He) as (pre & post & po' & Hb & Hl & _).
  cbn [fst snd] in *.
  apply wf_inv in Hck as (d' & [= <-] & Hd & _).
  exists (apply_items (S k) (initial k dk po') dk). split; [|split].
  - rewrite Hh, Hb, build_obj, app_assoc. apply list_lookup_middle.
    rewrite length_app. lia.
  - apply fields_without_groups. reflexivity.
  - intros key v Ha Hp. apply fields_apply_items; assumption.
Qed.

Lemma plain_fields_copied_witness :
  exists o,
    heap hyde_world !! 2 = Some o /\
    assoc "description" (fields o)
    = Some (VStr "Articles about hyde design decisions").
Proof.
  destruct (plain_fields_copied hyde_grouping empty_world 0 hyde_world
              eq_refl eq_refl 2
              [("name", VStr "making of");
               ("description", VStr "Articles about hyde design decisions")]
              (Some 0)) as (o & Ho & _ & Hf).
  { right. right. left. }
  exists o. split; [exact Ho|]. apply Hf; reflexivity.
Defined.
